(** * nidhz_ultimate: probing and differential-detection engine

    A shallow embedding of the decision logic of
    [core/directory_scanner.py] (with [utils/progress_bar.py] and
    [urllib.parse.urljoin], which it calls), [core/sqli_scanner.py] and
    [core/xss_scanner.py], with the properties the design document
    states about them. *)

From Stdlib Require Import ZArith NArith Bool Lia Floats.
From stdpp Require Import base list strings.

Local Open Scope nat_scope.

(** ** Python strings

    A Python [str] is a sequence of code points.  A code point is an [N];
    [py] reads an ASCII literal. *)

Abbreviation char := N.
Abbreviation str := (list N).

Definition py (s : string) : str :=
  map Ascii.N_of_ascii (String.list_ascii_of_string s).

Module Str.

(** [s.startswith(p)] *)
Fixpoint startswith (s p : str) {struct p} : bool :=
  match p, s with
  | [], _ => true
  | _ :: _, [] => false
  | a :: p', b :: s' => N.eqb a b && startswith s' p'
  end.

(** [p in s]: [p] occurs as a contiguous run of [s] *)
Fixpoint contains (s p : str) : bool :=
  startswith s p ||
  match s with
  | [] => false
  | _ :: s' => contains s' p
  end.

(** [s.replace(old, new)] for a one-character [old] *)
Definition replace (s : str) (old : char) (new : str) : str :=
  flat_map (fun c => if N.eqb c old then new else [c]) s.

(** [s[:n]] *)
Definition slice_to (n : nat) (s : str) : str := take n s.

(** [s[-n:]] for [n > 0] *)
Definition slice_last (n : nat) (s : str) : str := drop (length s - n) s.

(** [s.rstrip(c)] for a one-character argument *)
Fixpoint rstrip (s : str) (c : char) : str :=
  match s with
  | [] => []
  | a :: s' =>
      match rstrip s' c with
      | [] => if N.eqb a c then [] else [a]
      | r => a :: r
      end
  end.

(** The relation [contains] decides. *)
Definition occurs_in (p s : str) : Prop := ∃ l r, s = l ++ p ++ r.

End Str.

(** ** Reflection-based XSS detection ([core/xss_scanner.py]) *)

Module XSSScanner.

(** The three entries of [encoded_variations]. *)
Definition html_variant (payload : str) : str :=
  Str.replace (Str.replace payload 60%N (py "&lt;")) 62%N (py "&gt;").

Definition url_variant (payload : str) : str :=
  Str.replace (Str.replace payload 60%N (py "%3C")) 62%N (py "%3E").

Definition unicode_variant (payload : str) : str :=
  Str.replace (Str.replace payload 60%N (py "\u003C")) 62%N (py "\u003E").

Definition encoded_variations (payload : str) : list str :=
  [html_variant payload; url_variant payload; unicode_variant payload].

(** [XSSScanner._is_xss_reflected(payload, response)], on [response.text]. *)
Definition _is_xss_reflected (payload text : str) : bool :=
  if Str.contains text payload then true
  else if existsb (fun encoded => Str.contains text encoded)
                  (encoded_variations payload) then true
  else if 10 <? length payload then
    let start := Str.slice_to 5 payload in
    let end_ := Str.slice_last 5 payload in
    if Str.contains text start && Str.contains text end_ then true
    else false
  else false.

(** The encoded variants as the design document describes them: the
    payload with every [<] written as [lt] and every [>] as [gt], read
    off one character at a time; HTML entities are [&lt;] and [&gt;],
    percent-encoding gives [%3C] and [%3E], a Unicode escape [\u003C]
    and [\u003E]. *)
Fixpoint escape_angle_brackets (lt gt payload : str) : str :=
  match payload with
  | [] => []
  | c :: rest =>
      (if N.eqb c 60 then lt else if N.eqb c 62 then gt else [c])
        ++ escape_angle_brackets lt gt rest
  end.

End XSSScanner.

(** ** Library functions behind [urllib.parse]

    When [urlsplit] validates an authority it consults [unicodedata],
    [re] and [ipaddress]. *)

Inductive IpAddress : Type := IPv4Address | IPv6Address.

Class Library : Type := {
  (** [unicodedata.normalize('NFKC', s)] *)
  normalize_nfkc : str → str;
  (** [re.match(pattern, s)] finds a match *)
  re_match : str → str → bool;
  (** [ipaddress.ip_address(s)]; [None] is its [ValueError] *)
  ip_address : str → option IpAddress
}.

(** ** [urllib.parse.urljoin]

    The functions of CPython 3.11's [Lib/urllib/parse.py] that [urljoin]
    runs through, for [str] arguments and [allow_fragments=True].  [None] is
    the [ValueError] that [urlsplit] raises for an authority it rejects. *)

Module UrlLib.

Definition uses_relative : list str :=
  map py [""; "ftp"; "http"; "gopher"; "nntp"; "imap"; "wais"; "file";
          "https"; "shttp"; "mms"; "prospero"; "rtsp"; "rtspu"; "sftp";
          "svn"; "svn+ssh"; "ws"; "wss"]%string.

Definition uses_netloc : list str :=
  map py [""; "ftp"; "http"; "gopher"; "nntp"; "telnet"; "imap"; "wais";
          "file"; "mms"; "https"; "shttp"; "snews"; "prospero"; "rtsp";
          "rtspu"; "rsync"; "svn"; "svn+ssh"; "sftp"; "nfs"; "git";
          "git+ssh"; "ws"; "wss"]%string.

Definition uses_params : list str :=
  map py [""; "ftp"; "hdl"; "prospero"; "http"; "imap"; "https"; "shttp";
          "rtsp"; "rtspu"; "sip"; "sips"; "mms"; "sftp"; "tel"]%string.

Definition scheme_chars : str :=
  py "abcdefghijklmnopqrstuvwxyzABCDEFGHIJKLMNOPQRSTUVWXYZ0123456789+-.".

Definition mem_char (c : char) (s : str) : bool := existsb (N.eqb c) s.

Definition mem_str (s : str) (l : list str) : bool :=
  existsb (fun t => bool_decide (s = t)) l.

(** [s.find(c)]: the index of the first [c] *)
Fixpoint find (s : str) (c : char) : option nat :=
  match s with
  | [] => None
  | a :: s' => if N.eqb a c then Some 0 else S <$> find s' c
  end.

(** [s.find(c, start)] for [start <= len(s)] *)
Definition find_from (s : str) (c : char) (start : nat) : option nat :=
  (fun i => start + i) <$> find (drop start s) c.

(** [s.rfind(c)]: the index of the last [c] *)
Fixpoint rfind (s : str) (c : char) : option nat :=
  match s with
  | [] => None
  | a :: s' =>
      match rfind s' c with
      | Some i => Some (S i)
      | None => if N.eqb a c then Some 0 else None
      end
  end.

(** [s.split(c)] *)
Fixpoint split (s : str) (c : char) : list str :=
  match s with
  | [] => [[]]
  | a :: s' =>
      if N.eqb a c then [] :: split s' c
      else match split s' c with
           | [] => [[a]]
           | part :: parts => (a :: part) :: parts
           end
  end.

(** [sep.join(parts)] *)
Fixpoint join (sep : str) (parts : list str) : str :=
  match parts with
  | [] => []
  | [part] => part
  | part :: parts' => part ++ sep ++ join sep parts'
  end.

(** [s.split(c, 1)] when [c] occurs in [s] *)
Definition split_once (s : str) (c : char) : str * str :=
  match find s c with
  | Some i => (take i s, drop (S i) s)
  | None => (s, [])
  end.

(** [s.lstrip(_WHATWG_C0_CONTROL_OR_SPACE)] *)
Fixpoint lstrip_c0 (s : str) : str :=
  match s with
  | [] => []
  | a :: s' => if (a <=? 32)%N then lstrip_c0 s' else s
  end.

(** [s.strip(_WHATWG_C0_CONTROL_OR_SPACE)] *)
Definition strip_c0 (s : str) : str :=
  reverse (lstrip_c0 (reverse (lstrip_c0 s))).

(** Removing [_UNSAFE_URL_BYTES_TO_REMOVE]: tab, carriage return, newline. *)
Definition remove_unsafe (s : str) : str :=
  List.filter (fun c => negb (N.eqb c 9 || N.eqb c 13 || N.eqb c 10)) s.

(** [c.isascii() and c.isalpha()] *)
Definition is_ascii_alpha (c : char) : bool :=
  ((65 <=? c) && (c <=? 90) || (97 <=? c) && (c <=? 122))%N.

(** [s.lower()] on a string of [scheme_chars] *)
Definition lower (s : str) : str :=
  map (fun c => if ((65 <=? c) && (c <=? 90))%N then (c + 32)%N else c) s.

(** [_splitnetloc(url, 2)] *)
Definition _splitnetloc (url : str) : str * str :=
  let delim :=
    foldl (fun delim c =>
             match find_from url c 2 with
             | Some wdelim => Nat.min delim wdelim
             | None => delim
             end)
          (length url) (py "/?#") in
  (drop 2 (take delim url), drop delim url).

Record SplitResult : Type := mkSplitResult {
  sr_scheme : str; sr_netloc : str; sr_path : str;
  sr_query : str; sr_fragment : str
}.

(** [s.partition(c)]: what precedes the first [c], whether there is one,
    and what follows it *)
Definition partition (s : str) (c : char) : str * bool * str :=
  match find s c with
  | Some i => (take i s, true, drop (S i) s)
  | None => (s, false, [])
  end.

(** [s.rpartition(c)[2]]: what follows the last [c] *)
Definition rpartition_tail (s : str) (c : char) : str :=
  match rfind s c with
  | Some i => drop (S i) s
  | None => s
  end.

(** [s.isascii()] *)
Definition isascii (s : str) : bool := forallb (fun c => (c <? 128)%N) s.

Section Validation.

Context {library : Library}.

(** [_checknetloc(netloc)]: [true] when it returns, [false] when it
    raises [ValueError] *)
Definition _checknetloc (netloc : str) : bool :=
  if bool_decide (netloc = []) || isascii netloc then true
  else
    let n := Str.replace netloc 64%N [] in
    let n := Str.replace n 58%N [] in
    let n := Str.replace n 35%N [] in
    let n := Str.replace n 63%N [] in
    let netloc2 := normalize_nfkc n in
    if bool_decide (n = netloc2) then true
    else negb (existsb (fun c => mem_char c netloc2) (py "/?#@:")).

(** [_check_bracketed_host(hostname)], likewise *)
Definition _check_bracketed_host (hostname : str) : bool :=
  if Str.startswith hostname (py "v") then
    re_match (py "\Av[a-fA-F0-9]+\..+\Z") hostname
  else
    match ip_address hostname with
    | Some IPv6Address => true
    | Some IPv4Address => false
    | None => false
    end.

(** [_check_bracketed_netloc(netloc)], likewise *)
Definition _check_bracketed_netloc (netloc : str) : bool :=
  let hostname_and_port := rpartition_tail netloc 64%N in
  let '(before_bracket, have_open_br, bracketed) :=
    partition hostname_and_port 91%N in
  if have_open_br then
    if negb (bool_decide (before_bracket = [])) then false
    else
      let '(hostname, _, port) := partition bracketed 93%N in
      if negb (bool_decide (port = []))
         && negb (Str.startswith port (py ":"))
      then false
      else _check_bracketed_host hostname
  else
    let '(hostname, _, port) := partition hostname_and_port 58%N in
    _check_bracketed_host hostname.

(** [urlsplit(url, scheme)] *)
Definition urlsplit (url scheme : str) : option SplitResult :=
  let url := lstrip_c0 url in
  let scheme := strip_c0 scheme in
  let url := remove_unsafe url in
  let scheme := remove_unsafe scheme in
  let '(scheme, url) :=
    match find url 58%N, url with
    | Some (S _ as i), c0 :: _ =>
        if is_ascii_alpha c0
           && forallb (fun c => mem_char c scheme_chars) (take i url)
        then (lower (take i url), drop (S i) url)
        else (scheme, url)
    | _, _ => (scheme, url)
    end in
  let '(netloc, url) :=
    if bool_decide (take 2 url = py "//") then _splitnetloc url
    else ([], url) in
  if mem_char 91%N netloc && negb (mem_char 93%N netloc)
     || mem_char 93%N netloc && negb (mem_char 91%N netloc)
  then None
  else if mem_char 91%N netloc && mem_char 93%N netloc
          && negb (_check_bracketed_netloc netloc)
  then None
  else
    let '(url, fragment) :=
      if mem_char 35%N url then split_once url 35%N else (url, []) in
    let '(url, query) :=
      if mem_char 63%N url then split_once url 63%N else (url, []) in
    if negb (_checknetloc netloc) then None
    else
      Some {| sr_scheme := scheme; sr_netloc := netloc; sr_path := url;
              sr_query := query; sr_fragment := fragment |}.

(** [_splitparams(url)] *)
Definition _splitparams (url : str) : str * str :=
  let cut (i : nat) := (take i url, drop (S i) url) in
  match rfind url 47%N with
  | Some slash =>
      match find_from url 59%N slash with
      | Some i => cut i
      | None => (url, [])
      end
  | None =>
      match find url 59%N with
      | Some i => cut i
      | None => (take (length url - 1) url, url)   (* [i = -1] *)
      end
  end.

Record ParseResult : Type := mkParseResult {
  scheme : str; netloc : str; path : str;
  params : str; query : str; fragment : str
}.

(** [urlparse(url, scheme)] *)
Definition urlparse (url scheme : str) : option ParseResult :=
  splitresult ← urlsplit url scheme;
  let '(url, params) :=
    if mem_str (sr_scheme splitresult) uses_params
       && mem_char 59%N (sr_path splitresult)
    then _splitparams (sr_path splitresult)
    else (sr_path splitresult, []) in
  Some {| scheme := sr_scheme splitresult; netloc := sr_netloc splitresult;
          path := url; params := params;
          query := sr_query splitresult;
          fragment := sr_fragment splitresult |}.

(** [urlunsplit] *)
Definition urlunsplit (scheme netloc url query fragment : str) : str :=
  let url :=
    if negb (bool_decide (netloc = []))
       || negb (bool_decide (scheme = [])) && mem_str scheme uses_netloc
          && negb (bool_decide (take 2 url = py "//"))
    then
      let url :=
        if negb (bool_decide (url = []))
           && negb (bool_decide (take 1 url = py "/"))
        then py "/" ++ url else url in
      py "//" ++ netloc ++ url
    else url in
  let url :=
    if negb (bool_decide (scheme = [])) then scheme ++ py ":" ++ url
    else url in
  let url :=
    if negb (bool_decide (query = [])) then url ++ py "?" ++ query
    else url in
  if negb (bool_decide (fragment = [])) then url ++ py "#" ++ fragment
  else url.

(** [urlunparse] *)
Definition urlunparse (p : ParseResult) : str :=
  let url :=
    if negb (bool_decide (params p = [])) then path p ++ py ";" ++ params p
    else path p in
  urlunsplit (scheme p) (netloc p) url (query p) (fragment p).

(** [segments[1:-1] = filter(None, segments[1:-1])] *)
Definition drop_empty_inner (segments : list str) : list str :=
  match segments with
  | first :: (_ :: _) as rest =>
      first :: filter (fun seg => seg ≠ []) (take (length rest - 1) rest)
        ++ drop (length rest - 1) rest
  | _ => segments
  end.

(** The loop of [urljoin] over [segments]. *)
Definition resolve (segments : list str) : list str :=
  foldl (fun resolved_path seg =>
           if bool_decide (seg = py "..") then
             take (length resolved_path - 1) resolved_path
           else if bool_decide (seg = py ".") then resolved_path
           else resolved_path ++ [seg])
        [] segments.

(** [urljoin(base, url)] *)
Definition urljoin (base url : str) : option str :=
  if bool_decide (base = []) then Some url
  else if bool_decide (url = []) then Some base
  else
    b ← urlparse base [];
    u ← urlparse url (scheme b);
    if negb (bool_decide (scheme u = scheme b))
       || negb (mem_str (scheme u) uses_relative)
    then Some url
    else if mem_str (scheme u) uses_netloc
            && negb (bool_decide (netloc u = []))
    then Some (urlunparse u)
    else
      let netloc' :=
        if mem_str (scheme u) uses_netloc then netloc b else netloc u in
      if bool_decide (path u = []) && bool_decide (params u = []) then
        Some (urlunparse
                {| scheme := scheme u; netloc := netloc';
                   path := path b; params := params b;
                   query := if bool_decide (query u = []) then query b
                            else query u;
                   fragment := fragment u |})
      else
        let base_parts := split (path b) 47%N in
        let base_parts :=
          if bool_decide (last base_parts = Some [])
          then base_parts
          else take (length base_parts - 1) base_parts in
        let segments :=
          if bool_decide (take 1 (path u) = py "/")
          then split (path u) 47%N
          else drop_empty_inner (base_parts ++ split (path u) 47%N) in
        let resolved_path := resolve segments in
        let resolved_path :=
          if bool_decide (last segments = Some (py "."))
             || bool_decide (last segments = Some (py ".."))
          then resolved_path ++ [[]] else resolved_path in
        let joined := join (py "/") resolved_path in
        Some (urlunparse
                {| scheme := scheme u; netloc := netloc';
                   path := if bool_decide (joined = []) then py "/"
                           else joined;
                   params := params u; query := query u;
                   fragment := fragment u |}).

End Validation.

End UrlLib.

(** URLs on which [urljoin] appends: the bases and the candidates. *)

Module PlainUrl.
Import UrlLib.

(** A character that [urlsplit] keeps: none of tab, carriage return and
    newline. *)
Definition kept_char (c : char) : Prop := c ≠ 9%N ∧ c ≠ 13%N ∧ c ≠ 10%N.

(** A character of a path segment or of an authority: kept, and none of
    [/ ? #]. *)
Definition segment_char (c : char) : Prop :=
  kept_char c ∧ c ≠ 47%N ∧ c ≠ 63%N ∧ c ≠ 35%N.

(** A path segment that is neither empty nor a dot segment. *)
Definition segment (seg : str) : Prop :=
  seg ≠ [] ∧ Forall segment_char seg ∧ seg ≠ py "." ∧ seg ≠ py "..".

(** The last path segment of a candidate, up to its parameters; it is
    empty after a trailing slash. *)
Definition leaf_segment (leaf : str) : Prop :=
  Forall (λ c, segment_char c ∧ c ≠ 59%N) leaf
  ∧ leaf ≠ py "." ∧ leaf ≠ py "..".

(** An authority that [urlsplit] accepts. *)
Definition authority {library : Library} (netloc : str) : Prop :=
  netloc ≠ [] ∧ Forall segment_char netloc
  ∧ mem_char 91%N netloc = mem_char 93%N netloc
  ∧ (mem_char 91%N netloc = true → _check_bracketed_netloc netloc = true)
  ∧ _checknetloc netloc = true.

(** A character of a host name in ASCII: printable, none of
    [/ ? # [ ]]. *)
Definition host_char (c : char) : Prop :=
  (32 < c < 127 ∧ c ≠ 47 ∧ c ≠ 63 ∧ c ≠ 35 ∧ c ≠ 91 ∧ c ≠ 93)%N.

(** [/seg1/.../segn] *)
Definition dirs (segs : list str) : str :=
  concat (map (cons 47%N) segs).

(** [scheme://netloc/seg1/.../segn] *)
Definition plain_url (scheme netloc : str) (segs : list str) : str :=
  scheme ++ py "://" ++ netloc ++ dirs segs.

(** A lower-case scheme that [urlsplit] recognises. *)
Definition scheme_ok (scheme : str) : bool :=
  match scheme with
  | [] => false
  | c0 :: _ =>
      is_ascii_alpha c0
      && forallb (λ c, mem_char c scheme_chars) scheme
      && bool_decide (lower scheme = scheme)
  end.

(** [d] and [s], or nothing when [s] is empty *)
Definition suffix (d : char) (s : str) : str :=
  match s with
  | [] => []
  | _ :: _ => d :: s
  end.

(** A relative reference [dir/.../dir/leaf;params?query#fragment]; an
    empty [params], [query] or [fragment] is absent, with its mark. *)
Record Reference : Type := mkReference {
  ref_dirs : list str;
  ref_leaf : str;
  ref_params : str;
  ref_query : str;
  ref_fragment : str
}.

Definition ref_path (r : Reference) : str :=
  join (py "/") (ref_dirs r ++ [ref_leaf r]).

Definition written (r : Reference) : str :=
  ref_path r ++ suffix 59%N (ref_params r) ++ suffix 63%N (ref_query r)
    ++ suffix 35%N (ref_fragment r).

(** The references that [urljoin] appends to a base: no tab, carriage
    return or newline; no dot segment and no empty one but the last; no
    colon in the first segment; nothing up to U+0020 in front. *)
Definition appendable (r : Reference) : Prop :=
  Forall segment (ref_dirs r) ∧ leaf_segment (ref_leaf r)
  ∧ Forall segment_char (ref_params r)
  ∧ Forall (λ c, kept_char c ∧ c ≠ 35%N) (ref_query r)
  ∧ Forall kept_char (ref_fragment r)
  ∧ (∀ c, head (written r) = Some c → (32 < c)%N)
  ∧ 58%N ∉ default [] (head (ref_dirs r ++ [ref_leaf r])).

End PlainUrl.

(** ** The transport collaborator ([utils/http_client.py]) *)

Module Http.

(** Modelled from the spec: the response class of [utils/http_client.py],
    which is not among the sources.  A response carries [status_code],
    [headers], [content], [text] and [elapsed]; as an object it is
    truthy. *)
Record Response : Type := mkResponse {
  status_code : Z;
  headers : list (str * str);
  content : list N;            (* the raw body, one entry per byte *)
  text : str;                  (* the decoded body *)
  elapsed : float              (* [elapsed.total_seconds()] *)
}.

(** Modelled from the spec: what [HTTPClient.get] does, "Response |
    TransportFailure".  A failure shows up at the call site as a falsy
    value or as a raised exception. *)
Inductive Outcome : Type :=
| Got (response : Response)
| NoResponse                   (* a falsy return value *)
| Raised.                      (* an exception out of [get] *)

End Http.

(** ** Progress bar ([utils/progress_bar.py]) *)

(** The exceptions that leave the code modelled here. *)
Inductive Exception : Type :=
| ValueError
| ZeroDivisionError
| OverflowError.

Module ProgressBar.

(** The attributes of a [ProgressBar] that [_print] computes with. *)
Record Bar : Type := mkBar {
  total : Z;
  current : Z;
  start_time : float
}.

(** [ProgressBar.__init__]; [now] is the reading of [time.time()]. *)
Definition __init__ (total : Z) (now : float) : Bar :=
  {| total := total; current := 0; start_time := now |}.

(** The float of a Python [int], for counts below [2^63]. *)
Definition float_of_int (n : Z) : float :=
  match n with
  | Z0 => 0
  | Zpos _ => PrimFloat.of_uint63 (Uint63.of_Z n)
  | Zneg p => - PrimFloat.of_uint63 (Uint63.of_Z (Zpos p))
  end.

(** [ProgressBar._print]: the exception it raises, if any.  [percent =
    self.current / self.total] divides two [int]s; [self.current / elapsed]
    divides by a float; [int(eta_seconds)] rejects a NaN and
    [timedelta(seconds=...)] takes between -999999999 and 999999999 days.
    Writing to the terminal is taken to succeed. *)
Definition _print (self : Bar) (now : float) : option Exception :=
  if (total self =? 0)%Z then Some ZeroDivisionError
  else
    let elapsed := (now - start_time self)%float in
    if (0 <? current self)%Z then
      if PrimFloat.eqb elapsed 0 then Some ZeroDivisionError
      else
        let items_per_second := (float_of_int (current self) / elapsed)%float in
        if PrimFloat.ltb 0 items_per_second then
          let eta_seconds :=
            (float_of_int (total self - current self) / items_per_second)%float
          in
          if PrimFloat.is_nan eta_seconds then Some ValueError
          else if PrimFloat.ltb (-86399999913601) eta_seconds
                  && PrimFloat.ltb eta_seconds 86400000000000
          then None
          else Some OverflowError
        else None
    else None.

(** [self.current += n], the first statement of [update]. *)
Definition advance (self : Bar) (n : Z) : Bar :=
  {| total := total self; current := current self + n;
     start_time := start_time self |}.

End ProgressBar.

(** ** Path prober ([core/directory_scanner.py]) *)

Module DirectoryScanner.
Import Http.

(** The dictionary returned by [_check_directory]. *)
Record ProbeResult : Type := mkProbeResult {
  pr_url : str;
  pr_status_code : Z;
  pr_content_length : nat;
  pr_headers : list (str * str);
  pr_title : str;
  pr_response_time : float
}.

(** [self.stats] *)
Record Stats : Type := mkStats {
  total : Z;
  found : Z;
  errors : Z;
  start_time : float;
  end_time : float
}.

(** The attributes of a [DirectoryScanner] instance. *)
Record Scanner : Type := mkScanner {
  base_url : str;
  wordlist : list str;
  threads : Z;
  stats : Stats;
  results : list ProbeResult
}.

(** What [future.result(timeout=1)] does for a finished future. *)
Inductive FutureResult : Type :=
| Returned (result : option ProbeResult)
| Excepted.

Record Future : Type := mkFuture {
  fut_url : str;
  fut_result : FutureResult
}.

(** How a call of [scan] ends: it returns [ret], or an exception leaves
    it. *)
Inductive ScanEnd : Type :=
| Completed (s : Scanner) (ret : list ProbeResult)
| Aborted (s : Scanner) (e : Exception).

Record ScanRun : Type := mkScanRun {
  run_end : ScanEnd;
  run_requests : list str;
  run_states : list Scanner
}.

(** [DirectoryScanner.__init__] *)
Definition __init__ (base_url : str) (wordlist : list str) (threads : Z)
  : Scanner :=
  {| base_url := Str.rstrip base_url 47%N;
     wordlist := wordlist;
     threads := Z.min threads 200;
     stats := {| total := 0; found := 0; errors := 0;
                 start_time := 0; end_time := 0 |};
     results := [] |}.

(** [DirectoryScanner._is_interesting_response] *)
Definition _is_interesting_response (response : Response) : bool :=
  if existsb (Z.eqb (status_code response)) [200; 201; 204]%Z then true
  else if existsb (Z.eqb (status_code response)) [301; 302; 303; 307; 308]%Z
  then true
  else if existsb (Z.eqb (status_code response)) [401; 403]%Z then true
  else if (500 <=? status_code response)%Z then true
  else false.

(** [DirectoryScanner._build_url]; [None] when [urljoin] raises. *)
Definition _build_url {library : Library} (self : Scanner) (path : str)
  : option str :=
  let path := if Str.startswith path (py "/") then drop 1 path else path in
  UrlLib.urljoin (base_url self ++ py "/") path.

(** The dictionary [_check_directory] builds for [response]. *)
Definition probe_result (title : str → str) (url : str) (response : Response)
  : ProbeResult :=
  {| pr_url := url;
     pr_status_code := status_code response;
     pr_content_length := length (content response);
     pr_headers := headers response;
     pr_title := title (text response);
     pr_response_time := elapsed response |}.

Section Scan.

Context {library : Library}.

(** [re.search(pattern, text, re.IGNORECASE)]: group 1 of the first
    match, if there is one. *)
Variable re_search_group1 : str → str → option str.

(** [s.strip()] *)
Variable strip : str → str.

(** [DirectoryScanner._extract_title] *)
Definition _extract_title (html : str) : str :=
  match re_search_group1 (py "<title>(.*?)</title>") html with
  | Some group => strip group
  | None => []
  end.

(** The outcome of the request of the [i]-th submitted task. *)
Variable client_get : nat → str → Outcome.

(** The [k]-th reading of [time.time()] in the thread that runs [scan]. *)
Variable clock : nat → float.

(** [DirectoryScanner._check_directory], run as the [i]-th task. *)
Definition _check_directory (i : nat) (url : str) : option ProbeResult :=
  match client_get i url with
  | Got response =>
      if _is_interesting_response response then
        Some (probe_result _extract_title url response)
      else None
  | NoResponse => None
  | Raised => None               (* [except Exception], then [return None] *)
  end.

(** The submission loop: one task per word, in order.  The second
    component tells whether [_build_url] raised, which ends the loop. *)
Fixpoint submit_all (self : Scanner) (i : nat) (words : list str)
  : list Future * bool :=
  match words with
  | [] => ([], false)
  | word :: words' =>
      match _build_url self word with
      | None => ([], true)
      | Some url =>
          let future := {| fut_url := url;
                           fut_result := Returned (_check_directory i url) |} in
          let '(futures, raised) := submit_all self (S i) words' in
          (future :: futures, raised)
      end
  end.

Definition set_stats (self : Scanner) (st : Stats) : Scanner :=
  {| base_url := base_url self; wordlist := wordlist self;
     threads := threads self; stats := st; results := results self |}.

(** The [try] statement of one turn of the [as_completed] loop. *)
Definition gather (self : Scanner) (future : Future) : Scanner :=
  match fut_result future with
  | Returned (Some result) =>
      {| base_url := base_url self; wordlist := wordlist self;
         threads := threads self;
         stats := {| total := total (stats self);
                     found := found (stats self) + 1;
                     errors := errors (stats self);
                     start_time := start_time (stats self);
                     end_time := end_time (stats self) |};
         results := results self ++ [result] |}
  | Returned None => self
  | Excepted =>
      set_stats self
        {| total := total (stats self);
           found := found (stats self);
           errors := errors (stats self) + 1;
           start_time := start_time (stats self);
           end_time := end_time (stats self) |}
  end.

(** [self.stats['total'] = completed] *)
Definition set_total (self : Scanner) (completed : Z) : Scanner :=
  set_stats self
    {| total := completed;
       found := found (stats self);
       errors := errors (stats self);
       start_time := start_time (stats self);
       end_time := end_time (stats self) |}.

Definition set_start_time (self : Scanner) (t : float) : Scanner :=
  set_stats self
    {| total := total (stats self); found := found (stats self);
       errors := errors (stats self);
       start_time := t; end_time := end_time (stats self) |}.

Definition set_end_time (self : Scanner) (t : float) : Scanner :=
  set_stats self
    {| total := total (stats self); found := found (stats self);
       errors := errors (stats self);
       start_time := start_time (stats self); end_time := t |}.

(** The [as_completed] loop over the futures in the order they finish:
    the states of the scanner after each turn, the progress bar, and the
    exception of [progress.update(1)] that ended the loop, if any.
    [completed] counts the turns, [tick] the readings of the clock. *)
Fixpoint drain (self : Scanner) (progress : ProgressBar.Bar)
  (completed : Z) (tick : nat) (done : list Future)
  : list Scanner * ProgressBar.Bar * option Exception :=
  match done with
  | [] => ([], progress, None)
  | future :: done' =>
      let completed := (completed + 1)%Z in
      let self := gather self future in
      let progress := ProgressBar.advance progress 1 in
      match ProgressBar._print progress (clock tick) with
      | Some e => ([self], progress, Some e)
      | None =>
          let self := set_total self completed in
          let '(states, progress, e) :=
            drain self progress completed (S tick) done' in
          (self :: states, progress, e)
      end
  end.

(** [DirectoryScanner.scan].  The pool constructor
    [ThreadPoolExecutor(max_workers)] raises [ValueError] for
    [max_workers <= 0]; [as_completed] hands the futures over in some
    order [done].  [run_requests] lists the URLs requested, [run_states]
    the states of the scanner: on entry, after each turn of the loop,
    and on return. *)
Definition scan_with (self : Scanner) (done : list Future → list Future)
  : ScanRun :=
  let self := set_start_time self (clock 0) in
  let progress :=
    ProgressBar.__init__ (Z.of_nat (length (wordlist self))) (clock 1) in
  if (threads self <=? 0)%Z then
    {| run_end := Aborted self ValueError; run_requests := [];
       run_states := [self] |}
  else
    let '(futures, raised) := submit_all self 0 (wordlist self) in
    if raised then
      {| run_end := Aborted self ValueError;
         run_requests := map fut_url futures; run_states := [self] |}
    else
      let '(states, progress, e) := drain self progress 0 2 (done futures) in
      let self' := default self (last states) in
      match e with
      | Some e =>
          {| run_end := Aborted self' e; run_requests := map fut_url futures;
             run_states := self :: states |}
      | None =>
          (* [progress.close()] *)
          match ProgressBar._print progress (clock (2 + length futures)) with
          | Some e =>
              {| run_end := Aborted self' e;
                 run_requests := map fut_url futures;
                 run_states := self :: states |}
          | None =>
              let final := set_end_time self' (clock (3 + length futures)) in
              {| run_end := Completed final (results final);
                 run_requests := map fut_url futures;
                 run_states := self :: states ++ [final] |}
          end
      end.

(** A run of [scan]: [scan_with] for some completion order. *)
Inductive scan (self : Scanner) : ScanRun → Prop :=
| scan_intro (done : list Future → list Future) :
    (∀ futures, done futures ≡ₚ futures) →
    scan self (scan_with self done).

End Scan.

(** The classification rule of the design document, on a status code. *)
Definition retained_status (c : Z) : Prop :=
  (c ∈ [200; 201; 204] ∨ c ∈ [301; 302; 303; 307; 308] ∨ c ∈ [401; 403]
   ∨ 500 ≤ c)%Z.

(** What a finished future contributes to [self.results]. *)
Definition retained (future : Future) : option ProbeResult :=
  match fut_result future with
  | Returned result => result
  | Excepted => None
  end.

Definition excepted (future : Future) : bool :=
  match fut_result future with
  | Returned _ => false
  | Excepted => true
  end.

Definition completed (e : ScanEnd) : bool :=
  match e with Completed _ _ => true | Aborted _ _ => false end.

Definition end_state (e : ScanEnd) : Scanner :=
  match e with Completed s _ | Aborted s _ => s end.

Definition returned (e : ScanEnd) : list ProbeResult :=
  match e with Completed _ ret => ret | Aborted _ _ => [] end.

Definition raised (e : ScanEnd) : option Exception :=
  match e with Completed _ _ => None | Aborted _ e => Some e end.

(** The counter [found] agrees with the list of results. *)
Definition found_is_len (s : Scanner) : Prop :=
  found (stats s) = Z.of_nat (length (results s)).

End DirectoryScanner.

(** Stubbed collaborators and the runs of the prober against them. *)

Module ProberExample.
Import Http DirectoryScanner.

(** A library that normalises nothing, matches nothing and knows no
    address: enough for authorities in ASCII without brackets. *)
#[local] Instance no_library : Library :=
  {| normalize_nfkc := λ s, s;
     re_match := λ _ _, false;
     ip_address := λ _, None |}.

(** A regular-expression search that finds nothing, and a [strip] that
    leaves its argument. *)
Definition no_group : str → str → option str := λ _ _, None.
Definition same : str → str := λ s, s.

Definition page (status : Z) : Response :=
  {| status_code := status; headers := []; content := []; text := [];
     elapsed := 0 |}.

(** The [i]-th request is answered with the [i]-th status of the table. *)
Definition table_client : nat → str → Outcome :=
  λ i _, match [200; 301; 401; 403; 404; 500]%Z !! i with
         | Some status => Got (page status)
         | None => NoResponse
         end.

(** Every request raises. *)
Definition failing_client : nat → str → Outcome := λ _ _, Raised.

Definition six_words : list str :=
  map py ["admin"; "old"; "private"; "secret"; "missing"; "crash"]%string.

(** A clock that advances by one second from reading to reading, and
    one that stands still. *)
Definition ticking : nat → float :=
  λ k, ProgressBar.float_of_int (Z.of_nat k).

Definition frozen : nat → float := λ _, 0%float.

Definition table_run : ScanRun :=
  scan_with no_group same table_client ticking
    (__init__ (py "http://h/app/") six_words 50) id.

Definition failing_run : ScanRun :=
  scan_with no_group same failing_client ticking
    (__init__ (py "http://h/app") [py "admin"] 50) id.

Definition no_base_run : ScanRun :=
  scan_with no_group same failing_client ticking
    (__init__ [] [py "admin"] 500) id.

Definition no_worker_run : ScanRun :=
  scan_with no_group same failing_client ticking
    (__init__ (py "http://h/app") [py "admin"] 0) id.

(** The second of three candidates is one for which [urljoin] raises. *)
Definition bracket_words : list str := map py ["a"; "///[x"; "b"]%string.

Definition bracket_run : ScanRun :=
  scan_with no_group same failing_client ticking
    (__init__ (py "http://h") bracket_words 500) id.

End ProberExample.

(** ** Injection probes ([core/sqli_scanner.py]) *)

Module SQLiScanner.
Import Http.

Inductive Confidence : Type := High | Medium | Low.

(** [parse_qs(parsed.query)]: the parameters of the target URL in the
    order the dictionary iterates them, each with its list of values. *)
Definition Query : Type := list (str * list str).

(** A URL of the target: the one [scan] was given, or that URL with its
    query replaced by [urlencode(test_params, doseq=True)]. *)
Inductive Url : Type :=
| Original
| WithQuery (test_params : Query).

(** The dictionaries appended to [vulnerabilities], by [subtype]. *)
Inductive Finding : Type :=
| ErrorBased (database : str) (url : Url) (parameter payload : str)
    (confidence : Confidence) (evidence : str)
| TimeBasedBlind (url : Url) (parameter payload : str)
    (baseline_time response_time delay : float) (confidence : Confidence)
| BooleanBasedBlind (url : Url) (parameter true_payload false_payload : str)
    (true_length false_length : nat) (difference : Z)
    (confidence : Confidence).

(** Which statement of the scanner issues a request. *)
Inductive Probe : Type :=
| BaselineProbe
| ErrorProbe (parameter payload : str)
| TimeProbe (parameter payload : str)
| BooleanProbe (parameter : str) (condition : bool).

Record Request : Type := mkRequest {
  req_probe : Probe;
  req_url : Url
}.

(** What one [self.client.get] does, with the readings of [time.time()]
    just before and just after it. *)
Record Reply : Type := mkReply {
  outcome : Outcome;
  clock_before : float;
  clock_after : float
}.

(** Computations that issue requests: the state is the list of requests
    issued so far, oldest first. *)
Definition Run (A : Type) : Type := list Request → A * list Request.

#[global] Instance run_ret : MRet Run := λ A a log, (a, log).

#[global] Instance run_bind : MBind Run :=
  λ A B k m log, let '(a, log') := m log in k a log'.

Definition ret {A} (a : A) : Run A := mret a.

(** [test_params = params.copy(); test_params[param_name] = payload] *)
Definition set_param (params : Query) (param_name payload : str) : Query :=
  map (fun kv => if decide (kv.1 = param_name) then (kv.1, [payload]) else kv)
      params.

(** [SQLiScanner._calculate_time_confidence] *)
Definition _calculate_time_confidence (response_time baseline_time : float)
  : Confidence :=
  let delay := (response_time - baseline_time)%float in
  if PrimFloat.ltb 10 delay then High
  else if PrimFloat.ltb 5 delay then Medium
  else Low.

(** [SQLiScanner._responses_differ_significantly] *)
Definition _responses_differ_significantly (resp1 resp2 baseline : Response)
  : bool :=
  let len1 := Z.of_nat (length (text resp1)) in
  let len2 := Z.of_nat (length (text resp2)) in
  let baseline_len := Z.of_nat (length (text baseline)) in
  if (100 <? Z.abs (len1 - len2))%Z then true
  else
    let len_diff1 := Z.abs (len1 - baseline_len) in
    let len_diff2 := Z.abs (len2 - baseline_len) in
    if ((len_diff1 <? 50) && (200 <? len_diff2)
        || (len_diff2 <? 50) && (200 <? len_diff1))%Z then true
    else if negb (status_code resp1 =? status_code resp2)%Z then true
    else false.

(** [self.sql_error_patterns], in the order of the dictionary. *)
Definition sql_error_patterns : list (str * list str) :=
  [(py "mysql",
    map py ["SQL syntax.*MySQL"; "Warning.*mysql_.*"; "MySqlClient\."; "mysql_fetch";
            "You have an error in your SQL syntax"; "MySQL server version";
            "MariaDB server version"; "got an error in conversation"]%string);
   (py "mssql",
    map py ["Microsoft OLE DB Provider for SQL Server";
            "ODBC SQL Server Driver"; "SQL Server.*Driver";
            "SQLServer JDBC Driver"; "Incorrect syntax near";
            "Unclosed quotation mark"; "'[^']*' expected";
            "Procedure or function"]%string);
   (py "postgres",
    map py ["PostgreSQL.*ERROR"; "Warning.*pg_.*"; "valid PostgreSQL result";
            "Npgsql\."; "PG::SyntaxError"; "PostgreSQL query failed";
            "relation.*does not exist"]%string);
   (py "oracle",
    map py ["ORA-\d{5}"; "Oracle error"; "Oracle.*Driver"; "Warning.*oci_.*";
            "ORA-"; "PLS-"; "SQL command not properly ended"]%string);
   (py "sqlite",
    map py ["SQLite/JDBCDriver"; "SQLite\.Exception"; "System\.Data\.SQLite";
            "SQLite error"; "no such table"; "no such column"]%string)].

(** [high_confidence] of [_calculate_error_confidence] *)
Definition high_confidence : list str :=
  map py ["SQL syntax"; "ORA-"; "unclosed quotation";
          "incorrect syntax"]%string.

Definition true_payload : str := py "' AND '1'='1' -- ".
Definition false_payload : str := py "' AND '1'='2' -- ".

Section Scan.

(** The transport: the reply to a request for [url] after the requests
    for the URLs of the history, oldest first. *)
Variable client : list Url → Url → Reply.

(** [self.error_payloads] and [self.time_payloads].  The constructor asks
    the wordlist manager for them; [utils/wordlist_manager.py] defines the
    getter of the error payloads only, so the lists are taken as given. *)
Variable error_payloads time_payloads : list str.

(** [re.search(pattern, text, re.IGNORECASE)]: the text of the first
    match, its [group()], if there is one. *)
Variable re_search : str → str → option str.

(** [s.lower()] *)
Variable lower : str → str.

(** The loop of [_detect_sql_error] over the patterns of one database. *)
Fixpoint detect_in_patterns (db_type text text_lower : str)
  (patterns : list str) : option (str * str) :=
  match patterns with
  | [] => None
  | pattern :: patterns' =>
      match re_search pattern text_lower with
      | Some _ =>
          Some (db_type,
                default (py "SQL error detected") (re_search pattern text))
      | None => detect_in_patterns db_type text text_lower patterns'
      end
  end.

(** Its loop over the databases. *)
Fixpoint detect_in_databases (text text_lower : str)
  (databases : list (str * list str)) : option (str * str) :=
  match databases with
  | [] => None
  | (db_type, patterns) :: databases' =>
      match detect_in_patterns db_type text text_lower patterns with
      | Some hit => Some hit
      | None => detect_in_databases text text_lower databases'
      end
  end.

(** [SQLiScanner._detect_sql_error]; [None] is the pair [(None, None)]. *)
Definition _detect_sql_error (text : str) : option (str * str) :=
  detect_in_databases text (lower text) sql_error_patterns.

(** [SQLiScanner._calculate_error_confidence] *)
Definition _calculate_error_confidence (error_msg : str) : Confidence :=
  if existsb (λ indicator, Str.contains (lower error_msg) (lower indicator))
             high_confidence
  then High else Medium.

(** [self.client.get(url)], issued by the statement [probe]. *)
Definition get (probe : Probe) (url : Url) : Run Reply :=
  fun log =>
    (client (map req_url log) url,
     log ++ [{| req_probe := probe; req_url := url |}]).

(** The payload loop of [_test_error_based] for one parameter: [Some] is
    the finding appended before [break]. *)
Fixpoint error_payload_loop (params : Query) (param_name : str)
  (payloads : list str) : Run (option Finding) :=
  match payloads with
  | [] => ret None
  | payload :: payloads' =>
      let test_url := WithQuery (set_param params param_name payload) in
      reply ← get (ErrorProbe param_name payload) test_url;
      match outcome reply with
      | Got response =>
          match _detect_sql_error (text response) with
          | Some (db_type, error_msg) =>
              ret (Some (ErrorBased db_type test_url param_name payload
                           (_calculate_error_confidence error_msg)
                           (take 500 error_msg)))
          | None => error_payload_loop params param_name payloads'
          end
      | NoResponse | Raised => error_payload_loop params param_name payloads'
      end
  end.

(** The parameter loop shared by the three strategies: [body] probes one
    parameter and yields at most one finding. *)
Fixpoint param_loop (body : str → Run (option Finding))
  (names : list str) : Run (list Finding) :=
  match names with
  | [] => ret []
  | param_name :: names' =>
      found ← body param_name;
      vulnerabilities ← param_loop body names';
      ret (match found with
           | Some v => v :: vulnerabilities
           | None => vulnerabilities
           end)
  end.

(** [SQLiScanner._test_error_based]; with an empty query string
    [parse_qs] yields no parameter, as the early return does. *)
Definition _test_error_based (params : Query) (baseline : Response)
  : Run (list Finding) :=
  param_loop
    (fun param_name =>
       error_payload_loop params param_name (take 15 error_payloads))
    (map fst params).

(** The payload loop of [_test_time_based] for one parameter. *)
Fixpoint time_payload_loop (params : Query) (baseline_time : float)
  (param_name : str) (payloads : list str) : Run (option Finding) :=
  match payloads with
  | [] => ret None
  | payload :: payloads' =>
      let test_url := WithQuery (set_param params param_name payload) in
      reply ← get (TimeProbe param_name payload) test_url;
      match outcome reply with
      | Got response =>
          let response_time :=
            (clock_after reply - clock_before reply)%float in
          if PrimFloat.ltb (baseline_time + 5)%float response_time then
            ret (Some (TimeBasedBlind test_url param_name payload
                         baseline_time response_time
                         (response_time - baseline_time)%float
                         (_calculate_time_confidence response_time
                            baseline_time)))
          else time_payload_loop params baseline_time param_name payloads'
      | NoResponse | Raised =>
          time_payload_loop params baseline_time param_name payloads'
      end
  end.

(** [SQLiScanner._test_time_based] *)
Definition _test_time_based (params : Query) (baseline : Response)
  : Run (list Finding) :=
  let baseline_time := elapsed baseline in
  param_loop
    (fun param_name =>
       time_payload_loop params baseline_time param_name
         (take 10 time_payloads))
    (map fst params).

(** The body of the parameter loop of [_test_boolean_based]. *)
Definition boolean_param (params : Query) (baseline : Response)
  (param_name : str) : Run (option Finding) :=
  let true_url := WithQuery (set_param params param_name true_payload) in
  let false_url := WithQuery (set_param params param_name false_payload) in
  true_reply ← get (BooleanProbe param_name true) true_url;
  match outcome true_reply with
  | Got true_response =>
      false_reply ← get (BooleanProbe param_name false) false_url;
      match outcome false_reply with
      | Got false_response =>
          if _responses_differ_significantly true_response false_response
               baseline
          then
            let true_length := length (text true_response) in
            let false_length := length (text false_response) in
            ret (Some (BooleanBasedBlind true_url param_name
                         true_payload false_payload
                         true_length false_length
                         (Z.abs (Z.of_nat true_length - Z.of_nat false_length))
                         High))
          else ret None
      | NoResponse | Raised => ret None
      end
  | NoResponse | Raised => ret None
  end.

(** [SQLiScanner._test_boolean_based] *)
Definition _test_boolean_based (params : Query) (baseline : Response)
  : Run (list Finding) :=
  param_loop (boolean_param params baseline) (map fst params).

(** [SQLiScanner.scan], for a target whose query parses to [params]. *)
Definition scan (params : Query) : Run (list Finding) :=
  reply ← get BaselineProbe Original;
  match outcome reply with
  | Got baseline =>
      error_vulns ← _test_error_based params baseline;
      match error_vulns with
      | [] =>
          time_vulns ← _test_time_based params baseline;
          boolean_vulns ← _test_boolean_based params baseline;
          ret (error_vulns ++ time_vulns ++ boolean_vulns)
      | _ :: _ => ret error_vulns
      end
  | NoResponse | Raised => ret []
  end.

End Scan.




Definition is_boolean_probe (r : Request) : bool :=
  match req_probe r with BooleanProbe _ _ => true | _ => false end.


Definition finding_parameter (v : Finding) : str :=
  match v with
  | ErrorBased _ _ parameter _ _ _ => parameter
  | TimeBasedBlind _ parameter _ _ _ _ _ => parameter
  | BooleanBasedBlind _ parameter _ _ _ _ _ _ => parameter
  end.

Definition finding_confidence (v : Finding) : Confidence :=
  match v with
  | ErrorBased _ _ _ _ confidence _ => confidence
  | TimeBasedBlind _ _ _ _ _ _ confidence => confidence
  | BooleanBasedBlind _ _ _ _ _ _ _ confidence => confidence
  end.


Definition is_time_finding (v : Finding) : bool :=
  match v with TimeBasedBlind _ _ _ _ _ _ _ => true | _ => false end.

Definition is_boolean_finding (v : Finding) : bool :=
  match v with BooleanBasedBlind _ _ _ _ _ _ _ _ => true | _ => false end.

(** The three disjuncts of the design document for the boolean strategy;
    [within d 50] reads "within 50 characters". *)
Definition differ_rule (within : Z → Z → Prop)
  (resp1 resp2 baseline : Response) : Prop :=
  let len1 := Z.of_nat (length (text resp1)) in
  let len2 := Z.of_nat (length (text resp2)) in
  let baseline_len := Z.of_nat (length (text baseline)) in
  (100 < Z.abs (len1 - len2)
   ∨ (within (Z.abs (len1 - baseline_len)) 50
      ∧ 200 < Z.abs (len2 - baseline_len)
      ∨ within (Z.abs (len2 - baseline_len)) 50
        ∧ 200 < Z.abs (len1 - baseline_len))
   ∨ status_code resp1 ≠ status_code resp2)%Z.

(** The rule of the design document for the timing strategy, on what
    the program measures: the request is answered, and the time between
    the two readings of the clock exceeds the baseline plus 5 s. *)
Definition exceeds_baseline (baseline_time : float) (reply : Reply) : bool :=
  match outcome reply with
  | Got _ =>
      PrimFloat.ltb (baseline_time + 5)
        (clock_after reply - clock_before reply)
  | NoResponse | Raised => false
  end.

(** What a computation adds to the log, and what it yields. *)
Definition logs {A} (m : Run A) (P : Request → Prop) (Q : A → Prop) : Prop :=
  ∀ log, ∃ new, (m log).2 = log ++ new ∧ Forall P new ∧ Q (m log).1.

End SQLiScanner.

(** Stubbed transports for the injection probes. *)

Module InjectionExample.
Import Http SQLiScanner.

Definition id_params : Query := [(py "id", [py "1"])].

(** A page of [n] characters. *)
Definition page_of_length (n : nat) (seconds : float) : Response :=
  {| status_code := 200; headers := []; content := [];
     text := replicate n 120%N; elapsed := seconds |}.

Definition answer (response : Response) (before after : float) : Reply :=
  {| outcome := Got response; clock_before := before; clock_after := after |}.

Definition quote_payload : str := py "'".
Definition sleep_payload : str := py "' AND SLEEP(5)-- ".

(** The baseline takes 0.3 s; the request with the quote payload raises;
    every other request is answered after [seconds]. *)
Definition slow_client (seconds : float) : list Url → Url → Reply :=
  λ _ url,
    match url with
    | Original => answer (page_of_length 1000 0x1.3333333333333p-2) 0 0
    | WithQuery q =>
        if bool_decide (q = [(py "id", [quote_payload])])
        then {| outcome := Raised; clock_before := 0; clock_after := 0 |}
        else answer (page_of_length 1000 0) 0 seconds
    end.

(** The same, with a clock: every request is issued when the clock
    reads [start], and what [slow_client] answers after [seconds] is
    answered when it reads [start + seconds]. *)
Definition timed_client (start seconds : float) : list Url → Url → Reply :=
  λ history url,
    let reply := slow_client seconds history url in
    {| outcome := outcome reply;
       clock_before := start + clock_before reply;
       clock_after := start + clock_after reply |}.

(** The true condition yields 1005 characters, the false one 1300. *)
Definition length_client : list Url → Url → Reply :=
  λ _ url,
    match url with
    | Original => answer (page_of_length 1000 0) 0 0
    | WithQuery q =>
        if bool_decide (q = [(py "id", [true_payload])])
        then answer (page_of_length 1005 0) 0 0
        else answer (page_of_length 1300 0) 0 0
    end.

(** A regular-expression search that finds nothing, and a [lower] that
    leaves its argument. *)
Definition no_match : str → str → option str := λ _ _, None.
Definition same : str → str := λ s, s.

End InjectionExample.

(** ** Binary64 numbers

    The floats of the program are IEEE 754 binary64 numbers; [SpecFloat]
    computes on them as pairs of a significand of at most 53 bits and an
    exponent of at least -1074.  Their values and the rounding of an
    exact result are stated here on integers, in units of [2^-1074]. *)

Module Binary64.

Local Open Scope Z_scope.

(** The value of a finite float, in units of [2^-1074], the least
    positive binary64 number. *)
Definition units (x : spec_float) : Z :=
  match x with
  | S754_finite s m e => cond_Zopp s (Zpos m * 2 ^ (e + 1074))
  | _ => 0
  end.

Definition finite_float (x : spec_float) : bool :=
  match x with
  | S754_zero _ | S754_finite _ _ _ => true
  | _ => false
  end.

(** Rounding to nearest, ties to even, of [m / 2^n] to an integer. *)
Definition nearest_even (n m : Z) : Z :=
  let q := m / 2 ^ n in
  let rem := m mod 2 ^ n in
  if (2 ^ n <? 2 * rem) || ((2 ^ n =? 2 * rem) && Z.odd q) then q + 1 else q.

(** The number of low bits that a positive number of units loses in a
    significand of 53 bits. *)
Definition lost_bits (x : Z) : Z := Z.max (Z.log2 x - 52) 0.

(** Rounding of a positive number of units to binary64. *)
Definition round (x : Z) : Z :=
  nearest_even (lost_bits x) x * 2 ^ lost_bits x.

(** What rounding [x] units with sign [s] gives: the rounded number of
    units, or an infinity. *)
Definition rounds_to (s : bool) (x : Z) (r : spec_float) : Prop :=
  match r with
  | S754_finite s' m' e' =>
      s' = s ∧ Zpos m' * 2 ^ (e' + 1074) = round x ∧ -1074 ≤ e'
  | S754_infinity s' => s' = s
  | _ => False
  end.

(** The float that an exact result of [x] units is rounded to. *)
Definition rounded (x : Z) (r : spec_float) : Prop :=
  match r with
  | S754_nan => False
  | S754_infinity s => x ≠ 0 ∧ s = (x <? 0)
  | _ => units r = Z.sgn x * round (Z.abs x)
  end.

(** After [k] steps of [shr_1] from [m]: the quotient, the bit shifted
    out last and whether a bit shifted out before it was set; [t] is
    twice what lies below the last bit. *)
Definition shifted (m k : Z) (mrs : shr_record) : Prop :=
  ∃ t, 0 ≤ t < 2 ^ k
    ∧ 2 * m = shr_m mrs * 2 ^ (k + 1) + (if shr_r mrs then 2 ^ k else 0) + t
    ∧ shr_s mrs = negb (t =? 0)
    ∧ 0 ≤ shr_m mrs.

(** [5.0], in units. *)
Definition five : Z := 5 * 2 ^ 1074.

End Binary64.

(** * Properties *)

(** ** Strings *)

Module StrFacts.
Import Str.

Lemma startswith_spec s p : startswith s p = true ↔ ∃ r, s = p ++ r.
Proof.
  revert s; induction p as [|a p IH]; intros s; simpl.
  - split; [intros _; by exists s | reflexivity].
  - destruct s as [|b s].
    + split; [done | intros [r Hr]; discriminate].
    + rewrite andb_true_iff, N.eqb_eq, IH. split.
      * intros [-> [r ->]]. by exists r.
      * intros [r Hr]. injection Hr as -> ->. eauto.
Qed.

Lemma contains_spec s p : contains s p = true ↔ occurs_in p s.
Proof.
  unfold occurs_in. induction s as [|b s IH].
  - simpl. rewrite orb_false_r, startswith_spec. split.
    + intros [r Hr]. by exists [], r.
    + intros (l & r & Hlr). destruct l; [by exists r|discriminate].
  - cbn [contains]. rewrite orb_true_iff, startswith_spec, IH. split.
    + intros [[r Hr] | (l & r & Hlr)].
      * by exists [], r.
      * exists (b :: l), r. by rewrite Hlr.
    + intros (l & r & Hlr). destruct l as [|c l].
      * left. by exists r.
      * right. injection Hlr as _ ->. eauto.
Qed.

Lemma replace_no_old s old new : old ∉ s → replace s old new = s.
Proof.
  induction s as [|c s IH]; [done|]. intros Hs.
  apply not_elem_of_cons in Hs as [Hc Hs]. unfold replace in *. simpl.
  destruct (N.eqb_spec c old) as [->|_]; [done|]. simpl. by rewrite IH.
Qed.

End StrFacts.

(** ** Reflection-based XSS detection *)

Module XSSReflection.
Import XSSScanner.

Lemma is_xss_reflected_cases payload text :
  _is_xss_reflected payload text =
    Str.contains text payload
    || Str.contains text (html_variant payload)
    || Str.contains text (url_variant payload)
    || Str.contains text (unicode_variant payload)
    || (10 <? length payload)
       && Str.contains text (Str.slice_to 5 payload)
       && Str.contains text (Str.slice_last 5 payload).
Proof.
  unfold _is_xss_reflected, encoded_variations. simpl.
  repeat match goal with
         | |- context [Str.contains ?a ?b] => destruct (Str.contains a b)
         end; simpl; try done; by destruct (10 <? length payload).
Qed.

Lemma replace_app s t old new :
  Str.replace (s ++ t) old new = Str.replace s old new ++ Str.replace t old new.
Proof. unfold Str.replace. apply flat_map_app. Qed.

(** The two replacements, one after the other, write the angle brackets
    as [lt] and [gt] and leave every other character. *)
Lemma replace_twice lt gt payload :
  62%N ∉ lt →
  Str.replace (Str.replace payload 60%N lt) 62%N gt
  = escape_angle_brackets lt gt payload.
Proof.
  intros Hlt. induction payload as [|c rest IH]; [done|].
  change (Str.replace (c :: rest) 60%N lt)
    with ((if N.eqb c 60 then lt else [c]) ++ Str.replace rest 60%N lt).
  rewrite replace_app, IH. cbn [escape_angle_brackets]. f_equal.
  destruct (N.eqb_spec c 60) as [->|Hc].
  - by apply StrFacts.replace_no_old.
  - unfold Str.replace. simpl. by rewrite app_nil_r.
Qed.

Lemma variants payload :
  html_variant payload = escape_angle_brackets (py "&lt;") (py "&gt;") payload
  ∧ url_variant payload
    = escape_angle_brackets (py "%3C") (py "%3E") payload
  ∧ unicode_variant payload
    = escape_angle_brackets (py "\u003C") (py "\u003E") payload.
Proof.
  unfold html_variant, url_variant, unicode_variant.
  repeat split; apply replace_twice; vm_compute; intros H;
    repeat (apply elem_of_cons in H as [H|H]; [done|]);
    by apply elem_of_nil in H.
Qed.

(** C9. [_is_xss_reflected] answers [True] exactly when the payload occurs
    verbatim in the body, or the payload with [<] and [>] written as the
    HTML entities [&lt;] and [&gt;] does, or with them percent-encoded as
    [%3C] and [%3E], or with them Unicode-escaped as [\u003C] and
    [\u003E], or the payload has more than 10 characters and its first 5
    and its last 5 characters both occur in the body.  The payload
    [<script>alert(1)</script>] is reflected by a body that holds it only
    in one of the three encodings. *)
Theorem is_xss_reflected_iff :
  (∀ payload text : str,
     _is_xss_reflected payload text = true ↔
       Str.occurs_in payload text
       ∨ Str.occurs_in
           (escape_angle_brackets (py "&lt;") (py "&gt;") payload) text
       ∨ Str.occurs_in
           (escape_angle_brackets (py "%3C") (py "%3E") payload) text
       ∨ Str.occurs_in
           (escape_angle_brackets (py "\u003C") (py "\u003E") payload) text
       ∨ (10 < length payload
          ∧ Str.occurs_in (take 5 payload) text
          ∧ Str.occurs_in (drop (length payload - 5) payload) text))
  ∧ (let payload := py "<script>alert(1)</script>" in
     html_variant payload = py "&lt;script&gt;alert(1)&lt;/script&gt;"
     ∧ url_variant payload = py "%3Cscript%3Ealert(1)%3C/script%3E"
     ∧ unicode_variant payload
       = py "\u003Cscript\u003Ealert(1)\u003C/script\u003E"
     ∧ map (λ body, (Str.contains body payload,
                     _is_xss_reflected payload body))
           [py "<p>&lt;script&gt;alert(1)&lt;/script&gt;</p>";
            py "<p>%3Cscript%3Ealert(1)%3C/script%3E</p>";
            py "<p>\u003Cscript\u003Ealert(1)\u003C/script\u003E</p>";
            py "<p>alert(1)</p>"]
       = [(false, true); (false, true); (false, true); (false, false)]).
Proof.
  split; [|by vm_compute].
  intros payload text. rewrite is_xss_reflected_cases.
  destruct (variants payload) as (-> & -> & ->).
  rewrite !orb_true_iff, !andb_true_iff, !StrFacts.contains_spec.
  rewrite Nat.ltb_lt. unfold Str.slice_to, Str.slice_last. tauto.
Qed.

End XSSReflection.

(** ** Joining a candidate to the base URL *)

Module UrlJoin.
Import UrlLib PlainUrl.

(** *** Searching and splitting *)

Lemma find_None s c : c ∉ s → find s c = None.
Proof.
  induction s as [|a s IH]; [done|]. intros [Hne Hs]%not_elem_of_cons.
  simpl. destruct (N.eqb_spec a c); [congruence|]. by rewrite IH.
Qed.

Lemma find_app s r c : c ∉ s → find (s ++ c :: r) c = Some (length s).
Proof.
  induction s as [|a s IH]; simpl.
  - intros _. by rewrite N.eqb_refl.
  - intros [Hne Hs]%not_elem_of_cons.
    destruct (N.eqb_spec a c); [congruence|]. by rewrite IH.
Qed.

Lemma find_past s r c i :
  c ∉ s → find (s ++ r) c = Some i → length s ≤ i.
Proof.
  revert i. induction s as [|a s IH]; intros i; simpl; [lia|].
  intros [Hne Hs]%not_elem_of_cons.
  destruct (N.eqb_spec a c); [congruence|].
  intros (j & Hj & ->)%fmap_Some. specialize (IH j Hs Hj). lia.
Qed.

Lemma rfind_app s r c : c ∉ r → rfind (s ++ c :: r) c = Some (length s).
Proof.
  intros Hr. assert (Hnone : rfind r c = None).
  { clear s. induction r as [|a r IH]; [done|].
    apply not_elem_of_cons in Hr as [Hne Hr]. simpl. rewrite IH by done.
    destruct (N.eqb_spec a c); congruence. }
  induction s as [|a s IH]; simpl.
  - by rewrite Hnone, N.eqb_refl.
  - by rewrite IH.
Qed.

Lemma rfind_None s c : c ∉ s → rfind s c = None.
Proof.
  induction s as [|a s IH]; [done|]. intros [Hne Hs]%not_elem_of_cons.
  simpl. rewrite IH by done. destruct (N.eqb_spec a c); congruence.
Qed.

Lemma mem_char_false c s : c ∉ s → mem_char c s = false.
Proof.
  induction s as [|a s IH]; [done|]. intros [Hne Hs]%not_elem_of_cons.
  unfold mem_char in *. simpl. rewrite IH by done.
  destruct (N.eqb_spec c a); [congruence|done].
Qed.

Lemma mem_char_true c s : c ∈ s → mem_char c s = true.
Proof.
  intros H. unfold mem_char. apply existsb_exists. exists c.
  split; [by apply list_elem_of_In | apply N.eqb_refl].
Qed.

Lemma split_no_sep s c : c ∉ s → split s c = [s].
Proof.
  induction s as [|a s IH]; [done|]. intros [Hne Hs]%not_elem_of_cons.
  simpl. destruct (N.eqb_spec a c); [congruence|]. by rewrite IH.
Qed.

Lemma split_app s r c : c ∉ s → split (s ++ c :: r) c = s :: split r c.
Proof.
  induction s as [|a s IH]; simpl.
  - intros _. by rewrite N.eqb_refl.
  - intros [Hne Hs]%not_elem_of_cons.
    destruct (N.eqb_spec a c); [congruence|]. by rewrite IH.
Qed.

Lemma find_from_app l s r c :
  c ∉ s → find_from (l ++ s ++ c :: r) c (length l)
          = Some (length l + length s).
Proof.
  intros Hc. unfold find_from. rewrite drop_app_length, find_app by done.
  done.
Qed.

Lemma find_from_None l s c :
  c ∉ s → find_from (l ++ s) c (length l) = None.
Proof.
  intros Hc. unfold find_from. by rewrite drop_app_length, find_None.
Qed.

Lemma drop_past rest (c : char) tail :
  drop (S (length rest)) (rest ++ c :: tail) = tail.
Proof. by induction rest. Qed.

Lemma split_once_app s r c : c ∉ s → split_once (s ++ c :: r) c = (s, r).
Proof.
  intros Hc. unfold split_once. rewrite find_app by done.
  by rewrite take_app_length, drop_past.
Qed.

(** *** Characters *)

Lemma Forall_ne_not_elem (x : char) (l : str) :
  Forall (λ c, c ≠ x) l → x ∉ l.
Proof. intros H Hx. by eapply Forall_forall in H. Qed.

Lemma kept_of_gt (c : char) : (32 < c)%N → kept_char c.
Proof. unfold kept_char. lia. Qed.

Lemma segment_chars (s : str) :
  Forall segment_char s →
  Forall kept_char s ∧ (47%N ∉ s) ∧ (63%N ∉ s) ∧ (35%N ∉ s).
Proof.
  intros H. split; [eapply Forall_impl; [exact H|]; by intros c [? _]|].
  repeat split; apply Forall_ne_not_elem; (eapply Forall_impl; [exact H|]);
    intros c (_ & ? & ? & ?); done.
Qed.

Lemma lstrip_c0_head s :
  (∀ c, head s = Some c → (32 < c)%N) → lstrip_c0 s = s.
Proof.
  destruct s as [|a s]; [done|]. intros H. simpl.
  specialize (H a eq_refl). destruct (N.leb_spec a 32); [lia|done].
Qed.

Lemma remove_unsafe_kept s : Forall kept_char s → remove_unsafe s = s.
Proof.
  induction 1 as [|a s (H9 & H13 & H10) _ IH]; [done|].
  unfold remove_unsafe in *. simpl. rewrite IH.
  destruct (N.eqb_spec a 9), (N.eqb_spec a 13), (N.eqb_spec a 10);
    simpl; congruence.
Qed.

Lemma scheme_ok_chars scheme :
  scheme_ok scheme = true →
  Forall (λ c, (32 < c)%N) scheme ∧ 58%N ∉ scheme.
Proof.
  destruct scheme as [|c0 rest]; [done|]. unfold scheme_ok.
  intros [[_ H]%andb_true_iff _]%andb_true_iff.
  rewrite forallb_forall in H. split.
  - apply Forall_forall. intros c Hc%list_elem_of_In. specialize (H c Hc).
    unfold mem_char in H. apply existsb_exists in H as (x & Hx & ->%N.eqb_eq).
    vm_compute in Hx. intuition (subst; done).
  - intros Hc%list_elem_of_In. specialize (H _ Hc). by vm_compute in H.
Qed.

Lemma strip_c0_id scheme :
  Forall (λ c, (32 < c)%N) scheme → strip_c0 scheme = scheme.
Proof.
  intros H. unfold strip_c0.
  rewrite (lstrip_c0_head scheme), lstrip_c0_head.
  - apply reverse_involutive.
  - intros c Hc. apply Forall_reverse in H.
    destruct (reverse scheme); [done|]. apply Forall_cons in H as [H _].
    by injection Hc as <-.
  - intros c Hc. destruct scheme; [done|]. apply Forall_cons in H as [H _].
    by injection Hc as <-.
Qed.

(** *** Parsing the base URL *)

Lemma splitnetloc_authority netloc path :
  47%N ∉ netloc → 63%N ∉ netloc → 35%N ∉ netloc →
  63%N ∉ path → 35%N ∉ path →
  _splitnetloc (47%N :: 47%N :: netloc ++ 47%N :: path)
  = (netloc, 47%N :: path).
Proof.
  intros H47 H63 H35 H63' H35'.
  assert (63%N ∉ netloc ++ 47%N :: path)
    by (rewrite elem_of_app, elem_of_cons; intros [|[|]]; done).
  assert (35%N ∉ netloc ++ 47%N :: path)
    by (rewrite elem_of_app, elem_of_cons; intros [|[|]]; done).
  set (url := 47%N :: 47%N :: netloc ++ 47%N :: path).
  assert (E47 : find_from url 47%N 2 = Some (2 + length netloc))
    by (unfold find_from, url; rewrite !skipn_cons, drop_0; by rewrite find_app).
  assert (E63 : find_from url 63%N 2 = None)
    by (unfold find_from, url; rewrite !skipn_cons, drop_0; by rewrite find_None).
  assert (E35 : find_from url 35%N 2 = None)
    by (unfold find_from, url; rewrite !skipn_cons, drop_0; by rewrite find_None).
  unfold _splitnetloc. change (py "/?#") with [47%N; 63%N; 35%N].
  cbn [foldl]. rewrite E47, E63, E35.
  assert (length url = 2 + (length netloc + S (length path))) as ->
    by (unfold url; cbn [length]; rewrite length_app; done).
  replace (Nat.min _ _) with (2 + length netloc) by lia.
  unfold url. change (2 + length netloc) with (S (S (length netloc))).
  rewrite !firstn_cons, !skipn_cons.
  by rewrite take_app_length, drop_0, drop_app_length.
Qed.

Lemma splitparams_dir body :
  _splitparams (body ++ [47%N]) = (body ++ [47%N], []).
Proof.
  unfold _splitparams.
  rewrite (rfind_app body [] 47) by apply not_elem_of_nil.
  replace (find_from (body ++ [47%N]) 59%N (length body)) with (@None nat);
    [done|].
  symmetry. apply find_from_None.
  by intros [=]%list_elem_of_singleton.
Qed.

Section Parsing.

Context {library : Library}.

Lemma urlsplit_absolute scheme netloc path :
  scheme_ok scheme = true → authority netloc →
  Forall kept_char path → 63%N ∉ path → 35%N ∉ path →
  urlsplit (scheme ++ 58%N :: 47%N :: 47%N :: netloc ++ 47%N :: path) []
  = Some {| sr_scheme := scheme; sr_netloc := netloc;
            sr_path := 47%N :: path; sr_query := []; sr_fragment := [] |}.
Proof.
  intros Hok (Hne & Hnet & Hbr & Hhost & Hcheck) Hpath ? ?.
  pose proof (scheme_ok_chars _ Hok) as [Hgt Hcolon].
  destruct (segment_chars _ Hnet) as (Hkept & ? & ? & ?).
  assert (Hall : Forall kept_char
                   (scheme ++ 58%N :: 47%N :: 47%N :: netloc ++ 47%N :: path)).
  { apply Forall_app. split.
    - eapply Forall_impl; [exact Hgt|]. apply kept_of_gt.
    - repeat (constructor; [by apply kept_of_gt|]).
      apply Forall_app. split; [done|].
      constructor; [by apply kept_of_gt | done]. }
  unfold urlsplit. rewrite lstrip_c0_head, (remove_unsafe_kept _ Hall).
  2: { destruct scheme as [|c0 rest]; [done|].
       apply Forall_cons in Hgt as [Hc0 _]. by intros c [= <-]. }
  change (remove_unsafe (strip_c0 [])) with (@nil char).
  rewrite find_app by done.
  destruct scheme as [|c0 rest]; [done|]. cbn [length app].
  unfold scheme_ok in Hok.
  apply andb_true_iff in Hok as [[Halpha Hchars]%andb_true_iff Hlow].
  apply bool_decide_eq_true in Hlow.
  rewrite firstn_cons, take_app_length. rewrite Halpha, Hchars. cbn [andb].
  rewrite Hlow. rewrite skipn_cons, drop_past.
  rewrite bool_decide_eq_true_2 by done.
  rewrite splitnetloc_authority by done.
  rewrite Hcheck. cbn [negb].
  rewrite !(mem_char_false _ (47%N :: path))
    by (rewrite elem_of_cons; intros [|]; done).
  rewrite <- Hbr.
  destruct (mem_char 91%N netloc); cbn [andb orb negb]; [|done].
  by rewrite Hhost.
Qed.

(** The base URL followed by a slash: [body] is its path. *)
Lemma urlparse_absolute scheme netloc body :
  scheme_ok scheme = true → authority netloc →
  Forall kept_char body → 63%N ∉ body → 35%N ∉ body →
  (∃ path, body ++ [47%N] = 47%N :: path) →
  urlparse (scheme ++ 58%N :: 47%N :: 47%N :: netloc ++ body ++ [47%N]) []
  = Some {| scheme := scheme; netloc := netloc; path := body ++ [47%N];
            params := []; query := []; fragment := [] |}.
Proof.
  intros Hok Hauth Hkept H63 H35 [path Hpath].
  assert (Forall kept_char path ∧ (63%N ∉ path) ∧ (35%N ∉ path))
    as (? & ? & ?).
  { assert (Hk : Forall kept_char (47%N :: path)).
    { rewrite <- Hpath. apply Forall_app. split; [done|].
      constructor; [by apply kept_of_gt | done]. }
    assert (H63' : 63%N ∉ 47%N :: path).
    { rewrite <- Hpath, elem_of_app.
      intros [?|[=]%list_elem_of_singleton]. done. }
    assert (H35' : 35%N ∉ 47%N :: path).
    { rewrite <- Hpath, elem_of_app.
      intros [?|[=]%list_elem_of_singleton]. done. }
    apply Forall_cons in Hk as [_ Hk].
    apply not_elem_of_cons in H63' as [_ ?].
    apply not_elem_of_cons in H35' as [_ ?]. done. }
  unfold urlparse. rewrite Hpath, urlsplit_absolute by done.
  cbn [mbind option_bind sr_path sr_scheme sr_netloc sr_query sr_fragment].
  rewrite <- Hpath, splitparams_dir.
  by destruct (_ && _).
Qed.

End Parsing.

(** *** Paths and their segments *)

Lemma dirs_slash_cons segs : ∃ path, dirs segs ++ [47%N] = 47%N :: path.
Proof. destruct segs; eexists; done. Qed.

Lemma split_dirs segs :
  Forall (λ seg, 47%N ∉ seg) segs →
  split (dirs segs ++ [47%N]) 47 = [] :: segs ++ [[]].
Proof.
  induction 1 as [|seg segs Hseg _ IH]; [done|].
  destruct (dirs_slash_cons segs) as [path Hpath].
  assert (dirs (seg :: segs) ++ [47%N]
          = 47%N :: seg ++ (dirs segs ++ [47%N])) as ->
    by (unfold dirs; simpl; by rewrite <- app_assoc).
  rewrite Hpath in IH |- *. cbn [split] in IH |- *.
  rewrite N.eqb_refl in IH |- *. injection IH as IH.
  by rewrite split_app, IH.
Qed.

Lemma split_join segs :
  segs ≠ [] → Forall (λ seg, 47%N ∉ seg) segs →
  split (join [47%N] segs) 47 = segs.
Proof.
  intros Hne Hsegs. induction Hsegs as [|seg segs Hseg Hsegs IH]; [done|].
  destruct segs as [|seg' segs].
  - by apply split_no_sep.
  - change (join [47%N] (seg :: seg' :: segs))
      with (seg ++ 47%N :: join [47%N] (seg' :: segs)).
    by rewrite split_app, IH.
Qed.

Lemma join_cons (seg : str) segs :
  segs ≠ [] → join [47%N] (seg :: segs) = seg ++ 47%N :: join [47%N] segs.
Proof. by destruct segs. Qed.

Lemma join_snoc segs (leaf : str) :
  segs ≠ [] →
  join [47%N] (segs ++ [leaf]) = join [47%N] segs ++ 47%N :: leaf.
Proof.
  induction segs as [|seg segs IH]; [done|]. intros _.
  destruct segs as [|seg' segs]; [done|].
  change (join [47%N] ((seg :: seg' :: segs) ++ [leaf]))
    with (seg ++ 47%N :: join [47%N] ((seg' :: segs) ++ [leaf])).
  rewrite IH by done.
  change (join [47%N] (seg :: seg' :: segs))
    with (seg ++ 47%N :: join [47%N] (seg' :: segs)).
  by rewrite <- app_assoc.
Qed.

Lemma join_dirs bsegs csegs :
  csegs ≠ [] →
  47%N :: join [47%N] (bsegs ++ csegs) = dirs bsegs ++ 47%N :: join [47%N] csegs.
Proof.
  intros Hne. induction bsegs as [|seg bsegs IH]; [done|].
  assert (dirs (seg :: bsegs) ++ 47%N :: join [47%N] csegs
          = 47%N :: seg ++ (dirs bsegs ++ 47%N :: join [47%N] csegs)) as ->
    by (unfold dirs; simpl; by rewrite <- app_assoc).
  rewrite <- IH. f_equal. cbn [app join].
  destruct (bsegs ++ csegs) eqn:E; [|done].
  by apply app_eq_nil in E as [_ ->].
Qed.

Lemma resolve_plain_acc acc segs :
  Forall (λ seg, seg ≠ py ".." ∧ seg ≠ py ".") segs →
  foldl (λ resolved_path seg,
           if bool_decide (seg = py "..") then
             take (length resolved_path - 1) resolved_path
           else if bool_decide (seg = py ".") then resolved_path
           else resolved_path ++ [seg]) acc segs
  = acc ++ segs.
Proof.
  intros H. revert acc.
  induction H as [|seg segs [Hdd Hd] _ IH]; intros acc; simpl.
  - by rewrite app_nil_r.
  - rewrite bool_decide_eq_false_2, bool_decide_eq_false_2 by done.
    by rewrite IH, <- app_assoc.
Qed.

Lemma filter_nonempty_id (segs : list str) :
  Forall (λ seg, seg ≠ []) segs → filter (λ seg : str, seg ≠ []) segs = segs.
Proof.
  induction 1 as [|seg segs Hseg _ IH]; [done|].
  by rewrite filter_cons_True, IH.
Qed.

(** The empty segment between the base and the candidate goes; the last
    segment stays, empty or not. *)
Lemma drop_empty_inner_dirs bsegs cdirs (leaf : str) :
  Forall (λ seg, seg ≠ []) bsegs → Forall (λ seg, seg ≠ []) cdirs →
  drop_empty_inner (([] :: bsegs ++ [[]]) ++ cdirs ++ [leaf])
  = [] :: bsegs ++ cdirs ++ [leaf].
Proof.
  intros Hb Hc.
  assert (E : ([] :: bsegs ++ [[]]) ++ cdirs ++ [leaf]
              = [] :: (bsegs ++ [[]] ++ cdirs) ++ [leaf])
    by (simpl; by rewrite <- !app_assoc).
  rewrite E. unfold drop_empty_inner.
  destruct ((bsegs ++ [[]] ++ cdirs) ++ [leaf]) as [|x rest] eqn:Erest.
  { by apply app_eq_nil in Erest as [_ ?]. }
  rewrite <- Erest. rewrite length_app. cbn [length].
  replace (length (bsegs ++ [[]] ++ cdirs) + 1 - 1)
    with (length (bsegs ++ [[]] ++ cdirs)) by lia.
  rewrite take_app_length, drop_app_length.
  rewrite !filter_app, filter_cons_False, filter_nil by (by intros ?).
  rewrite !filter_nonempty_id by done.
  by rewrite app_nil_l, app_assoc.
Qed.

Lemma Forall_dirs (P : char → Prop) segs :
  P 47%N → Forall (Forall P) segs → Forall P (dirs segs).
Proof.
  intros H47 Hsegs. unfold dirs. apply Forall_concat, Forall_fmap.
  eapply Forall_impl; [done|]. intros seg Hseg. by constructor.
Qed.

Lemma Forall_join (P : char → Prop) segs :
  P 47%N → Forall (Forall P) segs → Forall P (join [47%N] segs).
Proof.
  intros H47. induction 1 as [|seg segs Hseg Hsegs IH]; [constructor|].
  destruct segs as [|seg' segs]; [done|].
  change (join [47%N] (seg :: seg' :: segs))
    with (seg ++ 47%N :: join [47%N] (seg' :: segs)).
  apply Forall_app. split; [done|]. by constructor.
Qed.

(** *** Parsing a reference *)

Lemma suffix_nil d s : suffix d s = [] ↔ s = [].
Proof. by destruct s. Qed.

Lemma suffix_cons d s : s ≠ [] → suffix d s = d :: s.
Proof. by destruct s. Qed.

Lemma Forall_suffix (P : char → Prop) d s :
  P d → Forall P s → Forall P (suffix d s).
Proof. destruct s; [done|]. intros. by constructor. Qed.

Lemma not_elem_of_suffix (c d : char) s : c ≠ d → c ∉ s → c ∉ suffix d s.
Proof.
  destruct s; [done|]. intros Hne Hs. cbn [suffix].
  by apply not_elem_of_cons.
Qed.

Lemma forallb_elem_false {A} (f : A → bool) l x :
  x ∈ l → f x = false → forallb f l = false.
Proof.
  intros Hx Hf. destruct (forallb f l) eqn:E; [|done].
  rewrite forallb_forall in E. rewrite E in Hf; [done|].
  by apply list_elem_of_In.
Qed.

(** What [urlsplit] does with a text in which no scheme can be read:
    [path] holds neither [?] nor [#], [query] no [#]. *)
Lemma urlsplit_reference `{Library} (path query fragment scheme : str) :
  let url := path ++ suffix 63%N query ++ suffix 35%N fragment in
  Forall kept_char path → 63%N ∉ path → 35%N ∉ path →
  Forall kept_char query → 35%N ∉ query →
  Forall kept_char fragment →
  (∀ c, head url = Some c → (32 < c)%N ∧ c ≠ 47%N) →
  (∀ i, find url 58%N = Some i →
        ∃ d, d ∈ take i url ∧ mem_char d scheme_chars = false) →
  Forall (λ c, (32 < c)%N) scheme →
  urlsplit url scheme
  = Some {| sr_scheme := scheme; sr_netloc := []; sr_path := path;
            sr_query := query; sr_fragment := fragment |}.
Proof.
  intros url Hp Hp63 Hp35 Hq Hq35 Hf Hhead Hnoscheme Hscheme.
  assert (Hkept : Forall kept_char url).
  { unfold url. apply Forall_app. split; [done|]. apply Forall_app.
    split; apply Forall_suffix; try done; by apply kept_of_gt. }
  unfold urlsplit. fold url.
  rewrite lstrip_c0_head by (intros c Hc; by apply Hhead).
  rewrite (remove_unsafe_kept _ Hkept), (strip_c0_id _ Hscheme).
  rewrite remove_unsafe_kept
    by (eapply Forall_impl; [exact Hscheme | apply kept_of_gt]).
  assert (Hdetect :
    match find url 58%N, url with
    | Some (S _ as i), c0 :: _ =>
        if is_ascii_alpha c0
           && forallb (fun c => mem_char c scheme_chars) (take i url)
        then (lower (take i url), drop (S i) url)
        else (scheme, url)
    | _, _ => (scheme, url)
    end = (scheme, url)).
  { destruct (find url 58%N) as [[|i]|] eqn:E; [done| |done].
    destruct url as [|c0 rest] eqn:Eurl; [done|].
    destruct (Hnoscheme _ eq_refl) as (d & Hd & Hmem).
    by rewrite (forallb_elem_false _ _ d Hd Hmem), andb_false_r. }
  rewrite Hdetect.
  rewrite bool_decide_eq_false_2.
  2: { destruct url as [|a rest] eqn:Eurl; [done|].
       destruct (Hhead a eq_refl) as [_ Ha].
       destruct rest; intros [=]; done. }
  cbn [mem_char existsb andb orb negb].
  assert (Hcheck : _checknetloc [] = true) by done. rewrite Hcheck.
  cbn [negb]. unfold url.
  assert (Hpre35 : 35%N ∉ path ++ suffix 63%N query).
  { rewrite elem_of_app. intros [?|Hs]; [done|]. revert Hs.
    by apply not_elem_of_suffix. }
  assert (Hquery :
    (if mem_char 63%N (path ++ suffix 63%N query)
     then split_once (path ++ suffix 63%N query) 63%N
     else (path ++ suffix 63%N query, [])) = (path, query)).
  { destruct query as [|q0 query]; cbn [suffix].
    - rewrite app_nil_r. by rewrite mem_char_false.
    - rewrite mem_char_true
        by (apply elem_of_app; right; apply list_elem_of_here).
      by rewrite split_once_app. }
  destruct fragment as [|f0 fragment]; cbn [suffix].
  - rewrite app_nil_r, (mem_char_false 35%N) by done. by rewrite Hquery.
  - rewrite app_assoc.
    rewrite mem_char_true
      by (apply elem_of_app; right; apply list_elem_of_here).
    rewrite split_once_app by done. by rewrite Hquery.
Qed.

(** The parameters are what follows the first [;] of the last
    segment. *)
Lemma splitparams_reference cdirs (leaf ps : str) :
  let path := join [47%N] (cdirs ++ [leaf]) in
  Forall (λ seg, 47%N ∉ seg) cdirs →
  47%N ∉ leaf → 59%N ∉ leaf → 47%N ∉ ps →
  (if mem_char 59%N (path ++ suffix 59%N ps)
   then _splitparams (path ++ suffix 59%N ps)
   else (path ++ suffix 59%N ps, [])) = (path, ps).
Proof.
  intros path Hdirs Hl47 Hl59 Hp47. unfold path. clear path.
  destruct ps as [|p0 ps]; cbn [suffix].
  { rewrite app_nil_r.
    destruct (mem_char 59%N (join [47%N] (cdirs ++ [leaf]))) eqn:E; [|done].
    unfold _splitparams.
    destruct (decide (cdirs = [])) as [->|Hne].
    - cbn [app join] in *. rewrite (mem_char_false 59%N leaf) in E; done.
    - rewrite join_snoc by done.
      rewrite rfind_app by done.
      by rewrite (find_from_None _ (47%N :: leaf))
        by (rewrite elem_of_cons; intros [[=]|?]; done). }
  rewrite mem_char_true
    by (apply elem_of_app; right; apply list_elem_of_here).
  unfold _splitparams.
  destruct (decide (cdirs = [])) as [->|Hne].
  - cbn [app join].
    rewrite rfind_None
      by (rewrite elem_of_app, elem_of_cons; intros [?|[[=]|?]]; done).
    rewrite find_app by done. by rewrite take_app_length, drop_past.
  - rewrite join_snoc by done. rewrite <- app_assoc. cbn [app].
    rewrite rfind_app
      by (rewrite elem_of_app, elem_of_cons; intros [?|[[=]|?]]; done).
    assert (E : join [47%N] cdirs ++ 47%N :: leaf ++ 59%N :: p0 :: ps
                = join [47%N] cdirs ++ (47%N :: leaf) ++ 59%N :: p0 :: ps)
      by done.
    rewrite E, find_from_app
      by (rewrite elem_of_cons; intros [[=]|?]; done).
    rewrite app_assoc, <- length_app.
    by rewrite take_app_length, drop_past.
Qed.

Section Reference.

Context {library : Library}.

Lemma urlparse_reference cdirs (leaf ps query fragment scheme : str) :
  let path := join [47%N] (cdirs ++ [leaf]) in
  let url :=
    path ++ suffix 59%N ps ++ suffix 63%N query ++ suffix 35%N fragment in
  mem_str scheme uses_params = true →
  Forall (λ seg, Forall segment_char seg) cdirs →
  Forall (λ c, segment_char c ∧ c ≠ 59%N) leaf →
  Forall segment_char ps →
  Forall (λ c, kept_char c ∧ c ≠ 35%N) query →
  Forall kept_char fragment →
  (∀ c, head url = Some c → (32 < c)%N ∧ c ≠ 47%N) →
  (∀ i, find url 58%N = Some i →
        ∃ d, d ∈ take i url ∧ mem_char d scheme_chars = false) →
  Forall (λ c, (32 < c)%N) scheme →
  urlparse url scheme
  = Some {| scheme := scheme; netloc := []; path := path; params := ps;
            query := query; fragment := fragment |}.
Proof.
  intros path url Hparams Hdirs Hleaf Hps Hq Hf Hhead Hnoscheme Hscheme.
  assert (Hleaf' : Forall segment_char leaf)
    by (eapply Forall_impl; [exact Hleaf|]; by intros c [? _]).
  assert (Hl59 : 59%N ∉ leaf).
  { apply Forall_ne_not_elem. eapply Forall_impl; [exact Hleaf|].
    by intros c [_ ?]. }
  destruct (segment_chars _ Hleaf') as (Hlk & Hl47 & Hl63 & Hl35).
  destruct (segment_chars _ Hps) as (Hpk & Hp47 & Hp63 & Hp35).
  assert (Hsegs : Forall (λ seg, Forall segment_char seg) (cdirs ++ [leaf]))
    by (apply Forall_app; split; [done | by constructor]).
  assert (Hpk' : Forall kept_char path).
  { apply Forall_join; [by apply kept_of_gt|].
    eapply Forall_impl; [exact Hsegs|]. intros seg Hseg.
    by destruct (segment_chars _ Hseg). }
  assert (Hp63' : 63%N ∉ path).
  { apply Forall_ne_not_elem. apply Forall_join; [done|].
    eapply Forall_impl; [exact Hsegs|]. intros seg Hseg.
    eapply Forall_impl; [exact Hseg|]. by intros c (_ & _ & ? & _). }
  assert (Hp35' : 35%N ∉ path).
  { apply Forall_ne_not_elem. apply Forall_join; [done|].
    eapply Forall_impl; [exact Hsegs|]. intros seg Hseg.
    eapply Forall_impl; [exact Hseg|]. by intros c (_ & _ & _ & ?). }
  assert (Hd47 : Forall (λ seg : str, 47%N ∉ seg) cdirs).
  { eapply Forall_impl; [exact Hdirs|]. intros seg Hseg.
    by destruct (segment_chars _ Hseg) as (_ & ? & _). }
  unfold urlparse. unfold url. rewrite (app_assoc path).
  rewrite urlsplit_reference; try done.
  - cbn [mbind option_bind sr_path sr_scheme sr_netloc sr_query
         sr_fragment].
    rewrite Hparams. cbn [andb]. unfold path.
    by rewrite (splitparams_reference cdirs leaf ps).
  - apply Forall_app. split; [done|].
    apply Forall_suffix; [by apply kept_of_gt | done].
  - rewrite elem_of_app. intros [?|Hs]; [done|]. revert Hs.
    by apply not_elem_of_suffix.
  - rewrite elem_of_app. intros [?|Hs]; [done|]. revert Hs.
    by apply not_elem_of_suffix.
  - eapply Forall_impl; [exact Hq|]. by intros c [? _].
  - apply Forall_ne_not_elem. eapply Forall_impl; [exact Hq|].
    by intros c [_ ?].
  - by rewrite <- (app_assoc path).
  - by rewrite <- (app_assoc path).
Qed.

End Reference.

(** *** Appendable references *)

Lemma find_lookup s c i : find s c = Some i → s !! i = Some c.
Proof.
  revert i. induction s as [|a s IH]; intros i; simpl; [done|].
  destruct (N.eqb_spec a c) as [->|_].
  - by intros [= <-].
  - intros (j & Hj & ->)%fmap_Some. by apply IH.
Qed.

(** A reference starts with its first segment; what follows it, if
    anything, starts with one of [/ ; ? #]. *)
Lemma written_first_segment r :
  ∃ rest,
    written r = default [] (head (ref_dirs r ++ [ref_leaf r])) ++ rest
    ∧ (rest = []
       ∨ ∃ d rest', rest = d :: rest'
                    ∧ (d = 47%N ∧ ref_dirs r ≠ []
                       ∨ d = 59%N ∨ d = 63%N ∨ d = 35%N)).
Proof.
  destruct r as [cdirs leaf ps q f]. unfold written, ref_path.
  cbn [ref_dirs ref_leaf ref_params ref_query ref_fragment].
  change (py "/") with [47%N].
  destruct cdirs as [|d0 ds].
  - cbn [app head default join]. eexists. split; [done|].
    destruct ps as [|p0 ps]; [|right; eexists _, _; split; [done|]; auto].
    destruct q as [|q0 q]; [|right; eexists _, _; split; [done|]; auto].
    destruct f as [|f0 f]; [by left|].
    right; eexists _, _; split; [done|]; auto.
  - cbn [app head default]. rewrite join_cons by (by destruct ds).
    rewrite <- app_assoc. eexists. split; [done|].
    right. eexists _, _. split; [done|]. by left.
Qed.

Lemma written_head r c :
  appendable r → head (written r) = Some c → (32 < c)%N ∧ c ≠ 47%N.
Proof.
  intros (Hdirs & (Hleaf & _) & _ & _ & _ & Hgt & _) Hc.
  split; [by apply Hgt|].
  destruct (written_first_segment r) as (rest & E & Hrest).
  rewrite E in Hc. clear E Hgt.
  destruct (ref_dirs r) as [|d0 ds]; cbn [app head default] in Hc.
  - destruct (ref_leaf r) as [|l0 leaf]; cbn [app head] in Hc.
    + destruct Hrest as [->|(d & rest' & -> & Hd)]; [done|].
      injection Hc as <-. destruct Hd as [[_ ?]|Hd]; [done | lia].
    + injection Hc as <-. apply Forall_cons in Hleaf as [((_ & ? & _) & _) _].
      done.
  - apply Forall_cons in Hdirs as [(Hne & Hd0 & _) _].
    destruct d0 as [|c0 d0]; [done|]. injection Hc as <-.
    apply Forall_cons in Hd0 as [(_ & ? & _) _]. done.
Qed.

Lemma written_no_scheme r i :
  appendable r → find (written r) 58%N = Some i →
  ∃ d, d ∈ take i (written r) ∧ mem_char d scheme_chars = false.
Proof.
  intros (_ & _ & _ & _ & _ & _ & Hcolon).
  destruct (written_first_segment r) as (rest & -> & Hrest).
  set (seg0 := default [] (head (ref_dirs r ++ [ref_leaf r]))) in *.
  intros Hfind.
  destruct Hrest as [->|(d & rest' & -> & Hd)].
  { rewrite app_nil_r, find_None in Hfind; done. }
  pose proof (find_past _ _ _ _ Hcolon Hfind) as Hle.
  pose proof (find_lookup _ _ _ Hfind) as Hat.
  assert (Hd58 : d ≠ 58%N) by (destruct Hd as [[Hd _]|Hd]; lia).
  assert (Hlt : length seg0 < i).
  { destruct (decide (i = length seg0)) as [->|]; [|lia].
    rewrite list_lookup_middle in Hat by done. congruence. }
  exists d. split.
  - apply list_elem_of_lookup. exists (length seg0).
    rewrite lookup_take_lt by done. by rewrite list_lookup_middle.
  - destruct Hd as [[Hd _]|[Hd|[Hd|Hd]]]; by subst d.
Qed.

(** *** Putting a URL together *)

Lemma urlunparse_absolute (scheme netloc rest ps q f : str) :
  scheme ≠ [] → netloc ≠ [] →
  urlunparse {| scheme := scheme; netloc := netloc; path := 47%N :: rest;
                params := ps; query := q; fragment := f |}
  = scheme ++ 58%N :: 47%N :: 47%N :: netloc ++ (47%N :: rest)
      ++ suffix 59%N ps ++ suffix 63%N q ++ suffix 35%N f.
Proof.
  intros Hs Hn. unfold urlunparse, urlunsplit.
  cbn [UrlLib.scheme UrlLib.netloc UrlLib.path UrlLib.params UrlLib.query
       UrlLib.fragment].
  rewrite (bool_decide_eq_false_2 (netloc = [])) by done.
  rewrite (bool_decide_eq_false_2 (scheme = [])) by done.
  cbn [negb orb]. change (py ";") with [59%N]. change (py "?") with [63%N].
  change (py "#") with [35%N]. change (py ":") with [58%N].
  change (py "//") with [47%N; 47%N]. change (py "/") with [47%N].
  destruct ps as [|p0 ps], q as [|q0 q], f as [|f0 f];
    cbn [suffix app negb andb firstn];
    rewrite ?(bool_decide_eq_true_2 (@nil char = [])) by done;
    rewrite ?(bool_decide_eq_true_2 ([47%N] = [47%N])) by done;
    rewrite ?bool_decide_eq_false_2 by done;
    cbn [negb andb app]; rewrite ?app_nil_r;
    repeat (cbn [app]; rewrite <- app_assoc); cbn [app]; done.
Qed.

(** *** Joining a reference to a base *)

Ltac flatten := repeat (progress cbn [app suffix] || rewrite <- app_assoc).

Lemma http_scheme scheme :
  scheme ∈ [py "http"; py "https"] →
  scheme_ok scheme = true ∧ mem_str scheme uses_relative = true
  ∧ mem_str scheme uses_netloc = true ∧ mem_str scheme uses_params = true.
Proof.
  intros [->|Hs]%elem_of_cons; [by vm_compute|].
  apply list_elem_of_singleton in Hs as ->. by vm_compute.
Qed.

Lemma join_eq_nil cdirs (leaf : str) :
  Forall (λ seg : str, seg ≠ []) cdirs →
  join [47%N] (cdirs ++ [leaf]) = [] → cdirs = [] ∧ leaf = [].
Proof.
  destruct cdirs as [|d0 ds]; [done|]. intros [Hd0 _]%Forall_cons.
  cbn [app]. rewrite join_cons by (by destruct ds).
  by destruct d0.
Qed.

Section Joining.

Context {library : Library}.

Theorem urljoin_reference scheme netloc bsegs r :
  scheme ∈ [py "http"; py "https"] →
  authority netloc → Forall segment bsegs → appendable r →
  urljoin (plain_url scheme netloc bsegs ++ [47%N]) (written r)
  = Some (plain_url scheme netloc bsegs ++ 47%N :: written r).
Proof.
  intros Hs Hauth Hb Hr.
  destruct (http_scheme _ Hs) as (Hok & Hrel & Hnl & Hpar).
  pose proof (scheme_ok_chars _ Hok) as [Hsgt _].
  assert (Hsne : scheme ≠ []) by (by destruct scheme).
  assert (Hnne : netloc ≠ []) by (by destruct Hauth).
  (* the path of the base *)
  assert (Hbody : Forall (λ c, kept_char c ∧ c ≠ 63%N ∧ c ≠ 35%N)
                    (dirs bsegs)).
  { apply Forall_dirs; [by split; [apply kept_of_gt|]|].
    eapply Forall_impl; [exact Hb|]. intros seg (_ & Hseg & _).
    eapply Forall_impl; [exact Hseg|]. by intros c (? & _ & ? & ?). }
  assert (Forall kept_char (dirs bsegs))
    by (eapply Forall_impl; [exact Hbody|]; by intros c (? & _)).
  assert ((63%N ∉ dirs bsegs) ∧ (35%N ∉ dirs bsegs)) as [? ?].
  { split; apply Forall_ne_not_elem; (eapply Forall_impl; [exact Hbody|]);
      by intros c (_ & ? & ?). }
  assert (Hb47 : Forall (λ seg : str, 47%N ∉ seg) bsegs).
  { eapply Forall_impl; [exact Hb|]. intros seg (_ & Hseg & _).
    by destruct (segment_chars _ Hseg) as (_ & ? & _). }
  assert (Hbase : plain_url scheme netloc bsegs ++ [47%N]
                  = scheme ++ 58%N :: 47%N :: 47%N :: netloc
                      ++ dirs bsegs ++ [47%N]).
  { unfold plain_url. change (py "://") with [58%N; 47%N; 47%N].
    by rewrite <- !app_assoc. }
  unfold urljoin. rewrite Hbase.
  rewrite bool_decide_eq_false_2 by (by destruct scheme).
  destruct (decide (written r = [])) as [E|Hw].
  { rewrite E, bool_decide_eq_true_2 by done. by rewrite <- Hbase. }
  rewrite bool_decide_eq_false_2 by done.
  rewrite urlparse_absolute by (try done; apply dirs_slash_cons).
  cbn [mbind option_bind].
  cbn [UrlLib.scheme UrlLib.netloc UrlLib.path UrlLib.params UrlLib.query
       UrlLib.fragment].
  (* the reference *)
  pose proof (written_head r) as Hhead.
  pose proof (written_no_scheme r) as Hnoscheme.
  destruct Hr as (Hcd & (Hleaf & Hld & Hldd) & Hps & Hq & Hf & Hgt & Hcolon).
  specialize (λ c, Hhead c
    (conj Hcd (conj (conj Hleaf (conj Hld Hldd))
       (conj Hps (conj Hq (conj Hf (conj Hgt Hcolon))))))).
  specialize (λ i, Hnoscheme i
    (conj Hcd (conj (conj Hleaf (conj Hld Hldd))
       (conj Hps (conj Hq (conj Hf (conj Hgt Hcolon))))))).
  destruct r as [cdirs leaf ps q f]. unfold written, ref_path in *.
  cbn [ref_dirs ref_leaf ref_params ref_query ref_fragment] in *.
  change (py "/") with [47%N] in *.
  assert (Hcd' : Forall (λ seg, Forall segment_char seg) cdirs)
    by (eapply Forall_impl; [exact Hcd|]; by intros seg (_ & ? & _)).
  assert (Hcne : Forall (λ seg : str, seg ≠ []) cdirs)
    by (eapply Forall_impl; [exact Hcd|]; by intros seg (? & _)).
  assert (Hc47 : Forall (λ seg : str, 47%N ∉ seg) (cdirs ++ [leaf])).
  { apply Forall_app. split.
    - eapply Forall_impl; [exact Hcd'|]. intros seg Hseg.
      by destruct (segment_chars _ Hseg) as (_ & ? & _).
    - constructor; [|done]. apply Forall_ne_not_elem.
      eapply Forall_impl; [exact Hleaf|]. by intros c ((_ & ? & _) & _). }
  rewrite urlparse_reference by done.
  cbn [mbind option_bind].
  cbn [UrlLib.scheme UrlLib.netloc UrlLib.path UrlLib.params UrlLib.query
       UrlLib.fragment].
  rewrite bool_decide_eq_true_2 by done. rewrite Hrel, Hnl.
  rewrite (bool_decide_eq_true_2 (@nil char = [])) by done.
  cbn [negb orb andb].
  destruct (dirs_slash_cons bsegs) as [bpath Hbpath].
  destruct (decide (join [47%N] (cdirs ++ [leaf]) = [] ∧ ps = []))
    as [[Hpath ->]|Hnot].
  - (* only a query or a fragment *)
    destruct (join_eq_nil _ _ Hcne Hpath) as [-> ->].
    rewrite Hpath, !(bool_decide_eq_true_2 (@nil char = [])) by done.
    cbn [andb]. f_equal.
    assert ((if bool_decide (q = []) then [] else q) = q) as ->
      by (by destruct q).
    rewrite Hbpath, urlunparse_absolute by done.
    rewrite <- Hbpath. unfold plain_url.
    change (py "://") with [58%N; 47%N; 47%N].
    by flatten.
  - assert ((bool_decide (join [47%N] (cdirs ++ [leaf]) = [])
             && bool_decide (ps = [])) = false) as ->.
    { apply andb_false_iff.
      destruct (decide (join [47%N] (cdirs ++ [leaf]) = [])) as [E|E].
      - right. apply bool_decide_eq_false_2. tauto.
      - left. by apply bool_decide_eq_false_2. }
    rewrite (split_dirs _ Hb47).
    assert (last ([] :: bsegs ++ [[]]) = Some []) as ->
      by (by rewrite app_comm_cons, last_snoc).
    rewrite (bool_decide_eq_true_2 (Some (@nil char) = Some [])) by done.
    rewrite (bool_decide_eq_false_2 (take 1 _ = [47%N])).
    2: { destruct (join [47%N] (cdirs ++ [leaf])) as [|c0 rest] eqn:E;
           [done|].
         destruct (Hhead c0) as [_ Hc0]; [by rewrite ?E|].
         by intros [= ->]. }
    rewrite split_join by (done || by destruct cdirs).
    rewrite drop_empty_inner_dirs; [|by eapply Forall_impl;
      [exact Hb|]; intros seg (? & _) | done].
    assert (Hlast : last ([] :: bsegs ++ cdirs ++ [leaf]) = Some leaf)
      by (by rewrite app_comm_cons, !app_assoc, last_snoc).
    rewrite Hlast.
    rewrite (bool_decide_eq_false_2 (Some leaf = Some (py "."))),
      (bool_decide_eq_false_2 (Some leaf = Some (py ".."))) by congruence.
    cbn [orb]. unfold resolve. rewrite resolve_plain_acc, app_nil_l.
    2: { constructor; [done|]. apply Forall_app. split.
         - eapply Forall_impl; [exact Hb|]. by intros seg (_ & _ & ? & ?).
         - apply Forall_app. split; [|by constructor].
           eapply Forall_impl; [exact Hcd|]. by intros seg (_ & _ & ? & ?). }
    rewrite join_cons by (by destruct bsegs, cdirs).
    cbn [app]. rewrite (bool_decide_eq_false_2 (47%N :: _ = [])) by done.
    rewrite urlunparse_absolute by done. f_equal.
    rewrite join_dirs by (by destruct cdirs).
    unfold plain_url. change (py "://") with [58%N; 47%N; 47%N].
    by flatten.
Qed.

End Joining.

(** *** The URL of a candidate *)

Lemma rstrip_replicate (x : char) k : Str.rstrip (replicate k x) x = [].
Proof.
  induction k as [|k IH]; [done|]. simpl. by rewrite IH, N.eqb_refl.
Qed.

Lemma rstrip_app_replicate (s : str) (x : char) k :
  Str.rstrip (s ++ replicate k x) x = Str.rstrip s x.
Proof.
  induction s as [|a s IH]; simpl; [apply rstrip_replicate | by rewrite IH].
Qed.

Lemma rstrip_not_ending (s : str) (x : char) :
  (∀ c, last s = Some c → c ≠ x) → Str.rstrip s x = s.
Proof.
  induction s as [|a s IH]; [done|]. intros Hlast. simpl.
  destruct s as [|b s].
  - simpl. destruct (N.eqb_spec a x) as [->|]; [|done].
    by destruct (Hlast x).
  - rewrite IH; [done|]. intros c Hc. by apply Hlast.
Qed.

Lemma plain_url_last scheme netloc segs :
  netloc ≠ [] → Forall segment_char netloc → Forall segment segs →
  ∀ c, last (plain_url scheme netloc segs) = Some c → c ≠ 47%N.
Proof.
  intros Hnet Hhost Hsegs c. unfold plain_url.
  assert (Hend : ∃ body d, netloc ++ dirs segs = body ++ [d] ∧ d ≠ 47%N).
  { destruct (decide (segs = [])) as [->|Hne].
    - destruct (exists_last Hnet) as (body & d & ->).
      exists body, d. split; [by rewrite app_nil_r|].
      by apply Forall_app in Hhost as [_ [(_ & ? & _) _]%Forall_cons].
    - destruct (exists_last Hne) as (ss & seg & ->).
      apply Forall_app in Hsegs as [_ [(Hnil & Hseg & _) _]%Forall_cons].
      destruct (exists_last Hnil) as (body & d & ->).
      exists (netloc ++ dirs ss ++ 47%N :: body), d. split.
      + unfold dirs. rewrite fmap_app, concat_app. simpl.
        by rewrite app_nil_r, <- !app_assoc.
      + by apply Forall_app in Hseg as [_ [(_ & ? & _) _]%Forall_cons]. }
  destruct Hend as (body & d & E & Hd). rewrite E, !app_assoc, last_snoc.
  by intros [= <-].
Qed.

Section Candidates.

Context {library : Library}.

(** An authority in ASCII without brackets is one that [urlsplit]
    accepts. *)
Lemma host_authority netloc :
  netloc ≠ [] → Forall host_char netloc → authority netloc.
Proof.
  intros Hne Hhost. split; [done|].
  assert ((91%N ∉ netloc) ∧ (93%N ∉ netloc)) as [H91 H93].
  { split; apply Forall_ne_not_elem; (eapply Forall_impl; [exact Hhost|]);
      unfold host_char; intros c ?; lia. }
  split.
  { eapply Forall_impl; [exact Hhost|]. unfold host_char, segment_char,
      kept_char. intros c ?. lia. }
  rewrite !mem_char_false by done. split; [done|]. split; [done|].
  unfold _checknetloc.
  assert (isascii netloc = true) as ->; [|by rewrite orb_true_r].
  unfold isascii. apply forallb_forall. intros c Hc%list_elem_of_In.
  eapply Forall_forall in Hhost; [|exact Hc]. unfold host_char in Hhost.
  apply N.ltb_lt. lia.
Qed.

(** C6 (amended).  [_build_url] strips one leading slash of the candidate
    and joins what is left to the base URL followed by a slash.  Let the
    base be [scheme://authority/seg/.../seg] with scheme http or https,
    an authority that [urlsplit] accepts and segments that are neither
    empty nor dot segments, written with any number of trailing slashes.
    Let the candidate be, with or without a leading slash, a relative
    reference [dir/.../dir/leaf;params?query#fragment]: directories that
    are neither empty nor dot segments, a last segment that is no dot
    segment and may be empty, parameters, query and fragment that are
    absent or not empty, no colon in the first segment, and nowhere a
    tab, a carriage return or a newline, nor a character up to U+0020 in
    front.  Then the URL is the base URL, a slash, and the reference. *)
Theorem build_url_under_base scheme netloc bsegs r k (slash : bool) wl n :
  scheme ∈ [py "http"; py "https"] →
  authority netloc → Forall segment bsegs → appendable r →
  let self :=
    DirectoryScanner.__init__
      (plain_url scheme netloc bsegs ++ replicate k 47%N) wl n in
  let candidate := (if slash then py "/" else []) ++ written r in
  DirectoryScanner.base_url self = plain_url scheme netloc bsegs
  ∧ DirectoryScanner._build_url self candidate
    = Some (DirectoryScanner.base_url self ++ py "/" ++ written r)
  ∧ ∀ path,
      DirectoryScanner._build_url self (py "/" ++ path)
      = urljoin (DirectoryScanner.base_url self ++ py "/") path.
Proof.
  intros Hscheme Hauth Hb Hr self candidate.
  assert (Hbase : DirectoryScanner.base_url self
                  = plain_url scheme netloc bsegs).
  { unfold self. cbn [DirectoryScanner.base_url DirectoryScanner.__init__].
    rewrite rstrip_app_replicate. apply rstrip_not_ending.
    destruct Hauth as (? & ? & _). by apply plain_url_last. }
  split; [done|]. split; [|done].
  assert (Hfirst : Str.startswith (written r) (py "/") = false).
  { change (py "/") with [47%N].
    destruct (written r) as [|c rest] eqn:E; [done|].
    destruct (written_head r c Hr) as [_ Hc]; [by rewrite E|].
    cbn [Str.startswith]. apply andb_false_iff. left.
    apply N.eqb_neq. congruence. }
  unfold DirectoryScanner._build_url. rewrite Hbase.
  change (py "/") with [47%N] in *.
  assert (Hcand : (if Str.startswith candidate [47%N] then drop 1 candidate
                   else candidate) = written r).
  { unfold candidate. destruct slash; cbn [app].
    - done.
    - by rewrite Hfirst. }
  rewrite Hcand. by apply urljoin_reference.
Qed.

End Candidates.

(** C6, as stated, fails: the URL of a candidate with two leading slashes,
    of one with a dot-dot segment and of one with a scheme leaves the
    path prefix of the base URL. *)
Lemma build_url_leaves_base :
  let self := DirectoryScanner.__init__ (py "http://h/app") [] 50 in
  let _build_url :=
    DirectoryScanner._build_url (library := ProberExample.no_library) in
  _build_url self (py "//admin") = Some (py "http://h/admin")
  ∧ Str.startswith (py "http://h/admin") (py "http://h/app/") = false
  ∧ _build_url self (py "../secret") = Some (py "http://h/secret")
  ∧ _build_url self (py "http://evil.example/x")
    = Some (py "http://evil.example/x").
Proof. by vm_compute. Qed.

(** Candidates with a trailing slash, a query, parameters, a fragment
    or a space are appended as they are. *)
Lemma build_url_appends :
  let self := DirectoryScanner.__init__ (py "http://h/app") [] 50 in
  map (DirectoryScanner._build_url (library := ProberExample.no_library)
         self)
      (map py ["admin/"; "index.php?id=1"; "a;b"; "page#top"; "a b"]%string)
  = map (λ c, Some (py "http://h/app/" ++ py c))
      ["admin/"; "index.php?id=1"; "a;b"; "page#top"; "a b"]%string.
Proof. by vm_compute. Qed.

Lemma build_url_under_base_admin :
  let library := ProberExample.no_library in
  let self := DirectoryScanner.__init__ (py "https://example.com/app/") [] 50 in
  let r := {| ref_dirs := [py "admin"]; ref_leaf := py "login.php";
              ref_params := py "v=2"; ref_query := py "id=1";
              ref_fragment := py "top" |} in
  py "https" ∈ [py "http"; py "https"]
  ∧ authority (py "example.com")
  ∧ Forall segment [py "app"]
  ∧ appendable r
  ∧ DirectoryScanner._build_url self (py "/admin/login.php;v=2?id=1#top")
    = Some (py "https://example.com/app/admin/login.php;v=2?id=1#top").
Proof.
  intros library self r.
  assert (H1 : py "https" ∈ [py "http"; py "https"])
    by (apply list_elem_of_further, list_elem_of_here).
  assert (H2 : authority (py "example.com")).
  { apply host_authority; [done|]. vm_compute. repeat constructor; done. }
  assert (H3 : Forall segment [py "app"])
    by (vm_compute; repeat constructor; done).
  assert (H4 : appendable r).
  { vm_compute. repeat split; try done; repeat constructor; try done.
    - by intros c [= <-].
    - intros H. repeat (apply elem_of_cons in H as [H|H]; [done|]).
      by apply elem_of_nil in H. }
  repeat (split; [assumption|]).
  exact (proj1 (proj2 (build_url_under_base (py "https") (py "example.com")
                         [py "app"] r 1 true [] 50 H1 H2 H3 H4))).
Defined.

End UrlJoin.

(** ** Path prober *)

Module PathProber.
Import Http DirectoryScanner.

Lemma existsb_eqb_elem (c : Z) (l : list Z) :
  existsb (Z.eqb c) l = true ↔ c ∈ l.
Proof.
  induction l as [|x l IH]; simpl.
  - split; [done | by intros ?%elem_of_nil].
  - rewrite orb_true_iff, Z.eqb_eq, IH, elem_of_cons. tauto.
Qed.

Lemma is_interesting_response_iff (response : Response) :
  _is_interesting_response response = true
  ↔ retained_status (status_code response).
Proof.
  unfold _is_interesting_response, retained_status.
  rewrite <- !existsb_eqb_elem, <- Z.leb_le.
  repeat match goal with
         | |- context [existsb ?f ?l] => destruct (existsb f l)
         end; try tauto.
  destruct (500 <=? status_code response)%Z; intuition discriminate.
Qed.

Section Scan.

Context {library : Library}.

Variable re_search_group1 : str → str → option str.
Variable strip : str → str.
Variable client_get : nat → str → Outcome.
Variable clock : nat → float.

Local Abbreviation _extract_title :=
  (_extract_title re_search_group1 strip).
Local Abbreviation _check_directory :=
  (_check_directory re_search_group1 strip client_get).
Local Abbreviation submit_all :=
  (submit_all re_search_group1 strip client_get).
Local Abbreviation drain := (drain clock).
Local Abbreviation scan_with :=
  (scan_with re_search_group1 strip client_get clock).
Local Abbreviation scan := (scan re_search_group1 strip client_get clock).

Lemma check_directory_Some i url pr :
  _check_directory i url = Some pr ↔
    ∃ response, client_get i url = Got response
                ∧ retained_status (status_code response)
                ∧ pr = probe_result _extract_title url response.
Proof.
  unfold DirectoryScanner._check_directory.
  destruct (client_get i url) as [response| |].
  - destruct (_is_interesting_response response) eqn:E.
    + apply is_interesting_response_iff in E. split.
      * intros [= <-]. eauto.
      * intros (r & [= <-] & _ & ->). done.
    + split; [done|]. intros (r & [= <-] & H & _).
      apply is_interesting_response_iff in H. congruence.
  - split; [done | by intros (? & ? & _)].
  - split; [done | by intros (? & ? & _)].
Qed.

(** *** The submission loop *)

Lemma submit_all_spec self i words futures :
  submit_all self i words = (futures, false) →
  length futures = length words
  ∧ ∀ j word, words !! j = Some word →
      ∃ url, _build_url self word = Some url
             ∧ futures !! j
               = Some {| fut_url := url;
                         fut_result := Returned (_check_directory (i + j) url) |}.
Proof.
  revert i futures. induction words as [|w words IH]; intros i futures; simpl.
  - intros [= <-]. split; [done|]. intros j word Hj. by destruct j.
  - destruct (_build_url self w) as [url|] eqn:Eurl; [|done].
    destruct (submit_all self (S i) words) as [fs raised] eqn:E.
    intros [= <- ->]. destruct (IH _ _ E) as [Hlen Hnth].
    split; [simpl; by f_equal|].
    intros [|j] word Hj; simpl in Hj.
    + injection Hj as <-. exists url. by rewrite Nat.add_0_r.
    + destruct (Hnth j word Hj) as (u & Hu & Hf). exists u. split; [done|].
      simpl. by rewrite Nat.add_succ_r.
Qed.

Lemma submit_all_returned self i words :
  Forall (λ f, excepted f = false) (submit_all self i words).1.
Proof.
  revert i. induction words as [|w words IH]; intros i; simpl; [done|].
  destruct (_build_url self w); [|done].
  specialize (IH (S i)). destruct (submit_all self (S i) words). simpl in *.
  by constructor.
Qed.

Lemma submit_all_built self i words :
  Forall (λ w, is_Some (_build_url self w)) words →
  (submit_all self i words).2 = false.
Proof.
  intros H. revert i. induction H as [|w words [url Hw] _ IH]; intros i;
    simpl; [done|].
  rewrite Hw. specialize (IH (S i)).
  by destruct (submit_all self (S i) words).
Qed.

(** *** One turn of the collecting loop *)

Lemma gather_results self f :
  results (gather self f) = results self ++ option_list (retained f).
Proof.
  unfold gather, retained.
  destruct (fut_result f) as [[r|]|]; simpl; by rewrite ?app_nil_r.
Qed.

Lemma gather_found self f :
  found (stats (gather self f))
  = (found (stats self) + Z.of_nat (length (option_list (retained f))))%Z.
Proof.
  unfold gather, retained.
  destruct (fut_result f) as [[r|]|]; simpl; lia.
Qed.

Lemma gather_errors self f :
  excepted f = false →
  errors (stats (gather self f)) = errors (stats self).
Proof. unfold gather, excepted. by destruct (fut_result f) as [[r|]|]. Qed.

Lemma gather_found_is_len self f :
  found_is_len self → found_is_len (gather self f).
Proof.
  unfold found_is_len. rewrite gather_found, gather_results, length_app. lia.
Qed.

(** *** The collecting loop *)

Lemma drain_found_is_len self progress k tick done :
  found_is_len self →
  Forall found_is_len (drain self progress k tick done).1.1.
Proof.
  revert self progress k tick.
  induction done as [|f done IH]; intros self progress k tick H; simpl;
    [constructor|].
  apply (gather_found_is_len _ f) in H.
  destruct (ProgressBar._print _ _); [by repeat constructor|].
  specialize (IH (set_total (gather self f) (k + 1))
                (ProgressBar.advance progress 1) (k + 1)%Z (S tick) H).
  destruct (DirectoryScanner.drain _ _ _ _ _ _) as [[states pb] e].
  by constructor.
Qed.

Lemma drain_errors self progress k tick done :
  Forall (λ f, excepted f = false) done →
  Forall (λ s, errors (stats s) = errors (stats self))
         (drain self progress k tick done).1.1.
Proof.
  intros H. revert self progress k tick.
  induction H as [|f done Hf _ IH]; intros self progress k tick; simpl;
    [constructor|].
  pose proof (gather_errors self f Hf) as E.
  destruct (ProgressBar._print _ _); [by repeat constructor|].
  specialize (IH (set_total (gather self f) (k + 1))
                (ProgressBar.advance progress 1) (k + 1)%Z (S tick)).
  destruct (DirectoryScanner.drain _ _ _ _ _ _) as [[states pb] e].
  simpl in *. constructor; [done|]. by rewrite <- E.
Qed.

(** A loop that no exception ended went through every future. *)
Lemma drain_finished self progress k tick done states progress' :
  drain self progress k tick done = (states, progress', None) →
  length states = length done
  ∧ (∀ j s, states !! j = Some s →
            total (stats s) = (k + Z.of_nat j + 1)%Z)
  ∧ results (default self (last states))
    = results self ++ omap retained done.
Proof.
  revert self progress k tick states.
  induction done as [|f done IH]; intros self progress k tick states; simpl.
  - intros [= <- <-]. by rewrite app_nil_r.
  - destruct (ProgressBar._print _ _); [done|].
    destruct (DirectoryScanner.drain _ _ _ _ _ _) as [[states' pb] e] eqn:E.
    intros [= <- <- ->]. destruct (IH _ _ _ _ _ E) as (Hlen & Htot & Hres).
    split; [simpl; by rewrite Hlen|]. split.
    + intros [|j] s; simpl.
      * intros [= <-]. simpl. lia.
      * intros H. rewrite (Htot j s H). lia.
    + assert (Hlast : default self (last (set_total (gather self f) (k + 1)
                                            :: states'))
                      = default (set_total (gather self f) (k + 1))
                          (last states')).
      { destruct states' as [|s1 states']; [done|].
        rewrite last_cons_cons.
        destruct (last (s1 :: states')) eqn:El; [done|].
        by apply last_None in El. }
      rewrite Hlast, Hres. cbn [results set_total set_stats].
      rewrite gather_results, <- app_assoc. f_equal.
      by destruct (retained f).
Qed.

(** *** A whole run *)

Lemma scan_with_completed self done s' ret :
  run_end (scan_with self done) = Completed s' ret →
  let entry := set_start_time self (clock 0) in
  ∃ futures states progress progress',
    (0 < threads self)%Z
    ∧ submit_all entry 0 (wordlist self) = (futures, false)
    ∧ drain entry progress 0 2 (done futures) = (states, progress', None)
    ∧ s' = set_end_time (default entry (last states))
             (clock (3 + length futures))
    ∧ ret = results s'
    ∧ run_requests (scan_with self done) = map fut_url futures
    ∧ run_states (scan_with self done) = entry :: states ++ [s'].
Proof.
  unfold DirectoryScanner.scan_with. cbn [threads set_start_time set_stats].
  destruct (Z.leb_spec (threads self) 0) as [|Hpos]; [done|].
  cbn [wordlist].
  destruct (DirectoryScanner.submit_all _ _ _ _ _ _) as [futures raised] eqn:E.
  destruct raised; [done|].
  destruct (DirectoryScanner.drain _ _ _ _ _ _) as [[states pb] e] eqn:Ed.
  destruct e; [done|]. destruct (ProgressBar._print _ _); [done|].
  cbn [run_end run_requests run_states].
  intros [= <- <-]. by eexists futures, states, _, pb.
Qed.

(** A property of the state on entry that every turn keeps holds in all
    the states of the run. *)
Lemma scan_with_states (P : Scanner → Prop) self done :
  P (set_start_time self (clock 0)) →
  (∀ s t, P s → P (set_end_time s t)) →
  (∀ entry progress k tick fs,
     P entry → Forall P (drain entry progress k tick fs).1.1) →
  Forall P (run_states (scan_with self done)).
Proof.
  intros Hentry Hend Hloop. unfold DirectoryScanner.scan_with.
  destruct (_ <=? _)%Z; [by repeat constructor|].
  destruct (DirectoryScanner.submit_all _ _ _ _ _ _) as [futures raised].
  destruct raised; [by repeat constructor|].
  match goal with
  | |- context [DirectoryScanner.drain ?c ?e ?p ?k ?t ?fs] =>
      pose proof (Hloop e p k t fs Hentry) as Hstates;
      destruct (DirectoryScanner.drain c e p k t fs) as [[states pb] e']
  end.
  cbn [fst] in Hstates.
  assert (Hlast : P (default (set_start_time self (clock 0)) (last states))).
  { destruct (last states) as [s|] eqn:El; [|done].
    eapply Forall_forall; [exact Hstates|]. simpl.
    apply last_Some in El as [l' ->]. apply elem_of_app. right.
    apply list_elem_of_here. }
  destruct e'; [by constructor|].
  destruct (ProgressBar._print _ _); [by constructor|].
  cbn [run_states]. constructor; [done|]. apply Forall_app. split; [done|].
  constructor; [|constructor]. by apply Hend.
Qed.

Lemma scan_with_states_found_is_len self done :
  found_is_len self → Forall found_is_len (run_states (scan_with self done)).
Proof.
  intros Hself. apply scan_with_states; [done|done|].
  intros. by apply drain_found_is_len.
Qed.

Lemma scan_with_states_errors self done :
  (∀ futures, done futures ≡ₚ futures) →
  Forall (λ s, errors (stats s) = errors (stats self))
         (run_states (scan_with self done)).
Proof.
  intros Hperm. unfold DirectoryScanner.scan_with.
  destruct (_ <=? _)%Z; [by repeat constructor|].
  pose proof (submit_all_returned (set_start_time self (clock 0)) 0
                (wordlist (set_start_time self (clock 0)))) as Hret.
  destruct (DirectoryScanner.submit_all _ _ _ _ _ _) as [futures raised].
  destruct raised; [by repeat constructor|].
  cbn [fst] in Hret. rewrite <- (Hperm futures) in Hret.
  match goal with
  | |- context [DirectoryScanner.drain ?c ?e ?p ?k ?t ?fs] =>
      pose proof (drain_errors e p k t fs Hret) as Hstates;
      destruct (DirectoryScanner.drain c e p k t fs) as [[states pb] e']
  end.
  cbn [fst] in Hstates.
  assert (Hlast : errors (stats (default (set_start_time self (clock 0))
                                   (last states)))
                  = errors (stats self)).
  { destruct (last states) as [s|] eqn:El; [|done].
    eapply Forall_forall in Hstates; [exact Hstates|]. simpl.
    apply last_Some in El as [l' ->]. apply elem_of_app. right.
    apply list_elem_of_here. }
  destruct e'; [by constructor|].
  destruct (ProgressBar._print _ _); [by constructor|].
  cbn [run_states]. constructor; [done|]. apply Forall_app. split; [done|].
  by repeat constructor.
Qed.

(** *** The claims on the path prober *)

Lemma elem_of_results base wl n done s' ret pr :
  (∀ futures, done futures ≡ₚ futures) →
  run_end (scan_with (__init__ base wl n) done) = Completed s' ret →
  pr ∈ ret ↔
    ∃ i word url response,
      wl !! i = Some word
      ∧ _build_url (__init__ base wl n) word = Some url
      ∧ client_get i url = Got response
      ∧ retained_status (status_code response)
      ∧ pr = probe_result _extract_title url response.
Proof.
  intros Hperm Hend.
  apply scan_with_completed in Hend
    as (futures & states & pb & pb' & _ & Hsub & Hdrain & -> & -> & _).
  apply submit_all_spec in Hsub as [Hlen Hnth]. cbn [wordlist __init__] in *.
  change (_build_url (set_start_time ?s ?t)) with (_build_url s) in Hnth.
  apply drain_finished in Hdrain as (_ & _ & Hres).
  cbn [results set_end_time set_stats]. rewrite Hres. cbn [results].
  rewrite app_nil_l, list_elem_of_omap. setoid_rewrite (Hperm futures).
  split.
  - intros (f & Hf & Hpr). apply list_elem_of_lookup in Hf as [i Hi].
    destruct (lookup_lt_is_Some_2 wl i) as [word Hword].
    { rewrite <- Hlen. by eapply lookup_lt_Some. }
    destruct (Hnth i word Hword) as (url & Hurl & Hfut).
    rewrite Hi in Hfut. injection Hfut as ->. unfold retained in Hpr.
    cbn in Hpr. apply check_directory_Some in Hpr as (r & ? & ? & ?).
    by exists i, word, url, r.
  - intros (i & word & url & r & Hword & Hurl & Hget & Hst & ->).
    destruct (Hnth i word Hword) as (url' & Hurl' & Hfut).
    assert (url' = url) as -> by congruence.
    eexists. split; [by eapply list_elem_of_lookup_2|].
    unfold retained. cbn. apply check_directory_Some. by exists r.
Qed.

(** C1. The classifier answers [True] exactly on the statuses 200, 201,
    204, on 301, 302, 303, 307, 308, on 401, 403 and on every status from
    500 up; of 200, 301, 401, 403, 404, 500 it keeps all but 404.  A run
    of the prober that completes returns exactly the results of the
    requests whose response has such a status. *)
Theorem found_iff_interesting base wl n run s' ret :
  scan (__init__ base wl n) run →
  run_end run = Completed s' ret →
  (∀ pr, pr ∈ ret ↔
     ∃ i word url response,
       wl !! i = Some word
       ∧ _build_url (__init__ base wl n) word = Some url
       ∧ client_get i url = Got response
       ∧ retained_status (status_code response)
       ∧ pr = probe_result _extract_title url response)
  ∧ (∀ response, _is_interesting_response response = true
                 ↔ retained_status (status_code response))
  ∧ (∀ h c t e,
       map (λ status, _is_interesting_response (mkResponse status h c t e))
           [200; 301; 401; 403; 404; 500]%Z
       = [true; true; true; true; false; true]).
Proof.
  intros [done Hperm] Hend. split; [|split].
  - intros pr. by eapply elem_of_results.
  - apply is_interesting_response_iff.
  - done.
Qed.

(** C3 (what the code does).  Whatever the transport answers, the counter
    [errors] keeps the value it had when the run began, in every state of
    the run: [_check_directory] turns a failed request into [None], so no
    future raises and the handler that counts errors is never entered. *)
Theorem errors_never_counted base wl n run :
  scan (__init__ base wl n) run →
  Forall (λ s, errors (stats s) = 0%Z) (run_states run).
Proof.
  intros [done Hperm].
  by apply (scan_with_states_errors (__init__ base wl n)).
Qed.

(** The submission loop takes the candidates in order and stops at the
    first one for which [urljoin] raises. *)
Lemma submit_all_prefix self i words :
  ∃ k, k ≤ length words
    ∧ Forall2 (λ w f, _build_url self w = Some (fut_url f))
        (take k words) (submit_all self i words).1
    ∧ ((submit_all self i words).2 = true →
       ∃ w, words !! k = Some w ∧ _build_url self w = None)
    ∧ ((submit_all self i words).2 = false → k = length words).
Proof.
  revert i. induction words as [|w words IH]; intros i; simpl.
  - exists 0. split; [done|]. split; [constructor|]. by split.
  - destruct (_build_url self w) as [url|] eqn:Eurl.
    + destruct (IH (S i)) as (k & Hk & Hall & Hraised & Hdone).
      destruct (submit_all self (S i) words) as [futures raised].
      exists (S k). cbn [fst snd] in *. split; [lia|].
      split; [by constructor|]. split; [done|].
      intros H. by rewrite (Hdone H).
    + exists 0. cbn [fst snd]. split; [lia|]. split; [constructor|].
      split; [|done]. intros _. by exists w.
Qed.

(** C7 (amended).  The constructor checks nothing and keeps
    [min(threads, 200)] workers, never more than 200.  With a
    non-positive number of workers the run ends in the [ValueError] of the
    pool constructor before any request.  With a positive one the base
    URL decides nothing: the candidates are taken in order, and a request
    is issued for each of them up to the first one for which [urljoin]
    raises [ValueError], which ends the run with that error; when it
    raises for none, one request is issued per candidate. *)
Theorem pool_size_and_no_validation base wl n run :
  scan (__init__ base wl n) run →
  threads (__init__ base wl n) = Z.min n 200
  ∧ (threads (__init__ base wl n) ≤ 200)%Z
  ∧ ((n ≤ 0)%Z →
     raised (run_end run) = Some ValueError ∧ run_requests run = [])
  ∧ ((0 < n)%Z →
     ∃ k, k ≤ length wl
       ∧ Forall2 (λ w url, _build_url (__init__ base wl n) w = Some url)
           (take k wl) (run_requests run)
       ∧ (k < length wl →
          (∃ w, wl !! k = Some w ∧ _build_url (__init__ base wl n) w = None)
          ∧ raised (run_end run) = Some ValueError)
       ∧ (Forall (λ w, is_Some (_build_url (__init__ base wl n) w)) wl →
          k = length wl ∧ length (run_requests run) = length wl)).
Proof.
  intros [done Hperm]. split; [done|]. split; [simpl; lia|].
  unfold DirectoryScanner.scan_with.
  cbn [threads __init__ set_start_time set_stats wordlist].
  split.
  - intros Hn. destruct (Z.leb_spec (Z.min n 200) 0); [done | lia].
  - intros Hn. destruct (Z.leb_spec (Z.min n 200) 0); [lia|].
    match goal with
    | |- context [DirectoryScanner.submit_all ?g ?t ?c ?e ?i ?w] =>
        destruct (submit_all_prefix e i w) as (k & Hk & Hall & Hraised & Hdone);
        destruct (DirectoryScanner.submit_all g t c e i w)
          as [futures raised]
    end.
    cbn [fst snd] in *.
    change (_build_url (set_start_time ?s ?t)) with (_build_url s) in *.
    assert (Hreq : Forall2 (λ w url, _build_url (__init__ base wl n) w
                                     = Some url)
                     (take k wl) (map fut_url futures)).
    { change (map fut_url futures) with (fut_url <$> futures).
      by apply Forall2_fmap_r. }
    assert (Hlen : length (map fut_url futures) = k `min` length wl).
    { apply Forall2_length in Hreq. rewrite length_take in Hreq. lia. }
    assert (Hfull : Forall (λ w, is_Some (_build_url (__init__ base wl n) w))
                      wl → raised = false).
    { intros Hbuilt. destruct raised; [|done].
      destruct (Hraised eq_refl) as (w & Hw & Hnone).
      eapply Forall_forall in Hbuilt; [|by eapply list_elem_of_lookup_2].
      rewrite Hnone in Hbuilt. by destruct Hbuilt. }
    exists k. split; [done|].
    destruct raised.
    + cbn [run_requests run_end raised]. split; [done|].
      split; [intros _; split; [by apply Hraised | done]|].
      intros Hbuilt. by specialize (Hfull Hbuilt).
    + specialize (Hdone eq_refl). subst k.
      destruct (DirectoryScanner.drain _ _ _ _ _) as [[states pb] e].
      destruct e; [|destruct (ProgressBar._print _ _)];
        cbn [run_requests]; (split; [done|]); (split; [lia|]);
        intros _; (split; [done|]); rewrite Hlen; lia.
Qed.

(** C8. After a run that completes, [total] is the number of candidate
    paths and one request was issued per candidate.  The run goes through
    one state per collected result, and the state after the [j]-th
    result has [total = j]. *)
Theorem total_issued_is_len base wl n run s' ret :
  scan (__init__ base wl n) run →
  run_end run = Completed s' ret →
  total (stats s') = Z.of_nat (length wl)
  ∧ length (run_requests run) = length wl
  ∧ length (run_states run) = length wl + 2
  ∧ (∀ j s, j ≤ length wl → run_states run !! j = Some s →
            total (stats s) = Z.of_nat j)
  ∧ run_states run !! (length wl + 1) = Some s'.
Proof.
  intros [done Hperm] Hend.
  apply scan_with_completed in Hend
    as (futures & states & pb & pb' & _ & Hsub & Hdrain & Hs' & _ & -> & ->).
  apply submit_all_spec in Hsub as [Hlen _]. cbn [wordlist __init__] in *.
  apply drain_finished in Hdrain as (Hstates & Htot & _).
  assert (Hdone : length states = length wl)
    by (by rewrite Hstates, (Hperm futures)).
  split; [|split; [|split; [|split]]].
  - rewrite Hs'. cbn [stats set_end_time set_stats total].
    destruct (last states) as [s|] eqn:El; simpl.
    + apply last_Some in El as [l' ->]. rewrite length_app in Hdone.
      simpl in Hdone.
      rewrite (Htot (length l') s) by (by rewrite list_lookup_middle). lia.
    + apply last_None in El as ->. simpl in Hdone. by rewrite <- Hdone.
  - by rewrite length_map.
  - cbn [length]. rewrite length_app, Hdone. simpl. lia.
  - intros [|j] s Hj; simpl.
    + by intros [= <-].
    + rewrite lookup_app_l by lia. intros H%Htot. lia.
  - simpl. rewrite Nat.add_1_r. simpl.
    rewrite lookup_app_r by lia. by rewrite Hdone, Nat.sub_diag.
Qed.

(** C10. In every state of a run, from entry to return, the counter
    [found] is the length of the list of results; the list a completed
    run returns is that list, so [found] counts the returned results. *)
Theorem found_counter_is_len base wl n run :
  scan (__init__ base wl n) run →
  Forall found_is_len (run_states run)
  ∧ ∀ s' ret, run_end run = Completed s' ret →
      ret = results s' ∧ found (stats s') = Z.of_nat (length ret).
Proof.
  intros [done Hperm]. split.
  - by apply scan_with_states_found_is_len.
  - intros s' ret Hend.
    pose proof (scan_with_states_found_is_len (__init__ base wl n) done
                  eq_refl) as Hall.
    apply scan_with_completed in Hend
      as (futures & states & pb & pb' & _ & _ & _ & _ & -> & _ & Hst).
    split; [done|]. rewrite Hst in Hall.
    apply Forall_cons in Hall as [_ Hall].
    by apply Forall_app in Hall as [_ [Hs' _]%Forall_cons].
Qed.

(** A run exists for every scanner: the loops of [scan] are over finite
    lists. *)
Lemma scan_total self : ∃ run, scan self run.
Proof. eexists. by apply (scan_intro _ _ _ _ _ id). Qed.

(** A run over an empty candidate list issues no request and ends in the
    [ZeroDivisionError] of [progress.close()], whose [_print] divides by
    the total. *)
Lemma empty_wordlist_raises base n run :
  (0 < n)%Z → scan (__init__ base [] n) run →
  raised (run_end run) = Some ZeroDivisionError ∧ run_requests run = [].
Proof.
  intros Hn [done Hperm]. unfold DirectoryScanner.scan_with.
  cbn [threads __init__ set_start_time set_stats wordlist].
  destruct (Z.leb_spec (Z.min n 200) 0); [lia|]. simpl.
  pose proof (Hperm []) as ->%Permutation_nil_r. done.
Qed.

End Scan.

(** *** Concrete runs *)

Import ProberExample.

#[local] Existing Instance no_library.

Lemma scan_id {library : Library} group1 strip client clock self :
  scan group1 strip client clock self
    (scan_with group1 strip client clock self id).
Proof. by apply scan_intro. Qed.

Lemma found_iff_interesting_table :
  scan no_group same table_client ticking
    (__init__ (py "http://h/app/") six_words 50) table_run
  ∧ run_end table_run
    = Completed (end_state (run_end table_run)) (returned (run_end table_run))
  ∧ map pr_status_code (returned (run_end table_run))
    = [200; 301; 401; 403; 500]%Z
  ∧ ∀ pr, pr ∈ returned (run_end table_run) ↔
      ∃ i word url response,
        six_words !! i = Some word
        ∧ _build_url (__init__ (py "http://h/app/") six_words 50) word
          = Some url
        ∧ table_client i url = Got response
        ∧ retained_status (status_code response)
        ∧ pr = probe_result (_extract_title no_group same) url response.
Proof.
  split; [apply (@scan_id no_library)|]. split; [by vm_compute|]. split; [by vm_compute|].
  apply (found_iff_interesting no_group same table_client ticking
           (py "http://h/app/") six_words 50 table_run
           (end_state (run_end table_run)) (returned (run_end table_run))).
  - apply (@scan_id no_library).
  - by vm_compute.
Defined.

Lemma errors_never_counted_failing_run :
  scan no_group same failing_client ticking
    (__init__ (py "http://h/app") [py "admin"] 50) failing_run
  ∧ run_requests failing_run = [py "http://h/app/admin"]
  ∧ completed (run_end failing_run) = true
  ∧ returned (run_end failing_run) = []
  ∧ total (stats (end_state (run_end failing_run))) = 1%Z
  ∧ Forall (λ s, errors (stats s) = 0%Z) (run_states failing_run).
Proof.
  split; [apply (@scan_id no_library)|]. repeat (split; [by vm_compute|]).
  apply (errors_never_counted no_group same failing_client ticking
           (py "http://h/app") [py "admin"] 50 failing_run).
  apply (@scan_id no_library).
Defined.

(** C7, as stated, fails: with an empty base URL the run issues its
    request and returns normally. *)
Lemma invalid_base_url_is_accepted :
  completed (run_end no_base_run) = true
  ∧ returned (run_end no_base_run) = []
  ∧ run_requests no_base_run = [py "/admin"].
Proof. by vm_compute. Qed.

Lemma pool_size_and_no_validation_bracket_run :
  let self := __init__ (py "http://h") bracket_words 500 in
  scan no_group same failing_client ticking self bracket_run
  ∧ (0 < 500)%Z
  ∧ threads self = 200%Z
  ∧ run_requests bracket_run = [py "http://h/a"]
  ∧ raised (run_end bracket_run) = Some ValueError
  ∧ ∃ k, k ≤ length bracket_words
      ∧ Forall2 (λ w url, _build_url self w = Some url)
          (take k bracket_words) (run_requests bracket_run)
      ∧ (k < length bracket_words →
         (∃ w, bracket_words !! k = Some w ∧ _build_url self w = None)
         ∧ raised (run_end bracket_run) = Some ValueError).
Proof.
  intros self. split; [apply (@scan_id no_library)|]. split; [lia|].
  split; [done|]. split; [by vm_compute|]. split; [by vm_compute|].
  destruct (pool_size_and_no_validation no_group same failing_client ticking
              (py "http://h") bracket_words 500 bracket_run)
    as (_ & _ & _ & Hpos); [apply (@scan_id no_library)|].
  destruct Hpos as (k & Hk & Hall & Hstop & _); [lia|].
  by exists k.
Defined.

Lemma total_issued_is_len_table :
  scan no_group same table_client ticking
    (__init__ (py "http://h/app/") six_words 50) table_run
  ∧ run_end table_run
    = Completed (end_state (run_end table_run)) (returned (run_end table_run))
  ∧ total (stats (end_state (run_end table_run))) = 6%Z
  ∧ length (run_requests table_run) = 6.
Proof.
  split; [apply (@scan_id no_library)|]. split; [by vm_compute|].
  destruct (total_issued_is_len no_group same table_client ticking
              (py "http://h/app/") six_words 50 table_run
              (end_state (run_end table_run)) (returned (run_end table_run)))
    as (Htotal & Hreq & _); [apply (@scan_id no_library) | by vm_compute |].
  split; [exact Htotal | exact Hreq].
Defined.

Lemma found_counter_is_len_table :
  scan no_group same table_client ticking
    (__init__ (py "http://h/app/") six_words 50) table_run
  ∧ Forall found_is_len (run_states table_run)
  ∧ found (stats (end_state (run_end table_run))) = 5%Z.
Proof.
  split; [apply (@scan_id no_library)|].
  destruct (found_counter_is_len no_group same table_client ticking
              (py "http://h/app/") six_words 50 table_run) as [Hall Hend];
    [apply (@scan_id no_library)|].
  split; [exact Hall|].
  destruct (Hend (end_state (run_end table_run))
              (returned (run_end table_run))) as [_ Hfound];
    [by vm_compute|].
  exact Hfound.
Defined.

End PathProber.

(** ** Rounding of binary64 sums and differences *)

Module FloatRounding.
Import Binary64.
Local Open Scope Z_scope.

Lemma digits2_pos_bounds m :
  2 ^ (Zpos (digits2_pos m) - 1) ≤ Zpos m < 2 ^ Zpos (digits2_pos m).
Proof.
  induction m as [m IH|m IH|]; cbn [digits2_pos].
  - rewrite Pos2Z.inj_succ, Z.pow_succ_r by lia.
    replace (Z.succ (Zpos (digits2_pos m)) - 1) with (Z.succ (Zpos (digits2_pos m) - 1)) by lia.
    rewrite Z.pow_succ_r by lia. lia.
  - rewrite Pos2Z.inj_succ, Z.pow_succ_r by lia.
    replace (Z.succ (Zpos (digits2_pos m)) - 1) with (Z.succ (Zpos (digits2_pos m) - 1)) by lia.
    rewrite Z.pow_succ_r by lia. lia.
  - done.
Qed.

Lemma digits2_pos_log2 m : Zpos (digits2_pos m) = Z.log2 (Zpos m) + 1.
Proof.
  pose proof (digits2_pos_bounds m) as H.
  assert (Z.log2 (Zpos m) = Zpos (digits2_pos m) - 1); [|lia].
  apply Z.log2_unique; [lia|].
  replace (Z.succ (Zpos (digits2_pos m) - 1)) with (Zpos (digits2_pos m))
    by lia.
  exact H.
Qed.

Lemma digits2_pos_unique m d :
  2 ^ (d - 1) ≤ Zpos m < 2 ^ d → Zpos (digits2_pos m) = d.
Proof.
  intros H. pose proof (digits2_pos_bounds m) as H'.
  set (d' := Zpos (digits2_pos m)) in *.
  destruct (Z.lt_trichotomy d' d) as [Hlt|[Heq|Hgt]]; [|done|].
  - pose proof (Z.pow_le_mono_r 2 d' (d - 1)). lia.
  - pose proof (Z.pow_le_mono_r 2 d (d' - 1)). lia.
Qed.

Lemma iter_xO m d : Zpos (Pos.iter xO m d) = Zpos m * 2 ^ Zpos d.
Proof.
  induction d as [|d IH] using Pos.peano_ind.
  - simpl. lia.
  - rewrite Pos.iter_succ, Pos2Z.inj_succ, Z.pow_succ_r by lia.
    rewrite Pos2Z.inj_xO, IH. lia.
Qed.

Lemma iter_pos_invariant {A} (f : A → A) (P : Z → A → Prop) :
  (∀ k x, 0 ≤ k → P k x → P (k + 1) (f x)) →
  ∀ p k x, 0 ≤ k → P k x → P (k + Zpos p) (SpecFloat.iter_pos f p x).
Proof.
  intros Hstep. induction p as [p IH|p IH|]; intros k x Hk Hx; cbn [SpecFloat.iter_pos].
  - replace (k + Zpos p~1) with (k + 1 + Zpos p + Zpos p) by lia.
    apply IH; [lia|]. apply IH; [lia|]. by apply Hstep.
  - replace (k + Zpos p~0) with (k + Zpos p + Zpos p) by lia.
    apply IH; [lia|]. by apply IH.
  - by apply Hstep.
Qed.

Lemma shifted_step m k mrs :
  0 ≤ k → shifted m k mrs → shifted m (k + 1) (shr_1 mrs).
Proof.
  intros Hk (t & Ht & E & Hs & Hm). destruct mrs as [m' r s].
  cbn [shr_m shr_r shr_s] in *.
  exists ((if r then 2 ^ k else 0) + t).
  assert (Hp : 0 < 2 ^ k) by (apply Z.pow_pos_nonneg; lia).
  rewrite !Z.pow_add_r, !Z.pow_1_r in * by lia.
  assert (Hsticky : orb r s = negb ((if r then 2 ^ k else 0) + t =? 0)).
  { subst s. destruct r; simpl.
    - symmetry. apply negb_true_iff, Z.eqb_neq. lia.
    - done. }
  destruct m' as [|[p|p|]|p]; [| | | |lia]; cbn [shr_1 shr_m shr_r shr_s];
    (split; [destruct r; lia|]); (split; [|split; [exact Hsticky|lia]]).
  - destruct r; lia.
  - rewrite (Pos2Z.inj_xI p) in E. destruct r; lia.
  - rewrite (Pos2Z.inj_xO p) in E. destruct r; lia.
  - destruct r; lia.
Qed.

Lemma shr_nearest_even m p :
  0 ≤ m →
  let mrs := SpecFloat.iter_pos shr_1 p (Build_shr_record m false false) in
  round_nearest_even (shr_m mrs) (loc_of_shr_record mrs)
  = nearest_even (Zpos p) m.
Proof.
  intros Hm mrs.
  assert (H : shifted m (0 + Zpos p) mrs).
  { apply (iter_pos_invariant shr_1 (shifted m)); [apply shifted_step|done|].
    exists 0. cbn. lia. }
  rewrite Z.add_0_l in H. destruct H as (t & Ht & E & Hs & Hq).
  destruct mrs as [q r s]. cbn [shr_m shr_r shr_s] in *.
  set (n := Zpos p) in *.
  assert (Hp : 0 < 2 ^ n) by (apply Z.pow_pos_nonneg; lia).
  rewrite Z.pow_add_r, Z.pow_1_r in E by lia.
  set (rem := m - q * 2 ^ n).
  assert (Hrem : 0 ≤ rem < 2 ^ n) by (unfold rem; destruct r; lia).
  assert (Hdiv : m / 2 ^ n = q).
  { symmetry. apply (Z.div_unique m (2 ^ n) q rem); [lia|unfold rem; lia]. }
  assert (Hmod : m mod 2 ^ n = rem).
  { symmetry. apply (Z.mod_unique m (2 ^ n) q rem); [lia|unfold rem; lia]. }
  unfold nearest_even. rewrite Hdiv, Hmod. rewrite <- Z.negb_even.
  subst s. destruct r, (Z.eqb_spec t 0) as [->|Ht0]; cbn [negb loc_of_shr_record round_nearest_even].
  - assert (2 ^ n = 2 * rem) as <- by (unfold rem; lia).
    rewrite Z.ltb_irrefl, Z.eqb_refl. simpl. by destruct (Z.even q).
  - assert (2 ^ n < 2 * rem) as ->%Z.ltb_lt by (unfold rem; lia). done.
  - assert (rem = 0) as -> by (unfold rem; lia).
    destruct (Z.ltb_spec (2 ^ n) (2 * 0)); [lia|].
    destruct (Z.eqb_spec (2 ^ n) (2 * 0)); [lia|]. done.
  - destruct (Z.ltb_spec (2 ^ n) (2 * rem)); [unfold rem in *; lia|].
    destruct (Z.eqb_spec (2 ^ n) (2 * rem)); [unfold rem in *; lia|]. done.
Qed.

Lemma fexp_eq k : fexp prec emax k = Z.max (k - 53) (-1074).
Proof. reflexivity. Qed.

Lemma nearest_even_scale n j m :
  0 ≤ n → 0 ≤ j → nearest_even (n + j) (m * 2 ^ j) = nearest_even n m.
Proof.
  intros Hn Hj. unfold nearest_even.
  assert (Hpn : 0 < 2 ^ n) by (apply Z.pow_pos_nonneg; lia).
  assert (Hpj : 0 < 2 ^ j) by (apply Z.pow_pos_nonneg; lia).
  rewrite Z.pow_add_r by lia.
  rewrite Z.div_mul_cancel_r by lia.
  rewrite Z.mul_mod_distr_r by lia.
  pose proof (Z.mod_pos_bound m (2 ^ n) Hpn) as Hrem.
  set (rem := m mod 2 ^ n) in *. set (q := m / 2 ^ n).
  assert ((2 ^ n * 2 ^ j <? 2 * (rem * 2 ^ j)) = (2 ^ n <? 2 * rem)) as ->.
  { destruct (Z.ltb_spec (2 ^ n) (2 * rem)).
    - apply Z.ltb_lt. nia.
    - apply Z.ltb_ge. nia. }
  assert ((2 ^ n * 2 ^ j =? 2 * (rem * 2 ^ j)) = (2 ^ n =? 2 * rem)) as ->.
  { destruct (Z.eqb_spec (2 ^ n) (2 * rem)).
    - apply Z.eqb_eq. nia.
    - apply Z.eqb_neq. nia. }
  done.
Qed.

Lemma nearest_even_exact j m : 0 ≤ j → nearest_even j (m * 2 ^ j) = m.
Proof.
  intros Hj. rewrite <- (Z.add_0_l j) at 1.
  rewrite nearest_even_scale by lia.
  unfold nearest_even. rewrite Z.pow_0_r, Z.div_1_r, Z.mod_1_r. done.
Qed.

Lemma lost_bits_units m e :
  -1074 ≤ e →
  lost_bits (Zpos m * 2 ^ (e + 1074))
  = Z.max (Zpos (digits2_pos m) + e - 53) (-1074) + 1074.
Proof.
  intros He. unfold lost_bits.
  rewrite Z.log2_mul_pow2, digits2_pos_log2 by lia. lia.
Qed.

Lemma binary_round_aux_units s m e :
  -1074 ≤ e → e ≤ fexp prec emax (Zpos (digits2_pos m) + e) →
  rounds_to s (Zpos m * 2 ^ (e + 1074))
    (binary_round_aux prec emax s (Zpos m) e loc_Exact).
Proof.
  intros He Hfe. rewrite fexp_eq in Hfe.
  pose proof (lost_bits_units m e He) as Hlost.
  pose proof (digits2_pos_bounds m) as Hd.
  unfold binary_round_aux, shr_fexp. cbn [Zdigits2 shr_record_of_loc].
  rewrite !fexp_eq.
  set (d := Zpos (digits2_pos m)) in *.
  set (fe := Z.max (d + e - 53) (-1074)) in *.
  destruct (fe - e) as [|p|p] eqn:En; [| |lia].
  - cbn [shr shr_m loc_of_shr_record round_nearest_even Zdigits2
           shr_record_of_loc].
    rewrite fexp_eq. fold d. fold fe. rewrite En. cbn [shr shr_m].
    destruct (e <=? emax - prec); [|done].
    split; [done|]. split; [|done].
    unfold round. rewrite Hlost.
    replace (fe + 1074) with (e + 1074) by lia.
    by rewrite nearest_even_exact by lia.
  - assert (Hfe' : fe = d + e - 53) by lia.
    assert (Hn : Zpos p = d - 53) by lia.
    cbn [shr]. pose proof (shr_nearest_even (Zpos m) p) as Hne.
    cbn zeta in Hne. rewrite Hne by lia. clear Hne.
    replace (e + Zpos p) with fe by lia.
    set (n := Zpos p) in *.
    assert (Hpn : 0 < 2 ^ n) by (apply Z.pow_pos_nonneg; lia).
    assert (Hq : 2 ^ 52 ≤ Zpos m / 2 ^ n < 2 ^ 53).
    { replace d with (53 + n) in Hd by lia.
      replace (53 + n - 1) with (52 + n) in Hd by lia.
      rewrite !Z.pow_add_r in Hd by lia. split.
      - apply Z.div_le_lower_bound; lia.
      - apply Z.div_lt_upper_bound; lia. }
    assert (Hround : round (Zpos m * 2 ^ (e + 1074))
                     = nearest_even n (Zpos m) * 2 ^ (fe + 1074)).
    { unfold round. rewrite Hlost.
      replace (fe + 1074) with (n + (e + 1074)) by lia.
      by rewrite nearest_even_scale by lia. }
    assert (Hm1 : 2 ^ 52 ≤ nearest_even n (Zpos m) ≤ 2 ^ 53).
    { unfold nearest_even. destruct (_ || _); lia. }
    destruct (nearest_even n (Zpos m)) as [|m1|m1] eqn:Em1; [lia| |lia].
    unfold shr_fexp. cbn [Zdigits2 shr_record_of_loc]. rewrite fexp_eq.
    destruct (Z.eq_dec (Zpos m1) (2 ^ 53)) as [E53|N53].
    + assert (m1 = 9007199254740992%positive) as -> by (vm_compute in E53; congruence).
      change (fexp prec emax) with (fexp prec emax).
      replace (Z.max (Zpos (digits2_pos 9007199254740992) + fe - 53) (-1074) - fe) with 1
        by (change (Zpos (digits2_pos 9007199254740992)) with 54; lia).
      cbn [shr SpecFloat.iter_pos shr_1 shr_m].
      destruct (fe + 1 <=? emax - prec); [|done].
      split; [done|]. split; [|lia]. rewrite Hround.
      replace (fe + 1 + 1074) with (1 + (fe + 1074)) by lia.
      rewrite Z.pow_add_r by lia. lia.
    + assert (Zpos (digits2_pos m1) = 53) as ->.
      { apply digits2_pos_unique. change (53 - 1) with 52. lia. }
      replace (Z.max (53 + fe - 53) (-1074) - fe) with 0 by lia.
      cbn [shr shr_m].
      destruct (fe <=? emax - prec); [|done].
      split; [done|]. split; [by rewrite Hround|lia].
Qed.

(** [binary_round] rounds the units of [m * 2^e]. *)
Lemma binary_round_units s m e :
  -1074 ≤ e →
  rounds_to s (Zpos m * 2 ^ (e + 1074)) (binary_round prec emax s m e).
Proof.
  intros He. unfold binary_round, shl_align. rewrite fexp_eq.
  set (d := Zpos (digits2_pos m)).
  set (fe := Z.max (d + e - 53) (-1074)).
  destruct (fe - e) as [|p|p] eqn:En.
  - apply binary_round_aux_units; [done|]. rewrite fexp_eq. fold d. lia.
  - apply binary_round_aux_units; [done|]. rewrite fexp_eq. fold d. lia.
  - assert (Hd : Zpos (digits2_pos (Pos.iter xO m p)) = d + Zpos p).
    { apply digits2_pos_unique. rewrite iter_xO.
      pose proof (digits2_pos_bounds m) as H. fold d in H.
      replace (d + Zpos p - 1) with (d - 1 + Zpos p) by lia.
      assert (0 < d) by (unfold d; lia).
      rewrite !Z.pow_add_r by lia.
      assert (0 < 2 ^ Zpos p) by (apply Z.pow_pos_nonneg; lia). nia. }
    replace (Zpos m * 2 ^ (e + 1074))
      with (Zpos (Pos.iter xO m p) * 2 ^ (fe + 1074)).
    + apply binary_round_aux_units; [lia|]. rewrite fexp_eq, Hd. lia.
    + assert (-1074 ≤ fe) by (unfold fe; lia).
      rewrite iter_xO. replace (e + 1074) with (Zpos p + (fe + 1074)) by lia.
      rewrite (Z.pow_add_r 2 (Zpos p) (fe + 1074)) by lia. ring.
Qed.

(** *** Addition and subtraction *)

Lemma valid_finite s m e :
  valid_binary (S754_finite s m e) = true →
  Z.max (Zpos (digits2_pos m) + e - 53) (-1074) = e ∧ e ≤ 971.
Proof.
  unfold SpecFloat.valid_binary, bounded, canonical_mantissa.
  rewrite fexp_eq. intros [H1 H2]%andb_true_iff.
  apply Z.eqb_eq in H1. apply Z.leb_le in H2. done.
Qed.

Lemma valid_mantissa s m e :
  valid_binary (S754_finite s m e) = true →
  -1074 ≤ e ≤ 971 ∧ Zpos m < 2 ^ 53 ∧ (-1074 < e → 2 ^ 52 ≤ Zpos m).
Proof.
  intros [H1 H2]%valid_finite. pose proof (digits2_pos_bounds m) as Hd.
  set (d := Zpos (digits2_pos m)) in *.
  split; [lia|]. split.
  - pose proof (Z.pow_le_mono_r 2 d 53). lia.
  - intros He. assert (Hd53 : d = 53) by lia. rewrite Hd53 in Hd.
    change (53 - 1) with 52 in Hd. lia.
Qed.

Lemma round_units s m e :
  valid_binary (S754_finite s m e) = true →
  round (Zpos m * 2 ^ (e + 1074)) = Zpos m * 2 ^ (e + 1074).
Proof.
  intros [H1 H2]%valid_finite. unfold round.
  rewrite lost_bits_units, H1 by lia. by rewrite nearest_even_exact by lia.
Qed.

Lemma round_0 : round 0 = 0.
Proof. reflexivity. Qed.

Lemma rounded_valid x :
  valid_binary x = true → finite_float x = true → rounded (units x) x.
Proof.
  destruct x as [s| | |s m e]; try done; intros Hv _.
  cbn [rounded]. cbn [units]. pose proof (round_units s m e Hv) as Hr.
  assert (0 < Zpos m * 2 ^ (e + 1074)).
  { apply Z.mul_pos_pos; [done|]. apply Z.pow_pos_nonneg; [done|].
    apply valid_mantissa in Hv. lia. }
  destruct s; cbn [cond_Zopp].
  - rewrite Z.sgn_neg, Z.abs_neq, Z.opp_involutive, Hr by lia. lia.
  - rewrite Z.sgn_pos, Z.abs_eq, Hr by lia. lia.
Qed.

Lemma binary_normalize_units m e :
  -1074 ≤ e →
  rounded (m * 2 ^ (e + 1074)) (binary_normalize prec emax m e false).
Proof.
  intros He.
  assert (Hp : 0 < 2 ^ (e + 1074)) by (apply Z.pow_pos_nonneg; lia).
  destruct m as [|m|m]; cbn [binary_normalize].
  - done.
  - pose proof (binary_round_units false m e He) as H.
    destruct (binary_round prec emax false m e) as [| s| |s m' e']; try done;
      cbn [rounds_to rounded units] in *.
    + subst s. split; [lia|]. symmetry. apply Z.ltb_ge. lia.
    + destruct H as (-> & H & _). cbn [cond_Zopp].
      rewrite Z.sgn_pos, Z.abs_eq by lia. lia.
  - pose proof (binary_round_units true m e He) as H.
    assert (Hneg : Zneg m * 2 ^ (e + 1074) < 0) by lia.
    assert (Habs : Z.abs (Zneg m * 2 ^ (e + 1074)) = Zpos m * 2 ^ (e + 1074))
      by lia.
    destruct (binary_round prec emax true m e) as [| s| |s m' e']; try done;
      cbn [rounds_to rounded units] in *.
    + subst s. split; [lia|]. symmetry. apply Z.ltb_lt. lia.
    + destruct H as (-> & H & _). cbn [cond_Zopp].
      rewrite Z.sgn_neg, Habs by lia. lia.
Qed.

Lemma shl_align_units m e e' :
  e' ≤ e → -1074 ≤ e' →
  Zpos (fst (shl_align m e e')) * 2 ^ (e' + 1074) = Zpos m * 2 ^ (e + 1074).
Proof.
  intros He He'. unfold shl_align.
  destruct (e' - e) as [|p|p] eqn:E; cbn [fst].
  - by replace e' with e by lia.
  - lia.
  - rewrite iter_xO. replace (e + 1074) with (Zpos p + (e' + 1074)) by lia.
    rewrite (Z.pow_add_r 2 (Zpos p) (e' + 1074)) by lia. ring.
Qed.

Lemma cond_Zopp_mul s a b : cond_Zopp s a * b = cond_Zopp s (a * b).
Proof. destruct s; cbn [cond_Zopp]; lia. Qed.

(** The sum of two finite floats is their exact sum, rounded. *)
Lemma SFadd_units x y :
  valid_binary x = true → valid_binary y = true →
  finite_float x = true → finite_float y = true →
  rounded (units x + units y) (SF64add x y).
Proof.
  destruct x as [sx| | |sx mx ex], y as [sy| | |sy my ey]; try done;
    intros Hx Hy _ _; unfold SF64add; cbn [SFadd].
  - by destruct sx, sy.
  - by apply (rounded_valid (S754_finite sy my ey)).
  - rewrite Z.add_0_r. by apply (rounded_valid (S754_finite sx mx ex)).
  - apply valid_mantissa in Hx as ([Hx _] & _).
    apply valid_mantissa in Hy as ([Hy _] & _).
    set (ez := Z.min ex ey).
    pose proof (shl_align_units mx ex ez) as Ex.
    pose proof (shl_align_units my ey ez) as Ey.
    cbn [units]. rewrite <- Ex, <- Ey by lia.
    rewrite <- !cond_Zopp_mul, <- Z.mul_add_distr_r.
    apply binary_normalize_units. lia.
Qed.

(** The difference of two finite floats is their exact difference,
    rounded. *)
Lemma SFsub_units x y :
  valid_binary x = true → valid_binary y = true →
  finite_float x = true → finite_float y = true →
  rounded (units x - units y) (SF64sub x y).
Proof.
  destruct x as [sx| | |sx mx ex], y as [sy| | |sy my ey]; try done;
    intros Hx Hy _ _; unfold SF64sub; cbn [SFsub].
  - by destruct sx, sy.
  - pose proof (rounded_valid (S754_finite (negb sy) my ey) Hy eq_refl) as H.
    cbn [rounded units] in *. set (v := Zpos my * 2 ^ (ey + 1074)) in *.
    destruct sy; cbn [negb cond_Zopp] in *.
    + by replace (0 - - v) with v by lia.
    + by replace (0 - v) with (- v) by lia.
  - rewrite Z.sub_0_r. by apply (rounded_valid (S754_finite sx mx ex)).
  - apply valid_mantissa in Hx as ([Hx _] & _).
    apply valid_mantissa in Hy as ([Hy _] & _).
    set (ez := Z.min ex ey).
    pose proof (shl_align_units mx ex ez) as Ex.
    pose proof (shl_align_units my ey ez) as Ey.
    cbn [units]. rewrite <- Ex, <- Ey by lia.
    rewrite <- !cond_Zopp_mul, <- Z.mul_sub_distr_r.
    apply binary_normalize_units. lia.
Qed.

(** *** Comparison *)

Lemma units_lt_exponent sx mx ex sy my ey :
  valid_binary (S754_finite sx mx ex) = true →
  valid_binary (S754_finite sy my ey) = true →
  ex < ey → Zpos mx * 2 ^ (ex + 1074) < Zpos my * 2 ^ (ey + 1074).
Proof.
  intros (Hex & Hmx & _)%valid_mantissa (Hey & _ & Hmy)%valid_mantissa Hlt.
  specialize (Hmy ltac:(lia)).
  replace (ey + 1074) with (ey - ex - 1 + (1 + (ex + 1074))) by lia.
  rewrite (Z.pow_add_r 2 (ey - ex - 1)), (Z.pow_add_r 2 1) by lia.
  assert (0 < 2 ^ (ex + 1074)) by (apply Z.pow_pos_nonneg; lia).
  assert (0 < 2 ^ (ey - ex - 1)) by (apply Z.pow_pos_nonneg; lia).
  set (a := 2 ^ (ex + 1074)) in *. set (b := 2 ^ (ey - ex - 1)) in *.
  change (2 ^ 1) with 2. change (2 ^ 53) with (2 * 2 ^ 52) in Hmx.
  set (c := 2 ^ 52) in *.
  apply Z.lt_le_trans with (2 * c * a); [nia|].
  apply Z.le_trans with (c * (b * (2 * a))); [nia|].
  apply Z.mul_le_mono_nonneg_r; nia.
Qed.

Lemma mul_compare_r a b c : 0 < c → (a * c ?= b * c) = (a ?= b).
Proof.
  intros Hc. destruct (Z.compare_spec a b) as [->|H|H].
  - apply Z.compare_refl.
  - apply Z.compare_lt_iff. nia.
  - apply Z.compare_gt_iff. nia.
Qed.

Lemma SFcompare_units x y :
  valid_binary x = true → valid_binary y = true →
  finite_float x = true → finite_float y = true →
  SFcompare x y = Some (units x ?= units y).
Proof.
  destruct x as [sx| | |sx mx ex], y as [sy| | |sy my ey]; try done;
    intros Hx Hy _ _; cbn [SFcompare units].
  - assert (0 < Zpos my * 2 ^ (ey + 1074)).
    { apply Z.mul_pos_pos; [done|]. apply Z.pow_pos_nonneg; [done|].
      apply valid_mantissa in Hy. lia. }
    f_equal. symmetry. destruct sy; cbn [cond_Zopp].
    + apply Z.compare_gt_iff. lia.
    + apply Z.compare_lt_iff. lia.
  - assert (0 < Zpos mx * 2 ^ (ex + 1074)).
    { apply Z.mul_pos_pos; [done|]. apply Z.pow_pos_nonneg; [done|].
      apply valid_mantissa in Hx. lia. }
    f_equal. symmetry. destruct sx; cbn [cond_Zopp].
    + apply Z.compare_lt_iff. lia.
    + apply Z.compare_gt_iff. lia.
  - pose proof (units_lt_exponent sx mx ex sy my ey Hx Hy) as Hlt.
    pose proof (units_lt_exponent sy my ey sx mx ex Hy Hx) as Hgt.
    assert (Hpx : 0 < 2 ^ (ex + 1074)).
    { apply Z.pow_pos_nonneg; [done|]. apply valid_mantissa in Hx. lia. }
    assert (Hpy : 0 < 2 ^ (ey + 1074)).
    { apply Z.pow_pos_nonneg; [done|]. apply valid_mantissa in Hy. lia. }
    f_equal. symmetry.
    destruct sx, sy; cbn [cond_Zopp].
    + rewrite Z.compare_opp. destruct (Z.compare_spec ex ey) as [->|He|He].
      * rewrite mul_compare_r by done.
        change (Zpos my ?= Zpos mx) with (my ?= mx)%positive.
        exact (Pos.compare_antisym mx my).
      * apply Z.compare_gt_iff. lia.
      * apply Z.compare_lt_iff. lia.
    + apply Z.compare_lt_iff. lia.
    + apply Z.compare_gt_iff. lia.
    + destruct (Z.compare_spec ex ey) as [->|He|He].
      * by rewrite mul_compare_r by done.
      * apply Z.compare_lt_iff. lia.
      * apply Z.compare_gt_iff. lia.
Qed.

Lemma SFltb_units x y :
  valid_binary x = true → valid_binary y = true →
  finite_float x = true → finite_float y = true →
  SFltb x y = (units x <? units y).
Proof.
  intros Hx Hy Fx Fy. unfold SFltb, Z.ltb.
  by rewrite SFcompare_units.
Qed.

(** *** Rounding to nearest *)

(** The rounded quotient is within half a unit of the exact one, and
    even when the exact one lies half a unit above it. *)
Lemma nearest_even_spec n m :
  0 ≤ n →
  - 2 ^ n ≤ 2 * (nearest_even n m * 2 ^ n - m) ≤ 2 ^ n
  ∧ (2 * (m - nearest_even n m * 2 ^ n) = 2 ^ n →
     Z.even (nearest_even n m) = true).
Proof.
  intros Hn. unfold nearest_even.
  assert (Hp : 0 < 2 ^ n) by (apply Z.pow_pos_nonneg; lia).
  pose proof (Z.div_mod m (2 ^ n) ltac:(lia)) as E.
  pose proof (Z.mod_pos_bound m (2 ^ n) Hp) as Hrem.
  set (q := m / 2 ^ n) in *. set (rem := m mod 2 ^ n) in *.
  destruct (Z.ltb_spec (2 ^ n) (2 * rem)) as [Hlt|Hge]; cbn [orb].
  - split; [lia|]. intros ?. lia.
  - destruct (Z.eqb_spec (2 ^ n) (2 * rem)) as [Heq|Hne]; cbn [andb].
    + destruct (Z.odd q) eqn:Hodd.
      * split; [lia|]. intros ?. lia.
      * split; [lia|]. intros _. by rewrite <- Z.negb_odd, Hodd.
    + split; [lia|]. intros ?. lia.
Qed.

(** A multiple [c * 2^n] that the exact quotient exceeds, or lies less
    than half a unit below, or exactly half a unit below with [c] even,
    is a lower bound of the rounded quotient. *)
Lemma nearest_even_ge n m c :
  0 ≤ n →
  2 * (c * 2 ^ n - m) < 2 ^ n
  ∨ 2 * (c * 2 ^ n - m) ≤ 2 ^ n ∧ Z.even c = true →
  c ≤ nearest_even n m.
Proof.
  intros Hn Hc. destruct (nearest_even_spec n m Hn) as [[Hnear _] Htie].
  assert (Hp : 0 < 2 ^ n) by (apply Z.pow_pos_nonneg; lia).
  set (N := nearest_even n m) in *. set (P := 2 ^ n) in *.
  destruct (Z.le_gt_cases c N) as [|Hlt]; [done|exfalso].
  assert (Hmul : 0 ≤ (c - 1 - N) * P) by (apply Z.mul_nonneg_nonneg; lia).
  destruct Hc as [Hc|[Hc Heven]]; [lia|].
  assert (HN : N = c - 1) by nia.
  assert (Z.even N = true) as [a Ha]%Z.even_spec by (apply Htie; nia).
  apply Z.even_spec in Heven as [b Hb]. lia.
Qed.

Lemma lost_bits_nonneg x : 0 ≤ lost_bits x.
Proof. unfold lost_bits. lia. Qed.

Lemma lost_bits_le x c k :
  0 < x → 0 ≤ k → 0 < c < 2 ^ 53 → x ≤ c * 2 ^ k → lost_bits x ≤ k.
Proof.
  intros Hx Hk Hc Hle. unfold lost_bits.
  pose proof (Z.log2_le_mono x (c * 2 ^ k) Hle) as H.
  rewrite Z.log2_mul_pow2 in H by lia.
  assert (Z.log2 c < 53) by (apply Z.log2_lt_pow2; lia). lia.
Qed.

Lemma lost_bits_ge x j : 0 ≤ j → 2 ^ (j + 52) ≤ x → j ≤ lost_bits x.
Proof.
  intros Hj Hle. unfold lost_bits.
  assert (0 < 2 ^ (j + 52)) by (apply Z.pow_pos_nonneg; lia).
  assert (j + 52 ≤ Z.log2 x) by (apply Z.log2_le_pow2; lia). lia.
Qed.

(** Rounding is above every binary64 number that the exact value is
    above. *)
Lemma round_lower x c k :
  0 < c < 2 ^ 53 → 0 ≤ k → c * 2 ^ k ≤ x → c * 2 ^ k ≤ round x.
Proof.
  intros Hc Hk Hle. unfold round.
  assert (Hpk : 0 < 2 ^ k) by (apply Z.pow_pos_nonneg; lia).
  assert (Hx : 0 < x) by nia.
  pose proof (lost_bits_nonneg x) as Hs. set (s := lost_bits x) in *.
  assert (Hps : 0 < 2 ^ s) by (apply Z.pow_pos_nonneg; lia).
  destruct (Z.le_gt_cases s k) as [Hsk|Hsk].
  - assert (E : c * 2 ^ k = c * 2 ^ (k - s) * 2 ^ s).
    { rewrite <- Z.mul_assoc, <- Z.pow_add_r by lia. do 2 f_equal. lia. }
    rewrite E in *. apply Z.mul_le_mono_nonneg_r; [lia|].
    apply nearest_even_ge; [done|]. left. lia.
  - assert (Hlog : s = Z.log2 x - 52) by (unfold s, lost_bits in *; lia).
    destruct (Z.log2_spec x Hx) as [Hlow _].
    replace (Z.log2 x) with (52 + s) in Hlow by lia.
    rewrite Z.pow_add_r in Hlow by lia.
    apply Z.le_trans with (2 ^ 52 * 2 ^ s).
    + replace s with (s - k - 1 + (1 + k)) by lia.
      rewrite (Z.pow_add_r 2 (s - k - 1)), (Z.pow_add_r 2 1) by lia.
      assert (0 < 2 ^ (s - k - 1)) by (apply Z.pow_pos_nonneg; lia).
      change (2 ^ 1) with 2. change (2 ^ 53) with (2 * 2 ^ 52) in Hc.
      set (a := 2 ^ 52) in *. set (b := 2 ^ (s - k - 1)) in *.
      set (d := 2 ^ k) in *.
      apply Z.le_trans with (a * (2 * d)); [nia|].
      apply Z.mul_le_mono_nonneg_l; nia.
    + apply Z.mul_le_mono_nonneg_r; [lia|].
      apply nearest_even_ge; [done|]. left. lia.
Qed.

(** Rounding keeps the multiples of a power of two. *)
Lemma round_divide x j : 0 ≤ j → (2 ^ j | x) → (2 ^ j | round x).
Proof.
  intros Hj [a ->]. unfold round.
  pose proof (lost_bits_nonneg (a * 2 ^ j)) as Hs.
  set (s := lost_bits (a * 2 ^ j)) in *.
  destruct (Z.le_gt_cases j s) as [Hjs|Hjs].
  - exists (nearest_even s (a * 2 ^ j) * 2 ^ (s - j)).
    rewrite <- Z.mul_assoc, <- Z.pow_add_r by lia. do 2 f_equal. lia.
  - replace (a * 2 ^ j) with (a * 2 ^ (j - s) * 2 ^ s).
    + rewrite nearest_even_exact by lia. exists a.
      rewrite <- Z.mul_assoc, <- Z.pow_add_r by lia. do 2 f_equal. lia.
    + rewrite <- Z.mul_assoc, <- Z.pow_add_r by lia. do 2 f_equal. lia.
Qed.

(** *** The two roundings of the timing strategy *)

Lemma powers_of_unit :
  let u := 2 ^ 1023 in
  0 < u ∧ 2 ^ 1024 = 2 * u ∧ 2 ^ 1025 = 4 * u
  ∧ five = 5 * 2 ^ 51 * u ∧ 2 ^ (1024 + 52) = 2 ^ 53 * u.
Proof.
  intros u. split; [by apply Z.pow_pos_nonneg|].
  unfold five.
  change 1024 with (1 + 1023). change 1025 with (2 + 1023).
  change 1074 with (51 + 1023). change (1 + 1023 + 52) with (53 + 1023).
  rewrite !Z.pow_add_r by lia. fold u. lia.
Qed.

(** An exact value more than [2^-51] above 5 rounds above 5. *)
Lemma round_above_five x : five + 2 ^ 1023 < x → five < round x.
Proof.
  intros Hx. destruct powers_of_unit as (Hu & E1024 & _ & Efive & E1076).
  destruct (Z.le_gt_cases ((5 * 2 ^ 50 + 1) * 2 ^ 1024) x) as [Hle|Hlt].
  - apply (round_lower x (5 * 2 ^ 50 + 1) 1024) in Hle; [|lia|lia].
    rewrite E1024, Efive in *. lia.
  - assert (Hs : lost_bits x = 1024).
    { apply Z.le_antisymm.
      - apply (lost_bits_le x (5 * 2 ^ 50 + 1)); [|lia|lia|lia].
        rewrite Efive in Hx. lia.
      - apply lost_bits_ge; [lia|]. rewrite E1076, Efive in *. lia. }
    unfold round. rewrite Hs.
    assert (5 * 2 ^ 50 + 1 ≤ nearest_even 1024 x) as Hn.
    { apply nearest_even_ge; [lia|]. left. rewrite E1024, Efive in *. lia. }
    rewrite E1024, Efive in *. nia.
Qed.

(** When a clock difference [r], a multiple of [2^-49], exceeds the
    rounded sum of a baseline [b] and 5, the exact difference of [r] and
    [b] is more than [2^-51] above 5. *)
Lemma guard_delay b r c k a :
  0 ≤ b → 0 < c < 2 ^ 53 → 0 ≤ k → r = c * 2 ^ k → r = a * 2 ^ 1025 →
  round (b + five) < r → five + 2 ^ 1023 < r - b.
Proof.
  intros Hb Hc Hk Er Ea Hguard.
  destruct powers_of_unit as (Hu & E1024 & E1025 & Efive & E1076).
  destruct (Z.le_gt_cases (r - b) (five + 2 ^ 1023)) as [Hle|]; [|done].
  exfalso. set (x := b + five) in *.
  assert (Hfive : five ≤ round x).
  { apply (round_lower x 5 1074); unfold x, five; lia. }
  destruct (Z.le_gt_cases r x) as [Hrx|Hxr].
  { subst r. apply (round_lower x c k) in Hrx; lia. }
  pose proof (lost_bits_nonneg x) as Hs0.
  assert (Hsk : lost_bits x ≤ k).
  { apply (lost_bits_le x c); [|lia|lia|lia]. unfold x. rewrite Efive. lia. }
  assert (Hs : 1024 ≤ lost_bits x).
  { apply lost_bits_ge; [lia|]. rewrite E1076. unfold x in *.
    rewrite Efive in *. lia. }
  unfold round in Hguard. set (s := lost_bits x) in *.
  assert (Hps : 0 < 2 ^ s) by (apply Z.pow_pos_nonneg; lia).
  destruct (Z.eq_dec s 1024) as [E|N].
  - rewrite E in *.
    assert (2 * a ≤ nearest_even 1024 x) as Hn.
    { apply nearest_even_ge; [lia|]. right. split.
      - rewrite E1024, E1025 in *. lia.
      - apply Z.even_spec. by exists a. }
    rewrite E1024, E1025 in *. nia.
  - assert (E : r = c * 2 ^ (k - s) * 2 ^ s).
    { rewrite Er, <- Z.mul_assoc, <- Z.pow_add_r by lia. do 2 f_equal. lia. }
    assert (c * 2 ^ (k - s) ≤ nearest_even s x) as Hn.
    { apply nearest_even_ge; [lia|]. left. rewrite <- E.
      assert (2 ^ 1025 ≤ 2 ^ s) by (apply Z.pow_le_mono_r; lia).
      rewrite E1025 in *. lia. }
    rewrite E in Hguard. nia.
Qed.

(** *** The guard and the delay, on floats *)

Lemma units_five : units (Prim2SF 5) = five.
Proof.
  change (Prim2SF 5) with (S754_finite false 5629499534213120 (-50)).
  cbn [units cond_Zopp]. unfold five. change (-50 + 1074) with 1024.
  change 1074 with (50 + 1024). rewrite Z.pow_add_r by lia.
  change 5629499534213120 with (5 * 2 ^ 50). lia.
Qed.

Lemma leb_zero x :
  SFleb (Prim2SF 0) x = true →
  x = S754_infinity false ∨ finite_float x = true ∧ 0 ≤ units x.
Proof.
  change (Prim2SF 0) with (S754_zero false).
  destruct x as [s|[|]| |[|] m e]; try done; intros _; try by left.
  - right. done.
  - right. split; [done|]. cbn [units cond_Zopp].
    apply Z.mul_nonneg_nonneg; [done|]. apply Z.pow_nonneg. lia.
Qed.

Lemma leb_eight x :
  SFleb (Prim2SF 8) x = true →
  x = S754_infinity false ∨ finite_float x = true ∧ (2 ^ 1025 | units x).
Proof.
  change (Prim2SF 8) with (S754_finite false 4503599627370496 (-49)).
  destruct x as [s|[|]| |[|] m e]; try done; intros H; try by left.
  right. split; [done|]. cbn [units cond_Zopp].
  assert (-49 ≤ e) as He.
  { unfold SFleb in H. cbn [SFcompare] in H.
    destruct (Z.compare_spec (-49) e); try lia; done. }
  exists (Zpos m * 2 ^ (e + 49)).
  rewrite <- Z.mul_assoc, <- Z.pow_add_r by lia. do 2 f_equal. lia.
Qed.

Lemma SFltb_nan x : SFltb x S754_nan = false.
Proof. by destruct x. Qed.

Lemma SFltb_minus_infinity x : SFltb x (S754_infinity true) = false.
Proof. by destruct x as [|[|]| |]. Qed.

Lemma SFltb_from_infinity x :
  x ≠ S754_infinity true → SFltb (S754_infinity false) x = false.
Proof. by destruct x as [|[|]| |]. Qed.

Lemma rounded_cases x r :
  rounded x r →
  finite_float r = true ∧ units r = Z.sgn x * round (Z.abs x)
  ∨ r = S754_infinity (x <? 0) ∧ x ≠ 0.
Proof. destruct r as [| | |]; try done; [by left|intros [? ->]; by right|by left]. Qed.

Lemma units_positive r :
  valid_binary r = true → finite_float r = true → 0 < units r →
  ∃ c k, 0 < c < 2 ^ 53 ∧ 0 ≤ k ∧ units r = c * 2 ^ k.
Proof.
  destruct r as [| | |[|] m e]; try done; cbn [units cond_Zopp];
    intros (He & Hm & _)%valid_mantissa _ Hpos.
  - lia.
  - exists (Zpos m), (e + 1074). split; [lia|]. split; [lia|done].
Qed.

(** With a baseline that is not negative and clock readings of 8 s or
    more, a response time above the sum of baseline and 5 leaves a delay
    above 5. *)
Lemma SF_delay_above_five b s e :
  valid_binary b = true → valid_binary s = true → valid_binary e = true →
  valid_binary (SF64add b (Prim2SF 5)) = true →
  valid_binary (SF64sub e s) = true →
  valid_binary (SF64sub (SF64sub e s) b) = true →
  SFleb (Prim2SF 0) b = true →
  SFleb (Prim2SF 8) s = true →
  SFleb (Prim2SF 8) e = true →
  SFltb (SF64add b (Prim2SF 5)) (SF64sub e s) = true →
  SFltb (Prim2SF 5) (SF64sub (SF64sub e s) b) = true.
Proof.
  intros Vb Vs Ve Vg Vr Vd Hb Hs He Hguard.
  assert (V5 : valid_binary (Prim2SF 5) = true) by apply Prim2SF_valid.
  assert (F5 : finite_float (Prim2SF 5) = true) by done.
  assert (Hfive : 0 < five) by (unfold five; lia).
  (* an infinite response time *)
  assert (Hplus : SF64sub e s = S754_infinity false →
            SFltb (Prim2SF 5) (SF64sub (SF64sub e s) b) = true).
  { intros Er. rewrite Er in *.
    destruct (leb_zero b Hb) as [->|[Fb _]].
    - by vm_compute in Hguard.
    - by destruct b. }
  assert (Hminus : SF64sub e s ≠ S754_infinity true).
  { intros Er. by rewrite Er, SFltb_minus_infinity in Hguard. }
  destruct (leb_eight e He) as [->|[Fe De]].
  { destruct (leb_eight s Hs) as [->|[Fs _]].
    - by rewrite SFltb_nan in Hguard.
    - apply Hplus. by destruct s. }
  destruct (leb_eight s Hs) as [->|[Fs Ds]].
  { exfalso. apply Hminus. by destruct e. }
  destruct (rounded_cases _ _ (SFsub_units e s Ve Vs Fe Fs))
    as [[Fr Er]|[Er _]].
  2: { destruct (units e - units s <? 0); [done|by apply Hplus]. }
  clear Hplus.
  (* a finite response time, of a multiple of 2^-49 *)
  set (rt := SF64sub e s) in *.
  assert (Dr : (2 ^ 1025 | units rt)).
  { rewrite Er. apply Z.divide_mul_r, round_divide; [lia|].
    apply Z.divide_abs_r. by apply Z.divide_sub_r. }
  destruct (leb_zero b Hb) as [->|[Fb Hb0]].
  { change (SF64add (S754_infinity false) (Prim2SF 5))
      with (S754_infinity false) in Hguard.
    by rewrite SFltb_from_infinity in Hguard. }
  destruct (rounded_cases _ _ (SFadd_units b (Prim2SF 5) Vb V5 Fb F5))
    as [[Fg Eg]|[Eg _]]; rewrite units_five in *.
  2: { rewrite Eg in Hguard.
       destruct (Z.ltb_spec (units b + five) 0); [lia|].
       by rewrite SFltb_from_infinity in Hguard. }
  rewrite Z.sgn_pos, Z.abs_eq, Z.mul_1_l in Eg by lia.
  rewrite SFltb_units, Eg in Hguard by done. apply Z.ltb_lt in Hguard.
  assert (Hpos : 0 < units rt).
  { pose proof (round_lower (units b + five) 5 1074). unfold five in *.
    lia. }
  destruct (units_positive rt Vr Fr Hpos) as (c & k & Hc & Hk & Ec).
  destruct Dr as [a Ea].
  pose proof (guard_delay (units b) (units rt) c k a Hb0 Hc Hk Ec Ea Hguard)
    as Hdelay.
  assert (Hd : 0 < units rt - units b).
  { destruct powers_of_unit as (? & _). lia. }
  destruct (rounded_cases _ _ (SFsub_units rt b Vr Vb Fr Fb))
    as [[Fd Ed]|[Ed _]].
  - rewrite Z.sgn_pos, Z.abs_eq, Z.mul_1_l in Ed by lia.
    rewrite SFltb_units, units_five, Ed by done.
    apply Z.ltb_lt. by apply round_above_five.
  - rewrite Ed. by destruct (Z.ltb_spec (units rt - units b) 0); [lia|].
Qed.

(** The same, on the floats of the program. *)
Lemma delay_above_five (baseline_time start_time end_time : float) :
  (0 <=? baseline_time)%float = true →
  (8 <=? start_time)%float = true →
  (8 <=? end_time)%float = true →
  (baseline_time + 5 <? end_time - start_time)%float = true →
  (5 <? (end_time - start_time) - baseline_time)%float = true.
Proof.
  rewrite !leb_spec, !ltb_spec, !sub_spec, add_spec.
  apply SF_delay_above_five; try apply Prim2SF_valid.
  - rewrite <- add_spec. apply Prim2SF_valid.
  - rewrite <- sub_spec. apply Prim2SF_valid.
  - rewrite <- !sub_spec. apply Prim2SF_valid.
Qed.

End FloatRounding.

(** ** Injection probes *)

Module InjectionProbes.
Import Http SQLiScanner.

Lemma responses_differ_iff resp1 resp2 baseline :
  _responses_differ_significantly resp1 resp2 baseline = true
  ↔ differ_rule Z.lt resp1 resp2 baseline.
Proof.
  unfold _responses_differ_significantly, differ_rule.
  repeat match goal with
         | |- context [(?a <? ?b)%Z] => destruct (Z.ltb_spec a b)
         | |- context [(?a =? ?b)%Z] => destruct (Z.eqb_spec a b)
         end; simpl; split; try done; try tauto; try lia; intuition lia.
Qed.

(** The middle disjunct never decides: it implies the first one, with
    either reading of "within". *)
Lemma differ_rule_le_lt resp1 resp2 baseline :
  differ_rule Z.le resp1 resp2 baseline
  ↔ differ_rule Z.lt resp1 resp2 baseline.
Proof. unfold differ_rule. lia. Qed.

Section Scan.

Variable client : list Url → Url → Reply.
Variable error_payloads time_payloads : list str.
Variable re_search : str → str → option str.
Variable lower : str → str.

Local Abbreviation get := (get client).
Local Abbreviation error_payload_loop :=
  (error_payload_loop client re_search lower).
Local Abbreviation _detect_sql_error := (_detect_sql_error re_search lower).
Local Abbreviation time_payload_loop := (time_payload_loop client).
Local Abbreviation boolean_param := (boolean_param client).
Local Abbreviation param_loop := SQLiScanner.param_loop.
Local Abbreviation _test_error_based :=
  (_test_error_based client error_payloads re_search lower).
Local Abbreviation _test_time_based := (_test_time_based client time_payloads).
Local Abbreviation _test_boolean_based := (_test_boolean_based client).
Local Abbreviation scan :=
  (scan client error_payloads time_payloads re_search lower).

Lemma logs_ret {A} (a : A) P (Q : A → Prop) : Q a → logs (mret a) P Q.
Proof. intros Ha log. exists []. by rewrite app_nil_r. Qed.

Lemma logs_bind {A B} (m : Run A) (k : A → Run B) P QA (QB : B → Prop) :
  logs m P QA → (∀ a, QA a → logs (k a) P QB) → logs (m ≫= k) P QB.
Proof.
  intros Hm Hk log. destruct (Hm log) as (new1 & E1 & F1 & HQ).
  unfold mbind, run_bind. destruct (m log) as [a log1]. simpl in *. subst log1.
  destruct (Hk a HQ (log ++ new1)) as (new2 & E2 & F2 & HQ2).
  exists (new1 ++ new2). rewrite app_assoc. split; [done|].
  split; [by apply Forall_app|done].
Qed.

Lemma logs_get probe url (P : Request → Prop) :
  P {| req_probe := probe; req_url := url |} → logs (get probe url) P (λ _, True).
Proof. intros HP log. eexists. split; [done|]. by repeat constructor. Qed.

Lemma logs_weaken {A} (m : Run A) (P P' : Request → Prop) (Q Q' : A → Prop) :
  (∀ r, P r → P' r) → (∀ a, Q a → Q' a) → logs m P Q → logs m P' Q'.
Proof.
  intros HP HQ Hm log. destruct (Hm log) as (new & E & F & H).
  exists new. split; [done|]. split; [|by apply HQ].
  eapply Forall_impl; eauto.
Qed.

Lemma logs_param_loop body names P (Q : Finding → Prop) :
  (∀ p, logs (body p) P (λ o, ∀ v, o = Some v → Q v)) →
  logs (param_loop body names) P (Forall Q).
Proof.
  intros Hbody. induction names as [|p names IH]; simpl.
  - by apply logs_ret.
  - eapply logs_bind; [apply Hbody|]. intros o Ho.
    eapply logs_bind; [apply IH|]. intros vs Hvs.
    apply logs_ret. destruct o; [constructor; auto | done].
Qed.



Lemma logs_boolean_param params baseline p :
  logs (boolean_param params baseline p)
       (λ r, is_boolean_probe r = true)
       (λ o, ∀ v, o = Some v →
               is_boolean_finding v = true ∧ finding_confidence v = High).
Proof.
  unfold SQLiScanner.boolean_param.
  eapply logs_bind; [by apply logs_get|]. intros reply1 _.
  destruct (outcome reply1) as [tr| |]; try by apply logs_ret.
  eapply logs_bind; [by apply logs_get|]. intros reply2 _.
  destruct (outcome reply2) as [fr| |]; try by apply logs_ret.
  destruct (_responses_differ_significantly tr fr baseline);
    apply logs_ret; [|done]. by intros v [= <-].
Qed.

(** *** Requests stay in the log *)




(** *** The three strategies, one after the other *)



Lemma logs_test_boolean_based params baseline :
  logs (_test_boolean_based params baseline)
       (λ r, is_boolean_probe r = true)
       (Forall (λ v, is_boolean_finding v = true
                     ∧ finding_confidence v = High)).
Proof. apply logs_param_loop. intros p. apply logs_boolean_param. Qed.


(** *** The boolean strategy *)

(** One parameter is reported exactly when both of its requests are
    answered and the answers differ. *)
Lemma boolean_param_reports params baseline p log :
  is_Some (boolean_param params baseline p log).1 ↔
    ∃ true_response false_response,
      let true_url := WithQuery (set_param params p true_payload) in
      let false_url := WithQuery (set_param params p false_payload) in
      outcome (client (req_url <$> log) true_url) = Got true_response
      ∧ outcome (client ((req_url <$> log) ++ [true_url]) false_url)
        = Got false_response
      ∧ differ_rule Z.lt true_response false_response baseline.
Proof.
  cbv [SQLiScanner.boolean_param ret mbind run_bind mret run_ret
       SQLiScanner.get].
  change (map req_url log) with (req_url <$> log).
  destruct (outcome (client (req_url <$> log) _)) as [tr| |]; cbn beta.
  2,3: split; [by intros [? ?] | by intros (? & ? & ? & _)].
  rewrite map_app. cbn [map req_url].
  change (map req_url log) with (req_url <$> log).
  destruct (outcome (client ((req_url <$> log) ++ _) _)) as [fr| |]; cbn beta.
  2,3: split; [by intros [? ?] | by intros (? & ? & _ & ? & _)].
  destruct (_responses_differ_significantly tr fr baseline) eqn:E; simpl.
  - apply responses_differ_iff in E.
    split; [intros _; by exists tr, fr | by eauto].
  - split; [by intros [? ?]|].
    intros (tr' & fr' & [= <-] & [= <-] & H%responses_differ_iff). congruence.
Qed.

Lemma boolean_param_finding params baseline p log v :
  (boolean_param params baseline p log).1 = Some v →
  is_boolean_finding v = true ∧ finding_parameter v = p
  ∧ finding_confidence v = High.
Proof.
  cbv [SQLiScanner.boolean_param ret mbind run_bind mret run_ret
       SQLiScanner.get].
  destruct (outcome (client _ _)) as [tr| |]; cbn beta; [|done..].
  destruct (outcome (client _ _)) as [fr| |]; cbn beta; [|done..].
  destruct (_responses_differ_significantly tr fr baseline); [|done].
  by intros [= <-].
Qed.

(** The parameter loop over a list in two parts. *)
Lemma param_loop_app body names1 names2 log :
  param_loop body (names1 ++ names2) log
  = let run1 := param_loop body names1 log in
    let run2 := param_loop body names2 run1.2 in
    (run1.1 ++ run2.1, run2.2).
Proof.
  revert log. induction names1 as [|p names1 IH]; intros log.
  - cbn [app SQLiScanner.param_loop]. unfold ret, mret, run_ret. cbn.
    by destruct (param_loop body names2 log).
  - cbn [app SQLiScanner.param_loop].
    unfold ret, mbind, run_bind, mret, run_ret.
    destruct (body p log) as [found log1]. rewrite IH. cbn zeta.
    destruct (param_loop body names1 log1) as [vs1 log2]. cbn [fst snd].
    destruct (param_loop body names2 log2) as [vs2 log3]. cbn [fst snd].
    by destruct found.
Qed.

Lemma param_loop_parameters body names log v :
  (∀ p log v, (body p log).1 = Some v → finding_parameter v = p) →
  v ∈ (param_loop body names log).1 → finding_parameter v ∈ names.
Proof.
  intros Hbody. revert log. induction names as [|p names IH]; intros log.
  - by intros ?%elem_of_nil.
  - cbn [SQLiScanner.param_loop].
    unfold ret, mbind, run_bind, mret, run_ret.
    pose proof (Hbody p log) as Hp.
    destruct (body p log) as [found log1]. specialize (IH log1).
    destruct (param_loop body names log1) as [vs log2]. cbn [fst] in *.
    destruct found as [v0|].
    + intros [->|Hv]%elem_of_cons.
      * rewrite (Hp v0 eq_refl). apply list_elem_of_here.
      * apply list_elem_of_further. by apply IH.
    + intros Hv. apply list_elem_of_further. by apply IH.
Qed.

(** With each name once, the loop reports a name exactly when its body
    does, on the log as the earlier names left it. *)
Lemma param_loop_reports body names log i p :
  (∀ p log v, (body p log).1 = Some v → finding_parameter v = p) →
  NoDup names → names !! i = Some p →
  (∃ v, v ∈ (param_loop body names log).1 ∧ finding_parameter v = p)
  ↔ is_Some (body p (param_loop body (take i names) log).2).1.
Proof.
  intros Hbody Hnodup Hi.
  replace (param_loop body names log)
    with (param_loop body (take i names ++ p :: drop (S i) names) log)
    by (by rewrite take_drop_middle).
  rewrite <- (take_drop_middle names i p Hi) in Hnodup.
  apply NoDup_app in Hnodup as (_ & Hnot & [Hp _]%NoDup_cons).
  rewrite param_loop_app. cbn zeta.
  pose proof (param_loop_parameters body (take i names) log) as Hbefore.
  destruct (param_loop body (take i names) log) as [vs1 log1].
  cbn [fst snd] in *.
  cbn [SQLiScanner.param_loop]. unfold ret, mbind, run_bind, mret, run_ret.
  pose proof (Hbody p log1) as Hfound.
  destruct (body p log1) as [found log2]. cbn [fst] in *.
  pose proof (param_loop_parameters body (drop (S i) names) log2) as Hafter.
  destruct (param_loop body (drop (S i) names) log2) as [vs3 log3].
  cbn [fst snd] in *.
  split.
  - intros (v & Hv & Hpar). apply elem_of_app in Hv as [Hv|Hv].
    + exfalso. apply (Hnot p); [|apply list_elem_of_here].
      rewrite <- Hpar. by apply Hbefore.
    + destruct found as [v0|]; [by eexists|].
      exfalso. apply Hp. rewrite <- Hpar. by apply Hafter.
  - intros [v0 ->]. exists v0. split; [|by apply Hfound].
    apply elem_of_app. right. apply list_elem_of_here.
Qed.

(** C5. The two responses differ significantly exactly when their
    lengths differ by more than 100, or one is within 50 characters of the
    baseline while the other is more than 200 away from it, or their
    status codes differ.  The strategy, which probes the parameters of
    the URL one after the other, reports a parameter exactly when both
    of its requests are answered and the answers so differ, and every
    finding of the strategy carries confidence High.  Against a baseline
    of 1000 characters, answers of 1005 and of 1300 characters give a
    finding with confidence High, from the strategy and from the whole
    scan. *)
Theorem boolean_differential_rule params baseline p log :
  (∀ resp1 resp2 base,
     _responses_differ_significantly resp1 resp2 base = true
     ↔ differ_rule Z.lt resp1 resp2 base)
  ∧ (∀ resp1 resp2 base,
       _responses_differ_significantly resp1 resp2 base = true
       ↔ differ_rule Z.le resp1 resp2 base)
  ∧ (is_Some (boolean_param params baseline p log).1 ↔
       ∃ true_response false_response,
         let true_url := WithQuery (set_param params p true_payload) in
         let false_url := WithQuery (set_param params p false_payload) in
         outcome (client (req_url <$> log) true_url) = Got true_response
         ∧ outcome (client ((req_url <$> log) ++ [true_url]) false_url)
           = Got false_response
         ∧ differ_rule Z.lt true_response false_response baseline)
  ∧ (∀ v, (boolean_param params baseline p log).1 = Some v →
          is_boolean_finding v = true ∧ finding_parameter v = p
          ∧ finding_confidence v = High)
  ∧ (∀ v, v ∈ (_test_boolean_based params baseline log).1 →
          is_boolean_finding v = true ∧ finding_parameter v ∈ params.*1
          ∧ finding_confidence v = High)
  ∧ (NoDup params.*1 → ∀ i, params.*1 !! i = Some p →
     let before :=
       req_url <$> (param_loop (boolean_param params baseline)
                      (take i params.*1) log).2 in
     (∃ v, v ∈ (_test_boolean_based params baseline log).1
           ∧ finding_parameter v = p)
     ↔ ∃ true_response false_response,
         let true_url := WithQuery (set_param params p true_payload) in
         let false_url := WithQuery (set_param params p false_payload) in
         outcome (client before true_url) = Got true_response
         ∧ outcome (client (before ++ [true_url]) false_url)
           = Got false_response
         ∧ differ_rule Z.lt true_response false_response baseline)
  ∧ ((∀ history history' url, client history url = client history' url) →
     NoDup params.*1 → p ∈ params.*1 →
     (∃ v, v ∈ (_test_boolean_based params baseline log).1
           ∧ finding_parameter v = p)
     ↔ ∃ true_response false_response,
         outcome (client [] (WithQuery (set_param params p true_payload)))
         = Got true_response
         ∧ outcome (client [] (WithQuery (set_param params p false_payload)))
           = Got false_response
         ∧ differ_rule Z.lt true_response false_response baseline)
  ∧ (let finding :=
       BooleanBasedBlind (WithQuery [(py "id", [true_payload])]) (py "id")
         true_payload false_payload 1005 1300 295 High in
     let baseline := InjectionExample.page_of_length 1000 0 in
     (SQLiScanner.boolean_param InjectionExample.length_client
        InjectionExample.id_params baseline (py "id") []).1 = Some finding
     ∧ (SQLiScanner._test_boolean_based InjectionExample.length_client
          InjectionExample.id_params baseline []).1 = [finding]
     ∧ (SQLiScanner.scan InjectionExample.length_client [] []
          InjectionExample.no_match InjectionExample.same
          InjectionExample.id_params []).1 = [finding]).
Proof.
  assert (Hbody : ∀ q log' v,
            (boolean_param params baseline q log').1 = Some v →
            finding_parameter v = q).
  { intros q log' v Hv. by apply boolean_param_finding in Hv as (_ & ? & _). }
  split; [apply responses_differ_iff|].
  split; [intros; by rewrite differ_rule_le_lt, responses_differ_iff|].
  split; [apply boolean_param_reports|].
  split; [apply boolean_param_finding|].
  split; [|split; [|split; [|by vm_compute]]].
  - intros v Hv.
    destruct (logs_test_boolean_based params baseline log)
      as (new & _ & _ & Hall).
    eapply Forall_forall in Hall as [? ?]; [|exact Hv].
    split; [done|]. split; [|done].
    by eapply (param_loop_parameters (boolean_param params baseline)).
  - intros Hnodup i Hi before. unfold SQLiScanner._test_boolean_based.
    change (map fst params) with (params.*1).
    rewrite (param_loop_reports _ _ _ i p Hbody Hnodup Hi).
    apply boolean_param_reports.
  - intros Hstateless Hnodup [i Hi]%list_elem_of_lookup.
    unfold SQLiScanner._test_boolean_based.
    change (map fst params) with (params.*1).
    rewrite (param_loop_reports _ _ _ i p Hbody Hnodup Hi).
    rewrite boolean_param_reports. cbn zeta.
    by setoid_rewrite (Hstateless _ []).
Qed.

(** *** The timing strategy *)

(** What the parameter loop reports, its body reported for one of the
    names. *)
Lemma param_loop_elem body names log v :
  v ∈ (param_loop body names log).1 →
  ∃ p log', p ∈ names ∧ (body p log').1 = Some v.
Proof.
  revert log. induction names as [|p names IH]; intros log.
  - by intros ?%elem_of_nil.
  - cbn [SQLiScanner.param_loop].
    unfold ret, mbind, run_bind, mret, run_ret.
    destruct (body p log) as [found log1] eqn:Ebody. specialize (IH log1).
    destruct (param_loop body names log1) as [vs log2]. cbn [fst] in *.
    assert (Hrest : v ∈ vs → ∃ p' log', p' ∈ p :: names
                                       ∧ (body p' log').1 = Some v).
    { intros (p' & log' & ? & ?)%IH. exists p', log'.
      split; [by apply list_elem_of_further|done]. }
    destruct found as [v0|]; [|done].
    intros [->|Hv]%elem_of_cons; [|by apply Hrest].
    exists p, log. split; [apply list_elem_of_here|]. by rewrite Ebody.
Qed.

(** A finding of the payload loop is the request of one of the payloads,
    answered later than the baseline plus 5 s; its confidence is read
    off the delay. *)
Lemma time_payload_loop_finding params bt p payloads log v :
  (time_payload_loop params bt p payloads log).1 = Some v →
  ∃ payload history,
    let url := WithQuery (set_param params p payload) in
    let reply := client history url in
    let response_time := (clock_after reply - clock_before reply)%float in
    let delay := (response_time - bt)%float in
    payload ∈ payloads
    ∧ exceeds_baseline bt reply = true
    ∧ v = TimeBasedBlind url p payload bt response_time delay
            (if PrimFloat.ltb 10 delay then High
             else if PrimFloat.ltb 5 delay then Medium else Low).
Proof.
  revert log. induction payloads as [|payload payloads IH]; intros log;
    [done|].
  assert (Hrest : ∀ log',
            (time_payload_loop params bt p payloads log').1 = Some v →
            ∃ payload' history,
              let url := WithQuery (set_param params p payload') in
              let reply := client history url in
              let response_time :=
                (clock_after reply - clock_before reply)%float in
              let delay := (response_time - bt)%float in
              payload' ∈ payload :: payloads
              ∧ exceeds_baseline bt reply = true
              ∧ v = TimeBasedBlind url p payload' bt response_time delay
                      (if PrimFloat.ltb 10 delay then High
                       else if PrimFloat.ltb 5 delay then Medium else Low)).
  { intros log' (payload' & history & ? & ?)%IH. exists payload', history.
    split; [by apply list_elem_of_further|done]. }
  simpl. unfold ret, mbind, run_bind, mret, run_ret, SQLiScanner.get.
  destruct (outcome (client (map req_url log) _)) as [response| |] eqn:Eo;
    try apply Hrest.
  destruct (PrimFloat.ltb _ _) eqn:E; [|apply Hrest].
  intros [= <-]. exists payload, (map req_url log).
  split; [apply list_elem_of_here|]. split; [|done].
  unfold exceeds_baseline. by rewrite Eo.
Qed.

(** The payload loop reports exactly when the request of one of the
    payloads, issued after those of the payloads before it, is answered
    later than the baseline plus 5 s. *)
Lemma time_payload_loop_reports params bt p payloads log :
  is_Some (time_payload_loop params bt p payloads log).1 ↔
    ∃ j payload,
      let test_url q := WithQuery (set_param params p q) in
      payloads !! j = Some payload
      ∧ exceeds_baseline bt
          (client ((req_url <$> log) ++ (test_url <$> take j payloads))
             (test_url payload)) = true.
Proof.
  revert log. induction payloads as [|payload payloads IH]; intros log.
  { split; [by intros [? ?]|by intros (? & ? & ? & _)]. }
  assert (Hrest : ∀ request,
            exceeds_baseline bt
              (client (req_url <$> log)
                 (WithQuery (set_param params p payload))) = false →
            req_url request = WithQuery (set_param params p payload) →
            is_Some (time_payload_loop params bt p payloads
                       (log ++ [request])).1 ↔
              ∃ j payload',
                let test_url q := WithQuery (set_param params p q) in
                (payload :: payloads) !! j = Some payload'
                ∧ exceeds_baseline bt
                    (client ((req_url <$> log)
                             ++ (test_url <$> take j (payload :: payloads)))
                       (test_url payload')) = true).
  { intros request Hnot Hurl. rewrite IH. cbn zeta.
    rewrite fmap_app. cbn [fmap list_fmap]. rewrite Hurl. split.
    - intros (j & payload' & Hj & Hslow). exists (S j), payload'.
      split; [done|]. cbn [take fmap list_fmap].
      by rewrite <- app_assoc in Hslow.
    - intros ([|j] & payload' & Hj & Hslow).
      + injection Hj as <-. cbn [take fmap list_fmap] in Hslow.
        rewrite app_nil_r in Hslow. congruence.
      + exists j, payload'. split; [done|].
        cbn [take fmap list_fmap] in Hslow. by rewrite <- app_assoc. }
  simpl time_payload_loop.
  unfold ret, mbind, run_bind, mret, run_ret, SQLiScanner.get.
  change (map req_url log) with (req_url <$> log).
  pose proof (Hrest {| req_probe := TimeProbe p payload;
                       req_url := WithQuery (set_param params p payload) |})
    as Hnext.
  unfold exceeds_baseline in Hnext at 1.
  destruct (outcome (client (req_url <$> log) _)) as [response| |] eqn:Eo;
    try by apply Hnext.
  destruct (PrimFloat.ltb _ _) eqn:E; [|by apply Hnext].
  split; [intros _|by eexists].
  exists 0, payload. split; [done|]. cbn [take fmap list_fmap].
  rewrite app_nil_r. unfold exceeds_baseline. by rewrite Eo.
Qed.

(** C4.  Every finding of the timing strategy is the request of one of
    the first 10 time payloads for a parameter of the URL, answered
    later than the baseline plus 5 s between the two readings of the
    clock; its confidence is High when the delay, the response time less
    the baseline, exceeds 10 s, Medium when it exceeds 5 s, and Low
    otherwise.  A parameter is reported exactly when one of these
    requests, issued after the requests before it, is so answered.  With
    a baseline that is not negative and a clock that reads 8 s or more,
    as the seconds since 1970 do, a delay of a finding exceeds 5 s in
    the arithmetic of the floats as well: no finding carries Low.  With
    a baseline of 0.3 s, an answer after 6.5 s gives one finding with
    confidence Medium, one after 11 s gives one with confidence High,
    and one after 5 s gives none. *)
Theorem timing_differential_rule params baseline log :
  let baseline_time := elapsed baseline in
  let payloads := take 10 time_payloads in
  let test_url p payload := WithQuery (set_param params p payload) in
  let result := _test_time_based params baseline log in
  (∀ v, v ∈ result.1 →
     ∃ p payload history,
       let reply := client history (test_url p payload) in
       let response_time :=
         (clock_after reply - clock_before reply)%float in
       let delay := (response_time - baseline_time)%float in
       p ∈ params.*1 ∧ payload ∈ payloads
       ∧ exceeds_baseline baseline_time reply = true
       ∧ v = TimeBasedBlind (test_url p payload) p payload baseline_time
               response_time delay
               (if PrimFloat.ltb 10 delay then High
                else if PrimFloat.ltb 5 delay then Medium else Low))
  ∧ (NoDup params.*1 → ∀ i p, params.*1 !! i = Some p →
     let before :=
       req_url <$> (param_loop
                      (λ q, time_payload_loop params baseline_time q payloads)
                      (take i params.*1) log).2 in
     (∃ v, v ∈ result.1 ∧ finding_parameter v = p)
     ↔ ∃ j payload,
         payloads !! j = Some payload
         ∧ exceeds_baseline baseline_time
             (client (before ++ (test_url p <$> take j payloads))
                (test_url p payload)) = true)
  ∧ ((∀ history history' url, client history url = client history' url) →
     NoDup params.*1 → ∀ p, p ∈ params.*1 →
     (∃ v, v ∈ result.1 ∧ finding_parameter v = p)
     ↔ ∃ payload,
         payload ∈ payloads
         ∧ exceeds_baseline baseline_time (client [] (test_url p payload))
           = true)
  ∧ (PrimFloat.leb 0 baseline_time = true →
     (∀ history url,
        PrimFloat.leb 8 (clock_before (client history url)) = true
        ∧ PrimFloat.leb 8 (clock_after (client history url)) = true) →
     ∀ v, v ∈ result.1 →
       ∃ url p payload response_time,
         let delay := (response_time - baseline_time)%float in
         PrimFloat.ltb 5 delay = true
         ∧ v = TimeBasedBlind url p payload baseline_time response_time
                 delay (if PrimFloat.ltb 10 delay then High else Medium))
  ∧ (let baseline :=
       InjectionExample.page_of_length 1000 0x1.3333333333333p-2 in
     let strategy seconds :=
       SQLiScanner._test_time_based
         (InjectionExample.timed_client 1000 seconds)
         [InjectionExample.sleep_payload] InjectionExample.id_params
         baseline [] in
     let scan seconds :=
       SQLiScanner.scan (InjectionExample.timed_client 1000 seconds)
         [InjectionExample.quote_payload] [InjectionExample.sleep_payload]
         InjectionExample.no_match InjectionExample.same
         InjectionExample.id_params [] in
     let verdict v :=
       (is_time_finding v, finding_parameter v, finding_confidence v) in
     map verdict (strategy 6.5%float).1 = [(true, py "id", Medium)]
     ∧ map verdict (strategy 11%float).1 = [(true, py "id", High)]
     ∧ (strategy 5%float).1 = []
     ∧ map verdict (scan 6.5%float).1 = [(true, py "id", Medium)]
     ∧ map verdict (scan 11%float).1 = [(true, py "id", High)]
     ∧ (scan 5%float).1 = []).
Proof.
  intros baseline_time payloads test_url result.
  set (body := λ q, time_payload_loop params baseline_time q payloads).
  assert (Hbody : ∀ q log' v,
            (body q log').1 = Some v → finding_parameter v = q).
  { intros q log' v Hv.
    by apply time_payload_loop_finding in Hv as (? & ? & _ & _ & ->). }
  assert (Hfinding : ∀ v, v ∈ result.1 →
            ∃ p payload history,
              let reply := client history (test_url p payload) in
              let response_time :=
                (clock_after reply - clock_before reply)%float in
              let delay := (response_time - baseline_time)%float in
              p ∈ params.*1 ∧ payload ∈ payloads
              ∧ exceeds_baseline baseline_time reply = true
              ∧ v = TimeBasedBlind (test_url p payload) p payload
                      baseline_time response_time delay
                      (if PrimFloat.ltb 10 delay then High
                       else if PrimFloat.ltb 5 delay then Medium else Low)).
  { intros v (p & log' & Hp & Hv)%param_loop_elem.
    apply time_payload_loop_finding in Hv
      as (payload & history & Hpayload & Hslow & ->).
    by exists p, payload, history. }
  split; [exact Hfinding|].
  split; [|split; [|split; [|by vm_compute]]].
  - intros Hnodup i p Hi before.
    etransitivity;
      [exact (param_loop_reports body _ log i p Hbody Hnodup Hi)|].
    apply time_payload_loop_reports.
  - intros Hstateless Hnodup p [i Hi]%list_elem_of_lookup.
    etransitivity;
      [exact (param_loop_reports body _ log i p Hbody Hnodup Hi)|].
    unfold body. rewrite time_payload_loop_reports. cbn zeta. split.
    + intros (j & payload & Hj & Hslow). exists payload.
      split; [by eapply list_elem_of_lookup_2|].
      rewrite <- Hslow. f_equal. apply Hstateless.
    + intros (payload & [j Hj]%list_elem_of_lookup & Hslow).
      exists j, payload. split; [done|].
      rewrite <- Hslow. f_equal. apply Hstateless.
  - intros Hbaseline Hclock v
      (p & payload & history & _ & _ & Hslow & ->)%Hfinding.
    eexists _, _, _, _. cbn zeta.
    destruct (Hclock history (test_url p payload)) as [Hstart Hend].
    unfold exceeds_baseline in Hslow.
    destruct (outcome _); [|done..].
    rewrite (FloatRounding.delay_above_five _ _ _ Hbaseline Hstart Hend Hslow).
    split; [done|]. by destruct (PrimFloat.ltb 10 _).
Qed.

End Scan.

(** *** Concrete runs *)

Import InjectionExample.



Lemma boolean_differential_rule_lengths :
  let baseline := page_of_length 1000 0 in
  let run := _test_boolean_based length_client id_params baseline [] in
  _responses_differ_significantly (page_of_length 1005 0)
    (page_of_length 1300 0) baseline = true
  ∧ (∀ history history' url,
       length_client history url = length_client history' url)
  ∧ NoDup id_params.*1
  ∧ py "id" ∈ id_params.*1
  ∧ ∃ v, v ∈ run.1
         ∧ is_boolean_finding v = true ∧ finding_parameter v = py "id"
         ∧ finding_confidence v = High.
Proof.
  intros baseline run.
  assert (Hstateless : ∀ history history' url,
            length_client history url = length_client history' url)
    by done.
  assert (Hnodup : NoDup id_params.*1)
    by (repeat constructor; by intros ?%elem_of_nil).
  assert (Hin : py "id" ∈ id_params.*1) by apply list_elem_of_here.
  split; [by vm_compute|]. repeat (split; [assumption|]).
  destruct (boolean_differential_rule length_client id_params baseline
              (py "id") []) as (_ & _ & _ & _ & Hhigh & _ & Hrule & _).
  destruct (proj2 (Hrule Hstateless Hnodup Hin)) as (v & Hv & Hp).
  { exists (page_of_length 1005 0), (page_of_length 1300 0).
    split; [by vm_compute|]. split; [by vm_compute|].
    apply responses_differ_iff. by vm_compute. }
  exists v. destruct (Hhigh v Hv) as (? & _ & ?). done.
Defined.

Lemma timing_differential_rule_slow_answer :
  let client := timed_client 1000 6.5 in
  let baseline := page_of_length 1000 0x1.3333333333333p-2 in
  let result :=
    _test_time_based client [sleep_payload] id_params baseline [] in
  PrimFloat.leb 0 (elapsed baseline) = true
  ∧ (∀ history url,
       PrimFloat.leb 8 (clock_before (client history url)) = true
       ∧ PrimFloat.leb 8 (clock_after (client history url)) = true)
  ∧ (∀ history history' url, client history url = client history' url)
  ∧ NoDup id_params.*1
  ∧ py "id" ∈ id_params.*1
  ∧ exceeds_baseline (elapsed baseline)
      (client [] (WithQuery (set_param id_params (py "id") sleep_payload)))
    = true
  ∧ ∃ v, v ∈ result.1 ∧ finding_parameter v = py "id"
         ∧ finding_confidence v ≠ Low.
Proof.
  intros client baseline result.
  assert (Hbaseline : PrimFloat.leb 0 (elapsed baseline) = true)
    by reflexivity.
  assert (Hclock : ∀ history url,
            PrimFloat.leb 8 (clock_before (client history url)) = true
            ∧ PrimFloat.leb 8 (clock_after (client history url)) = true).
  { intros history [|q]; [by vm_compute|].
    unfold client, timed_client, slow_client.
    destruct (bool_decide _); by vm_compute. }
  assert (Hstateless : ∀ history history' url,
            client history url = client history' url)
    by done.
  assert (Hnodup : NoDup id_params.*1)
    by (repeat constructor; by intros ?%elem_of_nil).
  assert (Hin : py "id" ∈ id_params.*1) by apply list_elem_of_here.
  assert (Hslow : exceeds_baseline (elapsed baseline)
                    (client [] (WithQuery (set_param id_params (py "id")
                                             sleep_payload))) = true)
    by (by vm_compute).
  repeat (split; [assumption|]).
  destruct (timing_differential_rule client [sleep_payload] id_params
              baseline []) as (_ & _ & Hreports & Hnever & _).
  destruct (proj2 (Hreports Hstateless Hnodup (py "id") Hin))
    as (v & Hv & Hp).
  { exists sleep_payload. split; [apply list_elem_of_here|exact Hslow]. }
  exists v. split; [exact Hv|]. split; [exact Hp|].
  destruct (Hnever Hbaseline Hclock v Hv) as (? & ? & ? & rt & _ & ->).
  cbn [finding_confidence]. by destruct (PrimFloat.ltb 10 _).
Defined.

(** The two cases of the design document for the timing strategy: with a
    baseline of 0.3 s, an answer after 6.5 s is reported with confidence
    Medium, one after 11 s with confidence High, and one after 5 s is not
    reported. *)
Lemma timing_examples :
  map finding_confidence
      (scan (slow_client 6.5) [quote_payload] [sleep_payload] no_match same
         id_params []).1 = [Medium]
  ∧ map finding_confidence
        (scan (slow_client 11) [quote_payload] [sleep_payload] no_match same
           id_params []).1 = [High]
  ∧ (scan (slow_client 5) [quote_payload] [sleep_payload] no_match same
       id_params []).1 = [].
Proof. by vm_compute. Qed.

(** The clock matters.  Were its readings 0 and [5.25 + 2^-50], which
    no reading of the seconds since 1970 is, then with a baseline of
    [0.25 + 2^-51] s the guard [response_time > baseline_time + 5] would
    hold, since the sum rounds to 5.25, while the delay [response_time -
    baseline_time] rounds to 5, which is not above 5: the finding would
    carry Low. *)
Lemma low_confidence_below_clock_bound :
  let baseline_time := 0x1.0000000000008p-2%float in
  let response_time := 0x1.5000000000001p+2%float in
  (baseline_time + 5 = 5.25)%float
  ∧ PrimFloat.ltb (baseline_time + 5) response_time = true
  ∧ (response_time - baseline_time = 5)%float
  ∧ _calculate_time_confidence response_time baseline_time = Low
  ∧ map (λ v, (is_time_finding v, finding_parameter v, finding_confidence v))
        (_test_time_based (slow_client response_time) [sleep_payload]
           id_params (page_of_length 1000 baseline_time) []).1
    = [(true, py "id", Low)].
Proof. by vm_compute. Qed.

End InjectionProbes.
